(** * Azure DevOps commit report generator: model and verification

    A shallow embedding of [git_rep_gen.py] (the author-filtering variant)
    and of the functions of [azure_commits_pdf.py] that differ from it.

    Modelling conventions.
    - A Python [str] is a [string]; one character is one [ascii].  The string
      methods the program calls ([in], [replace], [split], [startswith],
      [lower], [strip], slicing, [len]) are written out below with Python's
      semantics on such strings.
    - A raised exception is a value of [exn]; a function that may raise
      returns a [result].
    - The dictionaries of the grouped report are finite maps ([gmap]); the
      renderer sorts their keys, so insertion order is not observable.
    - The remote API is a parameter of the functions that call it: what each
      HTTP call yields (an exception, a status code, a JSON body) is an
      argument, so a statement quantified over these arguments holds for
      every behaviour of the remote side. *)

From Stdlib Require Import ZArith Ascii String.
From stdpp Require Import gmap strings list fin_maps sorting.

(** ** Exceptions *)

Inductive exn : Type :=
| ValueError (msg : string)      (* raise ValueError(...) *)
| IndexError                     (* list index out of range *)
| KeyError (key : string)        (* missing dictionary key *)
| RequestException               (* requests.exceptions.RequestException and subclasses *)
| OtherException.                (* any other subclass of Exception *)

Inductive result (A : Type) : Type :=
| Ok (a : A)
| Raise (e : exn).
Arguments Ok {A} a.
Arguments Raise {A} e.

#[global] Instance result_ret : MRet result := fun A a => Ok a.
#[global] Instance result_bind : MBind result := fun A B k r =>
  match r with
  | Ok a => k a
  | Raise e => Raise e
  end.

(** ** Python string methods *)

Module PyStr.

(** [s.startswith(p)] *)
Fixpoint startswith (p s : string) : bool :=
  match p, s with
  | EmptyString, _ => true
  | String a p', String b s' => if Ascii.eqb a b then startswith p' s' else false
  | String _ _, EmptyString => false
  end.

(** [sub in s] *)
Fixpoint contains (sub s : string) : bool :=
  startswith sub s ||
  match s with
  | EmptyString => false
  | String _ s' => contains sub s'
  end.

(** [s.replace(old, new)] for a non-empty [old]: scan from the left, replace
    each occurrence and resume after it.  [skip] counts the characters of a
    matched occurrence still to be dropped.  (Every call in the program
    passes a non-empty literal for [old].) *)
Fixpoint replace_from (old new : string) (skip : nat) (s : string) : string :=
  match s with
  | EmptyString => EmptyString
  | String c s' =>
      match skip with
      | S k => replace_from old new k s'
      | O =>
          if startswith old s
          then new +:+ replace_from old new (Nat.pred (String.length old)) s'
          else String c (replace_from old new O s')
      end
  end.

Definition replace (old new s : string) : string := replace_from old new O s.

(** [s.split(sep)] for a one-character separator: always at least one part. *)
Fixpoint split (sep : ascii) (s : string) : list string :=
  match s with
  | EmptyString => [EmptyString]
  | String c s' =>
      if Ascii.eqb c sep then EmptyString :: split sep s'
      else match split sep s' with
           | h :: t => String c h :: t
           | [] => [String c EmptyString]
           end
  end.

(** [c.lower()] on one character: the letters A-Z. *)
Definition lower_char (c : ascii) : ascii :=
  let n := nat_of_ascii c in
  if (Nat.leb 65 n && Nat.leb n 90)%bool then ascii_of_nat (n + 32) else c.

(** [s.lower()] *)
Fixpoint lower (s : string) : string :=
  match s with
  | EmptyString => EmptyString
  | String c s' => String (lower_char c) (lower s')
  end.

(** [c.isspace()]: the whitespace characters that [strip()] removes
    (tab, line feed, vertical tab, form feed, carriage return, the four
    separators 28-31 and the space). *)
Definition isspace (c : ascii) : bool :=
  let n := nat_of_ascii c in
  ((Nat.leb 9 n && Nat.leb n 13) || (Nat.leb 28 n && Nat.leb n 32))%bool.

Fixpoint lstrip (s : string) : string :=
  match s with
  | EmptyString => EmptyString
  | String c s' => if isspace c then lstrip s' else s
  end.

Fixpoint rstrip (s : string) : string :=
  match s with
  | EmptyString => EmptyString
  | String c s' =>
      match rstrip s' with
      | EmptyString => if isspace c then EmptyString else String c EmptyString
      | r => String c r
      end
  end.

(** [s.strip()] *)
Definition strip (s : string) : string := rstrip (lstrip s).

(** [s[:n]] *)
Fixpoint slice_to (n : nat) (s : string) : string :=
  match n, s with
  | O, _ => EmptyString
  | _, EmptyString => EmptyString
  | S n', String c s' => String c (slice_to n' s')
  end.

(** The character ['\n']. *)
Definition newline : ascii := ascii_of_nat 10.

(** [s.replace('\n', ' ')]: a one-character pattern, replaced in place. *)
Definition newline_str : string := String newline EmptyString.

(** A string with every character mapped. *)
Fixpoint map_string (f : ascii -> ascii) (s : string) : string :=
  match s with
  | EmptyString => EmptyString
  | String c s' => String (f c) (map_string f s')
  end.

(** A newline becomes a space, any other character stays. *)
Definition unbreak (c : ascii) : ascii :=
  if Ascii.eqb c newline then " "%char else c.

(** No whitespace at the front. *)
Definition starts_clean (s : string) : Prop :=
  match s with
  | EmptyString => True
  | String c _ => isspace c = false
  end.

(** A string of exactly one hundred characters. *)
Definition hundred : string :=
  "0123456789012345678901234567890123456789012345678901234567890123456789012345678901234567890123456789".

End PyStr.

(** ** URL parser: [parse_repo_url] (identical in both files) *)

Module UrlParser.
Import PyStr.

(** [parts[i]]: raises IndexError out of range. *)
Definition index (parts : list string) (i : nat) : result string :=
  match parts !! i with
  | Some p => Ok p
  | None => Raise IndexError
  end.

(** [parts[3] if len(parts) > 3 else parts[2].replace('_git/', '')] *)
Definition repo_name_of (parts : list string) : result string :=
  if Nat.ltb 3 (length parts) then index parts 3
  else p2 ← index parts 2; Ok (replace "_git/" "" p2).

Definition parse_repo_url (repo_url : string)
  : result (string * string * string) :=
  if contains "dev.azure.com" repo_url then
    let parts := split "/" (replace "https://dev.azure.com/" "" repo_url) in
    organization ← index parts 0;
    project ← index parts 1;
    repo_name ← repo_name_of parts;
    Ok (organization, project, repo_name)
  else if contains "visualstudio.com" repo_url then
    let parts := split "/" (replace "https://" "" repo_url) in
    p0 ← index parts 0;
    let organization := replace ".visualstudio.com" "" p0 in
    project ← index parts 1;
    repo_name ← repo_name_of parts;
    Ok (organization, project, repo_name)
  else
    Raise (ValueError ("Unsupported repository URL format: " +:+ repo_url)).

(** The test that selects a branch of [parse_repo_url]: one of the two host
    names occurs in the string. *)
Definition recognized (repo_url : string) : bool :=
  contains "dev.azure.com" repo_url || contains "visualstudio.com" repo_url.

(** The two formats the comment of [parse_repo_url] expects:
    [https://dev.azure.com/{organization}/{project}/_git/{repository}] and
    [https://{organization}.visualstudio.com/{project}/_git/{repository}]. *)
Definition azure_url (organization project repository : string) : string :=
  "https://dev.azure.com/" +:+ organization +:+ "/" +:+ project
    +:+ "/_git/" +:+ repository.

Definition visualstudio_url (organization project repository : string) : string :=
  "https://" +:+ organization +:+ ".visualstudio.com/" +:+ project
    +:+ "/_git/" +:+ repository.

(** A component of such a URL: not empty and without ["/"]. *)
Definition component (s : string) : bool :=
  negb (String.eqb s "") && negb (contains "/" s).

(** What the claim asks of the parser on one string. *)
Definition total_on_recognized (repo_url : string) : Prop :=
  (recognized repo_url = true ->
   exists organization project repository,
     parse_repo_url repo_url = Ok (organization, project, repository)
     /\ organization <> "" /\ project <> "" /\ repository <> "")
  /\ (recognized repo_url = false ->
      exists msg, parse_repo_url repo_url = Raise (ValueError msg)).

End UrlParser.

(** ** Python's [sorted] *)

Module PySort.

(** [sorted] is a stable sort.  [before y x] says that [y] goes strictly
    before [x] in the requested order; an element is inserted in front of the
    first element that does not go strictly before it, so elements that
    compare equal keep the order of the input (also under [reverse=True]). *)
Fixpoint insert_sorted {A} (before : A -> A -> bool) (x : A) (l : list A) : list A :=
  match l with
  | [] => [x]
  | y :: l' => if before y x then y :: insert_sorted before x l' else x :: l
  end.

Definition sorted_by {A} (before : A -> A -> bool) (l : list A) : list A :=
  foldr (insert_sorted before) [] l.

(** [ordered before a b]: [b] does not go strictly before [a]. *)
Definition ordered {A} (before : A -> A -> bool) (a b : A) : Prop :=
  before b a = false.

(** [sorted(keys)] on strings: ascending code-point order. *)
Definition sorted_str (keys : list string) : list string :=
  sorted_by (fun y x => String.ltb y x) keys.

(** [sorted(keys, reverse=True)] on strings. *)
Definition sorted_str_reverse (keys : list string) : list string :=
  sorted_by (fun y x => String.ltb x y) keys.

End PySort.

(** ** Timestamps

    A [datetime] is the value [datetime.fromisoformat] returns for a commit's
    ['author']['date'] string after the program has rewritten a trailing [Z]
    to [+00:00]: the calendar fields as written in the string and the UTC
    offset in seconds.  Two such values compare by the instant they denote. *)

Module Datetime.

Record datetime : Type := mk_datetime {
  year : Z; month : Z; day : Z;
  hour : Z; minute : Z; second : Z; microsecond : Z;
  utcoffset : Z
}.

#[global] Instance datetime_eq_dec : EqDecision datetime.
Proof. solve_decision. Defined.

Definition is_leap (y : Z) : bool :=
  ((y mod 4 =? 0) && (negb (y mod 100 =? 0) || (y mod 400 =? 0)))%Z.

Definition days_before_year (y : Z) : Z :=
  (let p := y - 1 in p * 365 + p / 4 - p / 100 + p / 400)%Z.

Definition days_before_month (y m : Z) : Z :=
  (nth (Z.to_nat (m - 1)) [0; 31; 59; 90; 120; 151; 181; 212; 243; 273; 304; 334] 0
   + (if (2 <? m) && is_leap y then 1 else 0))%Z.

Definition toordinal (d : datetime) : Z :=
  (days_before_year (year d) + days_before_month (year d) (month d) + day d)%Z.

(** The instant, in microseconds: the key two aware datetimes compare by. *)
Definition instant (d : datetime) : Z :=
  ((toordinal d * 86400 + hour d * 3600 + minute d * 60 + second d
    - utcoffset d) * 1000000 + microsecond d)%Z.

Definition digit (n : Z) : ascii := ascii_of_nat (48 + Z.to_nat (n mod 10)).

Definition pad2 (n : Z) : string :=
  String (digit (n / 10)) (String (digit n) EmptyString).

Definition pad4 (n : Z) : string :=
  String (digit (n / 1000)) (String (digit (n / 100)) (pad2 n)).

(** [d.strftime('%Y-%m-%d')] *)
Definition strftime_date (d : datetime) : string :=
  pad4 (year d) +:+ "-" +:+ pad2 (month d) +:+ "-" +:+ pad2 (day d).

(** [d.strftime('%H:%M:%S')] *)
Definition strftime_time (d : datetime) : string :=
  pad2 (hour d) +:+ ":" +:+ pad2 (minute d) +:+ ":" +:+ pad2 (second d).

End Datetime.

(** ** Branch resolver: [get_commit_branches] *)

Module BranchResolver.
Import PyStr.

(** What one [session.get] yields. *)
Inductive body (A : Type) : Type :=
| Undecodable                 (* [response.json()] or [data.get] raises *)
| NoValue                     (* a JSON object without the key ['value'] *)
| Value (items : list A).     (* the ['value'] array *)
Arguments Undecodable {A}.
Arguments NoValue {A}.
Arguments Value {A} items.

Inductive http (A : Type) : Type :=
| Fails (e : exn)                              (* the call raised (timeout, connection error) *)
| Response (status_code : Z) (json : body A).
Arguments Fails {A} e.
Arguments Response {A} status_code json.

(** An item of the refs listing: its ['name'], [None] when the item has no
    usable name (the subscript [ref['name']] or [startswith] raises). *)
Definition ref_item : Type := option string.

(** What the containment probe of one candidate yields. *)
Inductive probe : Type :=
| ProbeFails                       (* the call raised *)
| ProbeStatus (status_code : Z).

(** [response.json()] followed by [data.get('value', [])]. *)
Definition value_of {A} (json : body A) : result (list A) :=
  match json with
  | Undecodable => Raise OtherException
  | NoValue => Ok []
  | Value items => Ok items
  end.

Definition sentinel : list string := ["main/master"].

Definition common_branches : list string :=
  ["main"; "master"; "develop"; "dev"; "feature"].

Definition in_list (x : string) (l : list string) : bool := bool_decide (x ∈ l).

(** The loop over [data.get('value', [])] that fills [all_branches]. *)
Fixpoint head_names (all_branches : list string) (refs : list ref_item)
  : result (list string) :=
  match refs with
  | [] => Ok all_branches
  | None :: _ => Raise (KeyError "name")
  | Some name :: rest =>
      if startswith "refs/heads/" name
      then head_names (all_branches ++ [replace "refs/heads/" "" name]) rest
      else head_names all_branches rest
  end.

(** The two loops that fill [branches_to_check]. *)
Definition add_common (all_branches : list string) : list string :=
  foldl (fun to_check branch =>
           if in_list branch all_branches then to_check ++ [branch] else to_check)
        [] common_branches.

Definition add_others (all_branches to_check : list string) : list string :=
  foldl (fun to_check branch =>
           if in_list branch to_check then to_check else to_check ++ [branch])
        to_check (take 3 all_branches).

Definition branches_to_check (all_branches : list string) : list string :=
  add_others all_branches (add_common all_branches).

(** The probing loop.  [ask n b] is what the [n]-th probe of this resolution
    yields when it asks for branch [b].  The result is [branches_found]
    together with the list of branches probed, in order. *)
Fixpoint probe_loop (ask : nat -> string -> probe) (n : nat)
    (to_check branches_found probed : list string) : list string * list string :=
  match to_check with
  | [] => (branches_found, probed)
  | branch_name :: rest =>
      match ask n branch_name with
      | ProbeFails =>                                    (* except: continue *)
          probe_loop ask (S n) rest branches_found (probed ++ [branch_name])
      | ProbeStatus status_code =>
          let found :=
            if (status_code =? 200)%Z then branches_found ++ [branch_name]
            else branches_found in
          if Nat.leb 2 (length found)
          then (found, probed ++ [branch_name])           (* break *)
          else probe_loop ask (S n) rest found (probed ++ [branch_name])
      end
  end.

(** The candidates of [probed] whose probe answers with status 200, when
    the first of them is the [n]-th probe of the resolution. *)
Fixpoint confirmations (ask : nat -> string -> probe) (n : nat)
    (probed : list string) : list string :=
  match probed with
  | [] => []
  | b :: rest =>
      match ask n b with
      | ProbeStatus status_code =>
          if (status_code =? 200)%Z then b :: confirmations ask (S n) rest
          else confirmations ask (S n) rest
      | ProbeFails => confirmations ask (S n) rest
      end
  end.

(** [response.json()], [data.get('value', [])] and the loop over the refs:
    the names of the head refs, or the exception raised on the way. *)
Definition all_branches_of (json : body ref_item) : result (list string) :=
  data ← value_of json; head_names [] data.

(** The body of the outer [try]: the result and the probes issued. *)
Definition resolve (refs : http ref_item) (ask : nat -> string -> probe)
  : result (list string) * list string :=
  match refs with
  | Fails e => (Raise e, [])
  | Response status_code json =>
      if (status_code =? 200)%Z then
        match all_branches_of json with
        | Raise e => (Raise e, [])
        | Ok all_branches =>
            let '(branches_found, probed) :=
              probe_loop ask 0 (branches_to_check all_branches) [] [] in
            (Ok (match branches_found with
                 | [] => sentinel
                 | _ => branches_found
                 end), probed)
        end
      else (Ok sentinel, [])
  end.

(** [try: ... except Exception: return ['main/master']] *)
Definition get_commit_branches (refs : http ref_item) (ask : nat -> string -> probe)
  : result (list string) :=
  match fst (resolve refs ask) with
  | Ok branches => Ok branches
  | Raise _ => Ok sentinel
  end.

(** The probes [get_commit_branches] issues, in order. *)
Definition probes_issued (refs : http ref_item) (ask : nat -> string -> probe)
  : list string := snd (resolve refs ask).

(** The variant of [azure_commits_pdf.py]: one call that lists the refs of
    the commit, no probing. *)
Fixpoint basic_head_names (branches : list string) (refs : list ref_item)
  : result (list string) :=
  match refs with
  | [] => Ok branches
  | None :: _ => Raise (KeyError "name")
  | Some name :: rest =>
      if startswith "refs/heads/" name
      then basic_head_names (branches ++ [replace "refs/heads/" "" name]) rest
      else basic_head_names branches rest
  end.

Definition basic_sentinel : list string := ["unknown"].

Definition basic_resolve (refs : http ref_item) : result (list string) :=
  match refs with
  | Fails e => Raise e
  | Response status_code json =>
      if (status_code =? 200)%Z then
        data ← value_of json;
        branches ← basic_head_names [] data;
        Ok (match branches with [] => basic_sentinel | _ => branches end)
      else Ok basic_sentinel
  end.

Definition basic_get_commit_branches (refs : http ref_item) : result (list string) :=
  match basic_resolve refs with
  | Ok branches => Ok branches
  | Raise _ => Ok basic_sentinel
  end.

End BranchResolver.

(** ** Commit fetcher: [fetch_commits] *)

Module Fetcher.
Import PyStr BranchResolver.

(** An item of the commit listing, as the API returns it.  A field is [None]
    when its key is absent: [.get(key, default)] then yields the default and
    a subscript raises KeyError. *)
Record api_author : Type := mk_api_author {
  name : option string;
  email : option string;
  date : option string
}.

Record api_commit : Type := mk_api_commit {
  commitId : option string;
  author : option api_author;
  comment : option string
}.

(** The item once [fetch_commits] has attached the repository identity and
    the branch list to it. *)
Record fetched_commit : Type := mk_fetched {
  item : api_commit;
  repository : string;
  organization : string;
  project : string;
  branches : list string
}.

(** The remote side during one [fetch_commits]: the commit listing, and for
    the [i]-th retained commit the refs listing and the probes of its
    [get_commit_branches]. *)
Record remote : Type := mk_remote {
  commits_call : http api_commit;
  refs_call : nat -> http ref_item;
  probe_call : nat -> nat -> string -> probe
}.

(** [{}], the default of [commit.get('author', {})]. *)
Definition no_author : api_author :=
  {| name := None; email := None; date := None |}.

(** [commit.get('author', {}).get('email', '')] *)
Definition raw_email (commit : api_commit) : string :=
  default "" (email (default no_author (author commit))).

(** [commit.get('author', {}).get('name', '')] *)
Definition raw_name (commit : api_commit) : string :=
  default "" (name (default no_author (author commit))).

Definition author_email (commit : api_commit) : string := lower (raw_email commit).
Definition author_name (commit : api_commit) : string := lower (raw_name commit).

(** The condition of the client-side filter. *)
Definition author_matches (author_filter : string) (commit : api_commit) : bool :=
  let author_filter_lower := lower author_filter in
  contains author_filter_lower (author_email commit)
  || contains author_filter_lower (author_name commit)
  || String.eqb (author_email commit) author_filter_lower
  || String.eqb (author_name commit) author_filter_lower.

(** [if author_filter:] holds for a string that is not empty. *)
Definition truthy (author_filter : option string) : bool :=
  match author_filter with
  | Some (String _ _) => true
  | _ => false
  end.

(** The loop that builds [filtered_commits]. *)
Definition filter_by_author (author_filter : string) (commits : list api_commit)
  : list api_commit :=
  foldl (fun filtered_commits commit =>
           if author_matches author_filter commit
           then filtered_commits ++ [commit]
           else filtered_commits)
        [] commits.

Definition client_filter (author_filter : option string) (commits : list api_commit)
  : list api_commit :=
  match author_filter with
  | Some f => if truthy author_filter then filter_by_author f commits else commits
  | None => commits
  end.

(** The condition as the specification words it: the lowercased filter
    occurs in the lowercased email or in the lowercased name, or equals one
    of them. *)
Definition kept (author_filter : string) (commit : api_commit) : Prop :=
  contains (lower author_filter) (lower (raw_email commit)) = true
  \/ contains (lower author_filter) (lower (raw_name commit)) = true
  \/ lower (raw_email commit) = lower author_filter
  \/ lower (raw_name commit) = lower author_filter.

#[global] Instance kept_dec f c : Decision (kept f c).
Proof. unfold kept. apply _. Defined.

(** [response.raise_for_status()]: a status from 400 to 599 raises HTTPError,
    a RequestException. *)
Definition raise_for_status (status_code : Z) : result unit :=
  if ((400 <=? status_code) && (status_code <? 600))%Z
  then Raise RequestException else Ok tt.

(** [commit['commitId']] *)
Definition subscript_commitId (commit : api_commit) : result string :=
  match commitId commit with
  | Some id => Ok id
  | None => Raise (KeyError "commitId")
  end.

(** The loop that attaches identity and branches; [i] is the position of the
    commit in the loop. *)
Fixpoint attach (w : remote) (skip_branches : bool)
    (organization project repo_name : string) (i : nat)
    (commits : list api_commit) : result (list fetched_commit) :=
  match commits with
  | [] => Ok []
  | commit :: rest =>
      bs ← (if skip_branches then Ok ["main"]
            else _ ← subscript_commitId commit;
                 get_commit_branches (refs_call w i) (probe_call w i));
      done ← attach w skip_branches organization project repo_name (S i) rest;
      Ok (mk_fetched commit repo_name organization project bs :: done)
  end.

(** The body of the [try].  (The token and the look-back window only shape
    the request; the wall clock is not modelled.) *)
Definition fetch_commits_try (w : remote) (repo_url : string)
    (skip_branches : bool) (author_filter : option string)
  : result (list fetched_commit) :=
  '(organization, project, repo_name) ← UrlParser.parse_repo_url repo_url;
  match commits_call w with
  | Fails e => Raise e
  | Response status_code json =>
      _ ← raise_for_status status_code;
      commits ← value_of json;
      attach w skip_branches organization project repo_name 0
             (client_filter author_filter commits)
  end.

(** [try: ... except RequestException: return [] except Exception: return []] *)
Definition fetch_commits (w : remote) (repo_url : string)
    (skip_branches : bool) (author_filter : option string)
  : result (list fetched_commit) :=
  match fetch_commits_try w repo_url skip_branches author_filter with
  | Ok commits => Ok commits
  | Raise RequestException => Ok []
  | Raise _ => Ok []
  end.

(** The loop of [main] over the configured repositories:
    [all_commits.extend(fetcher.fetch_commits(...))]. *)
Fixpoint fetch_all (repos : list (remote * string)) (skip_branches : bool)
    (author_filter : option string) : result (list fetched_commit) :=
  match repos with
  | [] => Ok []
  | (w, repo_url) :: rest =>
      commits ← fetch_commits w repo_url skip_branches author_filter;
      more ← fetch_all rest skip_branches author_filter;
      Ok (commits ++ more)
  end.

End Fetcher.

(** ** Aggregator: [organize_commits_by_date_and_repo] *)

Module Aggregator.
Import Datetime.

(** A commit as the aggregator and the renderer read it: every key they
    subscript is present; ['branches'] is read with a default and may be
    absent. *)
Record commit : Type := mk_commit {
  commitId : string;
  author_name : string;
  author_email : string;
  author_date : datetime;
  comment : string;
  repository : string;
  organization : string;
  project : string;
  branches : option (list string)
}.

#[global] Instance commit_eq_dec : EqDecision commit.
Proof. solve_decision. Defined.

(** date -> repository -> branch -> commits *)
Abbreviation branch_map := (gmap string (list commit)).
Abbreviation repo_map := (gmap string (gmap string (list commit))).
Abbreviation report := (gmap string (gmap string (gmap string (list commit)))).

(** [commit_date.strftime('%Y-%m-%d')] *)
Definition date_key (c : commit) : string := strftime_date (author_date c).

(** [commit.get('branches', ['unknown'])] *)
Definition branches_of (c : commit) : list string :=
  default ["unknown"] (branches c).

(** [d[k]] on a [defaultdict] followed by an update in place of the value:
    a missing key is first created with the value of the factory. *)
Definition update_default {A} (factory : A) (k : string) (f : A -> A)
    (d : gmap string A) : gmap string A :=
  <[k := f (default factory (d !! k))]> d.

(** [organized[date_key][repo_name][branch].append(commit)] *)
Definition append_commit (date_key repo_name branch : string) (c : commit)
    (organized : report) : report :=
  update_default ∅ date_key
    (update_default ∅ repo_name
       (update_default [] branch (fun commits => commits ++ [c])))
    organized.

Definition add_commit (organized : report) (c : commit) : report :=
  foldl (fun organized branch =>
           append_commit (date_key c) (repository c) branch c organized)
        organized (branches_of c).

Definition organize_commits_by_date_and_repo (all_commits : list commit) : report :=
  foldl add_commit ∅ all_commits.

(** The leaf list under three keys, empty when a key is absent. *)
Definition leaf (organized : report) (d r b : string) : list commit :=
  match organized !! d with
  | Some repos =>
      match repos !! r with
      | Some branch_lists => default [] (branch_lists !! b)
      | None => []
      end
  | None => []
  end.

(** All (date, repository, branch) keys of a report. *)
Definition leaf_keys (organized : report) : list (string * string * string) :=
  '(d, repos) ← map_to_list organized;
  '(r, branch_lists) ← map_to_list repos;
  '(b, _) ← map_to_list branch_lists;
  [(d, r, b)].

(** The number of leaf lists that have [c] as a member. *)
Definition leaves_with (c : commit) (organized : report) : nat :=
  length (filter (fun k => c ∈ leaf organized k.1.1 k.1.2 k.2) (leaf_keys organized)).

(** The appends that the two nested loops perform, in order: one per
    commit and entry of its branch list. *)
Definition insertions (all_commits : list commit)
  : list (string * string * string * commit) :=
  c ← all_commits; b ← branches_of c; [(date_key c, repository c, b, c)].

Definition insert_all (ins : list (string * string * string * commit))
    (organized : report) : report :=
  foldl (fun organized i => append_commit i.1.1.1 i.1.1.2 i.1.2 i.2 organized)
        organized ins.

(** Two reports that are the same mapping of mappings of mappings, the leaf
    lists compared as multisets. *)
Definition same_map {A} (R : relation A) (m1 m2 : gmap string A) : Prop :=
  forall k, option_Forall2 R (m1 !! k) (m2 !! k).

Definition report_equiv (r1 r2 : report) : Prop :=
  same_map (same_map (same_map Permutation)) r1 r2.

(** "Member of exactly N leaf lists, N the number of entries of the branch
    list", for a commit of the input. *)
Definition in_as_many_leaves_as_entries (all_commits : list commit) : Prop :=
  forall c, c ∈ all_commits ->
            leaves_with c (organize_commits_by_date_and_repo all_commits)
            = length (branches_of c).

(** Sample commits: one resolved to two branches, one whose branch list
    names the same branch twice. *)
Definition noon : datetime := mk_datetime 2024 1 2 12 0 0 0 0.

Definition two_branches : commit :=
  mk_commit "0123456789abcdef" "Alice" "alice@example.com" noon "Fix the parser"
            "repo" "org" "proj" (Some ["main"; "dev"]).

Definition same_branch_twice : commit :=
  mk_commit "fedcba9876543210" "Bob" "bob@example.com" noon "Add a test"
            "repo" "org" "proj" (Some ["main"; "main"]).

(** Two commits on consecutive days. *)
Definition jan2_10h : commit :=
  mk_commit "aaaaaaaaaaaa" "Alice" "alice@example.com"
            (mk_datetime 2024 1 2 10 0 0 0 0) "second day"
            "repo" "org" "proj" (Some ["main"]).

Definition jan1_23h : commit :=
  mk_commit "bbbbbbbbbbbb" "Bob" "bob@example.com"
            (mk_datetime 2024 1 1 23 0 0 0 0) "first day"
            "repo" "org" "proj" (Some ["main"]).

End Aggregator.

(** ** Report renderer: [generate_pdf]

    The document is the list [story] handed to the layout library. *)

Module Renderer.
Import PyStr PySort Datetime Aggregator.

Inductive block : Type :=
| Title (text : string)
| GeneratedOn (now : string)
| FilteredBy (author_filter : string)
| Spacer (height : nat)
| SummaryTable (total_commits : nat) (date_range : string) (repositories : nat)
| DateHeader (date : string)
| RepoHeader (repo_name : string)
| BranchHeader (branch_name : string) (count : nat)
| CommitParagraph (time_str message name email commit_id : string).

(** [message = commit['comment'].strip().replace('\n', ' ')[:100]], then
    ["..."] is appended when [len(commit['comment'].strip()) > 100]. *)
Definition render_message (comment : string) : string :=
  let message := slice_to 100 (replace newline_str " " (strip comment)) in
  if Nat.ltb 100 (String.length (strip comment)) then message +:+ "..." else message.

Definition commit_paragraph (c : commit) : block :=
  CommitParagraph (strftime_time (author_date c))
                  (render_message (comment c))
                  (author_name c) (author_email c)
                  (slice_to 8 (commitId c)).

(** [d.keys()] *)
Definition keys {A} (d : gmap string A) : list string := (map_to_list d).*1.

(** [sum(len(commits) for date_commits in organized_commits.values()
         for repo_commits in date_commits.values()
         for commits in repo_commits.values())] *)
Definition total_commits (organized : report) : nat :=
  sum_list ('(_, date_commits) ← map_to_list organized;
            '(_, repo_commits) ← map_to_list date_commits;
            '(_, commits) ← map_to_list repo_commits;
            [length commits]).

(** [min(keys)] and [max(keys)] of a non-empty list of strings. *)
Definition min_str (k : string) (ks : list string) : string :=
  foldl (fun m x => if String.ltb x m then x else m) k ks.
Definition max_str (k : string) (ks : list string) : string :=
  foldl (fun m x => if String.ltb m x then x else m) k ks.

Definition date_range (organized : report) : string :=
  match keys organized with
  | [] => "No commits"
  | k :: ks => min_str k ks +:+ " to " +:+ max_str k ks
  end.

(** [len(set(repo for date_commits in organized_commits.values()
                 for repo in date_commits.keys()))] *)
Definition repositories (organized : report) : nat :=
  size (list_to_set (C := gset string)
          ('(_, date_commits) ← map_to_list organized; keys date_commits)).

(** [sorted(commits, key=<author timestamp>, reverse=True)] *)
Definition sorted_commits (commits : list commit) : list commit :=
  sorted_by (fun y x => (instant (author_date x) <? instant (author_date y))%Z) commits.

(** The body of [for branch_name in sorted(branches.keys())]. *)
Definition branch_blocks (branch_lists : branch_map) (branch_name : string)
  : list block :=
  let commits := branch_lists !!! branch_name in
  BranchHeader branch_name (length commits)
    :: map commit_paragraph (sorted_commits commits).

(** The body of [for repo_name in sorted(repos.keys())]. *)
Definition repo_blocks (repos : repo_map) (repo_name : string) : list block :=
  let branch_lists := repos !!! repo_name in
  RepoHeader repo_name
    :: flat_map (branch_blocks branch_lists) (sorted_str (keys branch_lists))
    ++ [Spacer 12].

(** The body of [for date in sorted_dates]. *)
Definition date_blocks (organized : report) (date : string) : list block :=
  let repos := organized !!! date in
  DateHeader date
    :: flat_map (repo_blocks repos) (sorted_str (keys repos))
    ++ [Spacer 20].

Definition header_blocks (organized : report) (now : string)
    (author_filter : option string) : list block :=
  [Title "Azure DevOps Commits Report"; GeneratedOn now]
  ++ (match author_filter with
      | Some (String c f) => [FilteredBy (String c f)]
      | _ => []
      end)
  ++ [Spacer 20;
      SummaryTable (total_commits organized) (date_range organized)
                   (repositories organized);
      Spacer 30].

(** The [story] that [generate_pdf] builds; [now] is the formatted wall
    clock. *)
Definition generate_pdf (organized : report) (now : string)
    (author_filter : option string) : list block :=
  header_blocks organized now author_filter
  ++ flat_map (date_blocks organized) (sorted_str_reverse (keys organized)).

(** *** Reading a story back

    The outline of a story: its date headers in order, under each the
    repository headers that follow it, under each of these the branch headers
    that follow, and under each branch header its commit paragraphs. *)

Abbreviation branch_outline := (string * list block)%type.
Abbreviation repo_outline := (string * list (string * list block))%type.
Abbreviation date_outline := (string * list (string * list (string * list block)))%type.

Record reading : Type := mk_reading {
  paragraphs : list block;              (* paragraphs not yet under a branch header *)
  branch_part : list branch_outline;    (* branches not yet under a repository header *)
  repo_part : list repo_outline;        (* repositories not yet under a date header *)
  date_part : list date_outline
}.

(** One step of reading a story from its end. *)
Definition read_block (b : block) (s : reading) : reading :=
  match b with
  | CommitParagraph _ _ _ _ _ =>
      mk_reading (b :: paragraphs s) (branch_part s) (repo_part s) (date_part s)
  | BranchHeader branch_name _ =>
      mk_reading [] ((branch_name, paragraphs s) :: branch_part s)
                 (repo_part s) (date_part s)
  | RepoHeader repo_name =>
      mk_reading [] [] ((repo_name, branch_part s) :: repo_part s) (date_part s)
  | DateHeader date =>
      mk_reading [] [] [] ((date, repo_part s) :: date_part s)
  | _ => s
  end.

Definition outline (story : list block) : list date_outline :=
  date_part (foldr read_block (mk_reading [] [] [] []) story).

(** The outline that the nested loops of [generate_pdf] produce. *)
Definition branch_part_of (branch_lists : branch_map) : list branch_outline :=
  (fun b => (b, commit_paragraph <$> sorted_commits (branch_lists !!! b)))
    <$> sorted_str (keys branch_lists).

Definition repo_part_of (repos : repo_map) : list repo_outline :=
  (fun r => (r, branch_part_of (repos !!! r))) <$> sorted_str (keys repos).

Definition date_part_of (organized : report) : list date_outline :=
  (fun d => (d, repo_part_of (organized !!! d))) <$> sorted_str_reverse (keys organized).

(** The sum of [f] over the values of a dictionary. *)
Definition sum_values {A} (f : A -> nat) (m : gmap string A) : nat :=
  sum_list_with (fun kv => f kv.2) (map_to_list m).

(** *** The ordering contract, on the outline of a story *)

Definition str_lt (a b : string) : Prop := String.ltb a b = true.

(** Not later than: the instant of [y] is at most that of [x]. *)
Definition newer_first (x y : commit) : Prop :=
  (instant (author_date y) <= instant (author_date x))%Z.

(** The paragraphs under a branch header are those of the commits of the
    leaf list, most recent first. *)
Definition commits_in_order (commits : list commit) (paragraphs : list block) : Prop :=
  exists sorted,
    sorted ≡ₚ commits
    /\ StronglySorted newer_first sorted
    /\ paragraphs = commit_paragraph <$> sorted.

(** The branch headers under a repository header: every branch key once, in
    ascending order, each with its commits in order. *)
Definition branches_in_order (branch_lists : branch_map)
    (part : list branch_outline) : Prop :=
  part.*1 ≡ₚ keys branch_lists
  /\ StronglySorted str_lt part.*1
  /\ Forall (fun entry => commits_in_order (branch_lists !!! entry.1) entry.2) part.

(** The repository headers under a date header: every repository key once,
    in ascending order. *)
Definition repos_in_order (repos : repo_map) (part : list repo_outline) : Prop :=
  part.*1 ≡ₚ keys repos
  /\ StronglySorted str_lt part.*1
  /\ Forall (fun entry => branches_in_order (repos !!! entry.1) entry.2) part.

(** The date headers of the story: every date key once, in descending
    order. *)
Definition dates_in_order (organized : report) (part : list date_outline) : Prop :=
  part.*1 ≡ₚ keys organized
  /\ StronglySorted (flip str_lt) part.*1
  /\ Forall (fun entry => repos_in_order (organized !!! entry.1) entry.2) part.

(** A calendar date that [strftime] renders with four and two digits. *)
Definition printable_date (d : datetime) : Prop :=
  (0 <= year d <= 9999 /\ 0 <= month d <= 99 /\ 0 <= day d <= 99)%Z.

(** Earlier calendar date. *)
Definition date_before (a b : datetime) : Prop :=
  (year a < year b
   \/ (year a = year b /\ (month a < month b
                          \/ (month a = month b /\ day a < day b))))%Z.

(** What the claim about truncation asks of one message, read literally. *)
Definition truncated_as_stated (comment : string) : Prop :=
  (100 < String.length comment ->
   render_message comment = slice_to 100 comment +:+ "...")
  /\ (String.length comment <= 100 -> render_message comment = comment).

End Renderer.

(** ** Refs and branch names *)

Module RefNames.
Import PyStr BranchResolver.

(** [ref['name'].replace('refs/heads/', '')] *)
Definition branch_name_of_ref (name : string) : string :=
  replace "refs/heads/" "" name.

(** The branch names of the head refs of a listing, in listing order. *)
Definition heads (names : list string) : list string :=
  branch_name_of_ref <$> filter (fun n => startswith "refs/heads/" n = true) names.

(** The branch names found among all the candidates, in candidate order. *)
Definition confirmed_candidates (ask : nat -> string -> probe)
    (all_branches : list string) : list string :=
  confirmations ask 0 (branches_to_check all_branches).

End RefNames.

(** ** URLs by their path segments *)

Module UrlPaths.
Import PyStr UrlParser.

(** The list [parts] that [parse_repo_url] computes on a recognized URL. *)
Definition parts_of (repo_url : string) : list string :=
  if contains "dev.azure.com" repo_url
  then split "/" (replace "https://dev.azure.com/" "" repo_url)
  else split "/" (replace "https://" "" repo_url).

(** The organization it reads from [parts[0]]. *)
Definition organization_of (repo_url p0 : string) : string :=
  if contains "dev.azure.com" repo_url then p0
  else replace ".visualstudio.com" "" p0.

(** ['/'.join(segments)] *)
Fixpoint join_path (segments : list string) : string :=
  match segments with
  | [] => ""
  | [a] => a
  | a :: rest => a +:+ "/" +:+ join_path rest
  end.

(** A [dev.azure.com] URL with the given path segments. *)
Definition path_url (segments : list string) : string :=
  "https://dev.azure.com/" +:+ join_path segments.

End UrlPaths.

(** ** The result of a fetch that succeeds *)

Module FetchResults.
Import BranchResolver Fetcher.

(** The value of [self.get_commit_branches(...)] for the [i]-th retained
    commit (the call never raises). *)
Definition branches_at (w : remote) (i : nat) : list string :=
  match get_commit_branches (refs_call w i) (probe_call w i) with
  | Ok branches => branches
  | Raise _ => sentinel
  end.

(** The retained commits after the loop that attaches identity and branches
    has gone through all of them. *)
Definition with_identity (w : remote) (skip_branches : bool)
    (organization project repo_name : string) (commits : list api_commit)
  : list fetched_commit :=
  imap (fun i commit =>
          mk_fetched commit repo_name organization project
                     (if skip_branches then ["main"] else branches_at w i))
       commits.

End FetchResults.

(** ** The shape of a report *)

Module ReportShape.
Import Datetime Aggregator.

(** No level of the report holds an empty container. *)
Definition populated (organized : report) : Prop :=
  forall d repos, organized !! d = Some repos ->
    repos <> ∅
    /\ forall r branch_lists, repos !! r = Some branch_lists ->
         branch_lists <> ∅
         /\ forall b commits, branch_lists !! b = Some commits -> commits <> [].

(** What one commit of the input adds to the leaf under [d], [r] and [b]:
    itself, once for each time [b] occurs in its branch list. *)
Definition leaf_entries (d r b : string) (c : commit) : list commit :=
  if decide (date_key c = d /\ repository c = r)
  then (fun _ => c) <$> filter (fun x => x = b) (branches_of c)
  else [].

End ReportShape.

(** ** Counting the blocks of a story *)

Module StoryCounts.
Import Renderer.

(** The number of commit paragraphs in a story. *)
Definition paragraph_count (story : list block) : nat :=
  sum_list_with (fun b => match b with
                          | CommitParagraph _ _ _ _ _ => 1
                          | _ => 0
                          end) story.

(** The sum of the counts that the branch headers of a story announce. *)
Definition announced_count (story : list block) : nat :=
  sum_list_with (fun b => match b with
                          | BranchHeader _ count => count
                          | _ => 0
                          end) story.

End StoryCounts.

(** ** [main] up to the report *)

Module Main.
Import PyStr BranchResolver Fetcher.

(** An entry of [repos_config].  A key is [None] when the entry lacks it, as
    an entry of the config file may; the entries typed at the prompts have
    both keys. *)
Record repo_config : Type := mk_repo_config {
  url : option string;
  token : option string
}.

(** What [open] and [json.load] make of the file named by [--config]. *)
Inductive config_file : Type :=
| NotFound                                            (* FileNotFoundError *)
| InvalidJson                                         (* json.JSONDecodeError *)
| Loaded (repositories : option (list repo_config)).  (* an object, with or without the key *)

(** How [main] ends, or that it goes on to organize and render. *)
Inductive outcome : Type :=
| Exit (code : Z)
| Uncaught (e : exn)
| Proceeds (all_commits : list fetched_commit) (author : option string).

(** [input()] at the end of the input raises EOFError. *)
Definition eof : exn := OtherException.

(** The [while True] loop over the prompts; [inputs] are the lines typed. *)
Fixpoint prompt_repos (inputs : list string) (repos_config : list repo_config)
  : result (list repo_config * list string) :=
  match inputs with
  | [] => Raise eof
  | line :: inputs' =>
      let repo_url := strip line in
      if String.eqb (lower repo_url) "done" then Ok (repos_config, inputs')
      else match inputs' with
           | [] => Raise eof
           | line' :: rest =>
               prompt_repos rest
                 (repos_config ++ [mk_repo_config (Some repo_url) (Some (strip line'))])
           end
  end.

(** [if not args.author: ...]: the prompt for the author filter. *)
Definition prompt_author (author : option string) (inputs : list string)
  : result (option string) :=
  if truthy author then Ok author
  else match inputs with
       | [] => Raise eof
       | line :: _ =>
           match strip line with
           | EmptyString => Ok author
           | author_input => Ok (Some author_input)
           end
       end.

(** The part of [main] that ends with [repos_config] and [args.author]
    set; [config] is [None] when [--config] is not given. *)
Definition configure (config : option config_file) (inputs : list string)
    (author : option string) : outcome + (list repo_config * option string) :=
  match config with
  | None =>
      match prompt_repos inputs [] with
      | Raise e => inl (Uncaught e)
      | Ok ([], _) => inl (Exit 1)
      | Ok (repos_config, rest) =>
          match prompt_author author rest with
          | Raise e => inl (Uncaught e)
          | Ok author' => inr (repos_config, author')
          end
      end
  | Some NotFound => inl (Exit 1)
  | Some InvalidJson => inl (Exit 1)
  | Some (Loaded repositories) => inr (default [] repositories, author)
  end.

(** [repo_config[key]] *)
Definition subscript (key : string) (v : option string) : result string :=
  match v with
  | Some s => Ok s
  | None => Raise (KeyError key)
  end.

(** [for repo_config in repos_config: ... all_commits.extend(commits)];
    [world i] is the remote side during the fetch of the [i]-th entry. *)
Fixpoint fetch_loop (world : nat -> remote) (i : nat)
    (repos_config : list repo_config) (skip_branches : bool)
    (author : option string) (all_commits : list fetched_commit)
  : result (list fetched_commit) :=
  match repos_config with
  | [] => Ok all_commits
  | repo_config :: rest =>
      repo_url ← subscript "url" (url repo_config);
      _ ← subscript "token" (token repo_config);
      commits ← fetch_commits (world i) repo_url skip_branches author;
      fetch_loop world (S i) rest skip_branches author (all_commits ++ commits)
  end.

Definition main (config : option config_file) (inputs : list string)
    (author : option string) (skip_branches : bool) (world : nat -> remote)
  : outcome :=
  match configure config inputs author with
  | inl o => o
  | inr (repos_config, author) =>
      match fetch_loop world 0 repos_config skip_branches author [] with
      | Raise e => Uncaught e
      | Ok [] => Exit 1
      | Ok all_commits => Proceeds all_commits author
      end
  end.

(** The lines typed for a list of (URL, token) answers. *)
Definition typed (answers : list (string * string)) : list string :=
  '(repo_url, token) ← answers; [repo_url; token].

(** The entries [prompt_repos] makes of them. *)
Definition entered (answers : list (string * string)) : list repo_config :=
  (fun a => mk_repo_config (Some (strip a.1)) (Some (strip a.2))) <$> answers.

(** The fetches of [main] for entries that have a URL. *)
Definition fetches (world : nat -> remote) (i : nat)
    (repos_config : list repo_config) : list (remote * string) :=
  imap (fun j repo_config => (world (i + j), default "" (url repo_config)))
       repos_config.

End Main.

(** ** The authentication header *)

Module Auth.

(** Six bits, the most significant first. *)
Definition sextet : Type := (bool * bool * bool * bool * bool * bool)%type.

Definition alphabet : string :=
  "ABCDEFGHIJKLMNOPQRSTUVWXYZabcdefghijklmnopqrstuvwxyz0123456789+/".

Definition bit (b : bool) : nat := if b then 1 else 0.

Definition sextet_index (s : sextet) : nat :=
  let '(b5, b4, b3, b2, b1, b0) := s in
  32 * bit b5 + 16 * bit b4 + 8 * bit b3 + 4 * bit b2 + 2 * bit b1 + bit b0.

Definition encode_sextet (s : sextet) : ascii :=
  match String.get (sextet_index s) alphabet with
  | Some c => c
  | None => "="%char
  end.

(** [base64.b64encode]: three bytes give four characters; one or two bytes
    left over are filled with zero bits and the group is padded with [=]. *)
Fixpoint b64encode (bytes : string) : string :=
  match bytes with
  | EmptyString => EmptyString
  | String (Ascii a0 a1 a2 a3 a4 a5 a6 a7) EmptyString =>
      String (encode_sextet (a7, a6, a5, a4, a3, a2))
        (String (encode_sextet (a1, a0, false, false, false, false)) "==")
  | String (Ascii a0 a1 a2 a3 a4 a5 a6 a7)
      (String (Ascii b0 b1 b2 b3 b4 b5 b6 b7) EmptyString) =>
      String (encode_sextet (a7, a6, a5, a4, a3, a2))
        (String (encode_sextet (a1, a0, b7, b6, b5, b4))
           (String (encode_sextet (b3, b2, b1, b0, false, false)) "="))
  | String (Ascii a0 a1 a2 a3 a4 a5 a6 a7)
      (String (Ascii b0 b1 b2 b3 b4 b5 b6 b7)
         (String (Ascii c0 c1 c2 c3 c4 c5 c6 c7) rest)) =>
      String (encode_sextet (a7, a6, a5, a4, a3, a2))
        (String (encode_sextet (a1, a0, b7, b6, b5, b4))
           (String (encode_sextet (b3, b2, b1, b0, c7, c6))
              (String (encode_sextet (c5, c4, c3, c2, c1, c0)) (b64encode rest))))
  end.

(** [self.session.headers] *)
Abbreviation headers := (gmap string string).

(** [setup_auth]: the token is a string of bytes, as [auth_string.encode()]
    makes it. *)
Definition setup_auth (token : string) (session_headers : headers) : headers :=
  let auth_string := ":" +:+ token in
  let encoded_auth := b64encode auth_string in
  <["Content-Type" := "application/json"]>
    (<["Authorization" := "Basic " +:+ encoded_auth]> session_headers).

(** Reading the encoding back, as the server does. *)
Fixpoint index_of (c : ascii) (s : string) : option nat :=
  match s with
  | EmptyString => None
  | String x s' => if Ascii.eqb c x then Some 0 else S <$> index_of c s'
  end.

Definition sextet_of (n : nat) : sextet :=
  (Nat.testbit n 5, Nat.testbit n 4, Nat.testbit n 3,
   Nat.testbit n 2, Nat.testbit n 1, Nat.testbit n 0).

Definition decode_char (c : ascii) : option sextet :=
  sextet_of <$> index_of c alphabet.

Fixpoint b64decode (s : string) : option string :=
  match s with
  | EmptyString => Some EmptyString
  | String c1 (String c2 (String c3 (String c4 rest))) =>
      '(a7, a6, a5, a4, a3, a2) ← decode_char c1;
      '(a1, a0, b7, b6, b5, b4) ← decode_char c2;
      if Ascii.eqb c3 "=" then Some (String (Ascii a0 a1 a2 a3 a4 a5 a6 a7) "")
      else
        '(b3, b2, b1, b0, c7, c6) ← decode_char c3;
        if Ascii.eqb c4 "="
        then Some (String (Ascii a0 a1 a2 a3 a4 a5 a6 a7)
                     (String (Ascii b0 b1 b2 b3 b4 b5 b6 b7) ""))
        else
          '(c5, c4', c3', c2', c1', c0) ← decode_char c4;
          bytes ← b64decode rest;
          Some (String (Ascii a0 a1 a2 a3 a4 a5 a6 a7)
                  (String (Ascii b0 b1 b2 b3 b4 b5 b6 b7)
                     (String (Ascii c0 c1' c2' c3' c4' c5 c6 c7) bytes)))
  | _ => None
  end.

End Auth.

(** ** The fetcher of [azure_commits_pdf.py] *)

Module BasicFetcher.
Import BranchResolver Fetcher.

(** The loop that attaches identity and branches: no toggle, and the
    resolver that lists the refs of the commit. *)
Fixpoint attach (w : remote) (organization project repo_name : string) (i : nat)
    (commits : list api_commit) : result (list fetched_commit) :=
  match commits with
  | [] => Ok []
  | commit :: rest =>
      bs ← (_ ← subscript_commitId commit;
            basic_get_commit_branches (refs_call w i));
      done ← attach w organization project repo_name (S i) rest;
      Ok (mk_fetched commit repo_name organization project bs :: done)
  end.

(** The body of the [try]: no author filter. *)
Definition fetch_commits_try (w : remote) (repo_url : string)
  : result (list fetched_commit) :=
  '(organization, project, repo_name) ← UrlParser.parse_repo_url repo_url;
  match commits_call w with
  | Fails e => Raise e
  | Response status_code json =>
      _ ← raise_for_status status_code;
      commits ← value_of json;
      attach w organization project repo_name 0 commits
  end.

Definition fetch_commits (w : remote) (repo_url : string)
  : result (list fetched_commit) :=
  match fetch_commits_try w repo_url with
  | Ok commits => Ok commits
  | Raise RequestException => Ok []
  | Raise _ => Ok []
  end.

(** A fetched commit without its branch list. *)
Definition identified (c : fetched_commit) : api_commit * string * string * string :=
  (item c, repository c, organization c, project c).

End BasicFetcher.

(** ** The timestamp handed to [fromisoformat] *)

Module IsoDate.
Import PyStr.

(** [commit['author']['date'].replace('Z', '+00:00')] *)
Definition utc_offset_form (date : string) : string := replace "Z" "+00:00" date.

End IsoDate.

(** * Properties *)

#[local] Arguments Ascii.eqb : simpl never.
#[local] Arguments String.eqb : simpl never.

(** ** Facts about the string methods *)

Module PyStrFacts.
Import PyStr.

Lemma str_app_cons c a s : String c a +:+ s = String c (a +:+ s).
Proof. reflexivity. Qed.

Lemma str_app_empty_l s : "" +:+ s = s.
Proof. reflexivity. Qed.

Lemma str_app_empty_r s : s +:+ "" = s.
Proof. induction s as [|c s IH]; [done|]. by rewrite str_app_cons, IH. Qed.

Lemma str_app_assoc a b c : (a +:+ b) +:+ c = a +:+ (b +:+ c).
Proof. induction a as [|x a IH]; [done|]. by rewrite !str_app_cons, IH. Qed.

Lemma str_length_app a b : String.length (a +:+ b) = (String.length a + String.length b)%nat.
Proof. induction a as [|x a IH]; [done|]. rewrite str_app_cons. simpl. by rewrite IH. Qed.

Lemma ascii_eqb_true a b : Ascii.eqb a b = true <-> a = b.
Proof. apply Ascii.eqb_eq. Qed.

Lemma startswith_spec p s : startswith p s = true <-> exists post, s = p +:+ post.
Proof.
  revert s. induction p as [|a p IH]; intros s.
  - split; [intros _; by exists s | by destruct s].
  - destruct s as [|b s]; simpl.
    + split; [done | intros [post Hpost]; discriminate].
    + destruct (Ascii.eqb a b) eqn:Hab.
      * apply ascii_eqb_true in Hab as ->. rewrite IH.
        split; intros [post Hpost]; exists post.
        -- by rewrite str_app_cons, <- Hpost.
        -- rewrite str_app_cons in Hpost. by injection Hpost.
      * split; [done|]. intros [post Hpost]. rewrite str_app_cons in Hpost.
        injection Hpost as -> _. rewrite Ascii.eqb_refl in Hab. done.
Qed.

Lemma startswith_app p s : startswith p (p +:+ s) = true.
Proof. apply startswith_spec. by exists s. Qed.

Lemma contains_spec sub s :
  contains sub s = true <-> exists pre post, s = pre +:+ sub +:+ post.
Proof.
  induction s as [|c s IH].
  - simpl. rewrite orb_false_r, startswith_spec. split.
    + intros [post Hpost]. by exists "", post.
    + intros [pre [post Hs]]. destruct pre; [by exists post | discriminate].
  - simpl. rewrite orb_true_iff, startswith_spec, IH. split.
    + intros [[post Hpost] | [pre [post Hs]]].
      * by exists "", post.
      * exists (String c pre), post. by rewrite str_app_cons, <- Hs.
    + intros [pre [post Hs]]. destruct pre as [|x pre].
      * left. by exists post.
      * right. rewrite str_app_cons in Hs. injection Hs as _ Hs. by exists pre, post.
Qed.

(** [sub in s] is transitive. *)
Lemma contains_trans a b c :
  contains a b = true -> contains b c = true -> contains a c = true.
Proof.
  rewrite !contains_spec. intros (p1 & q1 & ->) (p2 & q2 & ->).
  exists (p2 +:+ p1), (q1 +:+ q2). by rewrite !str_app_assoc.
Qed.

Lemma contains_refl s : contains s s = true.
Proof. apply contains_spec. exists "", "". by rewrite str_app_empty_r. Qed.

Lemma contains_cons_false sub c s :
  contains sub (String c s) = false ->
  startswith sub (String c s) = false /\ contains sub s = false.
Proof. simpl. by intros [? ?]%orb_false_iff. Qed.

(** Dropping the rest of a matched occurrence. *)
Lemma replace_from_skip old new pre s :
  replace_from old new (String.length pre) (pre +:+ s) = replace_from old new 0 s.
Proof. induction pre as [|c pre IH]; [done|]. rewrite str_app_cons. simpl. apply IH. Qed.

(** An occurrence at the front is replaced and the scan resumes after it. *)
Lemma replace_prefix c old new s :
  replace (String c old) new (String c old +:+ s) = new +:+ replace (String c old) new s.
Proof.
  unfold replace. rewrite str_app_cons. cbn [replace_from].
  rewrite <- str_app_cons, startswith_app. cbn [String.length Nat.pred].
  by rewrite replace_from_skip.
Qed.

(** Without an occurrence, nothing is replaced. *)
Lemma replace_absent old new s :
  contains old s = false -> replace old new s = s.
Proof.
  unfold replace. induction s as [|c s IH]; [done|].
  intros [Hsw Hs]%contains_cons_false. cbn [replace_from]. rewrite Hsw.
  by rewrite IH.
Qed.

(** A character that differs from the first of the pattern is kept. *)
Lemma replace_keep c p old new s :
  c <> p ->
  replace (String p old) new (String c s) = String c (replace (String p old) new s).
Proof.
  intros Hne. unfold replace. cbn [replace_from startswith].
  destruct (Ascii.eqb p c) eqn:E; [|done].
  apply ascii_eqb_true in E. congruence.
Qed.

(** A string free of the separator is one part. *)
Lemma split_one (sep : ascii) s :
  contains (String sep "") s = false -> split sep s = [s].
Proof.
  induction s as [|c s IH]; [done|].
  intros [Hsw Hs]%contains_cons_false. simpl in Hsw |- *.
  rewrite Ascii.eqb_sym. destruct (Ascii.eqb sep c); [done|]. by rewrite IH.
Qed.

(** The part before the first separator. *)
Lemma split_app (sep : ascii) a s :
  contains (String sep "") a = false ->
  split sep (a +:+ String sep s) = a :: split sep s.
Proof.
  induction a as [|c a IH].
  - intros _. rewrite str_app_empty_l. simpl. by rewrite Ascii.eqb_refl.
  - intros [Hsw Ha]%contains_cons_false. rewrite str_app_cons. simpl in Hsw |- *.
    rewrite Ascii.eqb_sym. destruct (Ascii.eqb sep c); [done|]. by rewrite IH.
Qed.

Lemma lower_char_idem c : lower_char (lower_char c) = lower_char c.
Proof. by destruct c as [[] [] [] [] [] [] [] []]. Qed.

Lemma lower_idem s : lower (lower s) = lower s.
Proof. induction s as [|c s IH]; [done|]. simpl. by rewrite lower_char_idem, IH. Qed.

Lemma length_slice_to n s : String.length (slice_to n s) = Nat.min n (String.length s).
Proof.
  revert s. induction n as [|n IH]; intros [|c s]; simpl; try done.
  by rewrite IH.
Qed.

Lemma slice_to_all n s : (String.length s <= n)%nat -> slice_to n s = s.
Proof.
  revert s. induction n as [|n IH]; intros [|c s]; simpl; try done; try lia.
  intros H. rewrite IH; [done | lia].
Qed.

End PyStrFacts.

(** ** The URL parser *)

Module UrlParserFacts.
Import PyStr PyStrFacts UrlParser.

Example parse_azure :
  parse_repo_url "https://dev.azure.com/org/proj/_git/repo" = Ok ("org", "proj", "repo").
Proof. reflexivity. Qed.

Example parse_visualstudio :
  parse_repo_url "https://org.visualstudio.com/proj/_git/repo" = Ok ("org", "proj", "repo").
Proof. reflexivity. Qed.

Example parse_other_host :
  parse_repo_url "https://github.com/a/b"
  = Raise (ValueError "Unsupported repository URL format: https://github.com/a/b").
Proof. reflexivity. Qed.

Lemma component_spec s :
  component s = true -> s <> "" /\ contains "/" s = false.
Proof.
  unfold component. intros [H1 H2]%andb_true_iff. split.
  - intros ->. done.
  - by apply negb_true_iff.
Qed.

Lemma component_no_slash_start s x :
  component s = true -> startswith "/" (s +:+ x) = false.
Proof.
  intros [Hne Hs]%component_spec. destruct s as [|c s]; [done|].
  apply contains_cons_false in Hs as [Hsw _]. rewrite str_app_cons.
  simpl in Hsw |- *. by destruct (Ascii.eqb "/" c).
Qed.

(** No ["//"] in [a/y] when [a] has no slash and [y] neither starts with a
    slash nor has a double slash. *)
Lemma no_double_slash a y :
  contains "/" a = false -> startswith "/" y = false -> contains "//" y = false ->
  contains "//" (a +:+ "/" +:+ y) = false.
Proof.
  intros Ha Hy1 Hy2. induction a as [|c a IH].
  - rewrite str_app_empty_l, str_app_cons, str_app_empty_l. simpl.
    destruct y as [|d y]; [done|]. simpl in Hy1, Hy2 |- *.
    destruct (Ascii.eqb "/" d); [done|]. simpl in Hy2. by rewrite Hy2.
  - apply contains_cons_false in Ha as [Hsw Ha]. rewrite str_app_cons.
    simpl in Hsw |- *. destruct (Ascii.eqb "/" c); [done|]. simpl. by apply IH.
Qed.

Lemma no_double_slash_one a :
  contains "/" a = false -> contains "//" a = false.
Proof.
  intros Ha. destruct (contains "//" a) eqn:E; [|done].
  rewrite <- Ha. symmetry. by apply (contains_trans "/" "//" a).
Qed.

(** The path [a/p/_git/r] of a URL of either format has no ["//"]. *)
Lemma path_no_double_slash a p r :
  contains "/" a = false -> component p = true -> component r = true ->
  contains "//" (a +:+ "/" +:+ p +:+ "/_git/" +:+ r) = false.
Proof.
  intros Ha Hp Hr.
  destruct (component_spec _ Hp) as [_ Hp']. destruct (component_spec _ Hr) as [_ Hr'].
  apply no_double_slash; [done | by apply component_no_slash_start |].
  change ("/_git/" +:+ r) with ("/" +:+ "_git" +:+ "/" +:+ r).
  apply no_double_slash; [done | done |].
  apply no_double_slash; [done | | by apply no_double_slash_one].
  rewrite <- (str_app_empty_r r). by apply component_no_slash_start.
Qed.

Lemma path_split a p r :
  contains "/" a = false -> component p = true -> component r = true ->
  split "/" (a +:+ "/" +:+ p +:+ "/_git/" +:+ r) = [a; p; "_git"; r].
Proof.
  intros Ha Hp Hr.
  destruct (component_spec _ Hp) as [_ Hp']. destruct (component_spec _ Hr) as [_ Hr'].
  change ("/" +:+ p +:+ "/_git/" +:+ r) with (String "/" (p +:+ "/_git/" +:+ r)).
  rewrite split_app by done.
  change ("/_git/" +:+ r) with (String "/" ("_git" +:+ String "/" r)).
  rewrite split_app by done. rewrite split_app by done. by rewrite split_one.
Qed.

(** A pattern with a double slash does not occur where there is none. *)
Lemma absent_without_double_slash old s :
  contains "//" old = true -> contains "//" s = false -> contains old s = false.
Proof.
  intros Hold Hs. destruct (contains old s) eqn:E; [|done].
  rewrite <- Hs. symmetry. by apply (contains_trans "//" old s).
Qed.

Lemma parse_azure_url o p r :
  component o = true -> component p = true -> component r = true ->
  parse_repo_url (azure_url o p r) = Ok (o, p, r).
Proof.
  intros Ho Hp Hr. destruct (component_spec _ Ho) as [_ Ho'].
  unfold parse_repo_url, azure_url.
  assert (contains "dev.azure.com" ("https://dev.azure.com/" +:+ o +:+ "/" +:+ p +:+ "/_git/" +:+ r) = true) as ->.
  { apply contains_spec. by exists "https://", ("/" +:+ o +:+ "/" +:+ p +:+ "/_git/" +:+ r). }
  rewrite (replace_prefix "h" "ttps://dev.azure.com/").
  rewrite replace_absent, str_app_empty_l.
  - by rewrite path_split.
  - apply absent_without_double_slash; [done | by apply path_no_double_slash].
Qed.

(** A string without ["."] loses exactly the host suffix. *)
Lemma strip_host_suffix o :
  contains "." o = false ->
  replace ".visualstudio.com" "" (o +:+ ".visualstudio.com") = o.
Proof.
  induction o as [|c o IH]; [done|].
  intros [Hsw Ho]%contains_cons_false. rewrite str_app_cons.
  rewrite replace_keep.
  - by rewrite IH.
  - simpl in Hsw. intros ->. by rewrite Ascii.eqb_refl in Hsw.
Qed.

Lemma contains_app_false sub a b :
  contains sub (a +:+ b) = false -> contains sub b = false.
Proof.
  intros H. destruct (contains sub b) eqn:E; [|done].
  rewrite <- H. symmetry. apply (contains_trans sub b); [done|].
  apply contains_spec. exists a, "". by rewrite str_app_empty_r.
Qed.

Lemma slash_free_host o :
  contains "/" o = false -> contains "/" (o +:+ ".visualstudio.com") = false.
Proof.
  induction o as [|c o IH]; [done|].
  intros [Hsw Ho]%contains_cons_false. rewrite str_app_cons. simpl in Hsw |- *.
  destruct (Ascii.eqb "/" c); [done|]. simpl. by apply IH.
Qed.

Lemma parse_visualstudio_url o p r :
  component o = true -> contains "." o = false ->
  component p = true -> component r = true ->
  contains "dev.azure.com" (visualstudio_url o p r) = false ->
  parse_repo_url (visualstudio_url o p r) = Ok (o, p, r).
Proof.
  intros Ho Hdot Hp Hr Hnot. destruct (component_spec _ Ho) as [_ Ho'].
  unfold parse_repo_url. rewrite Hnot. unfold visualstudio_url.
  assert (contains "visualstudio.com"
            ("https://" +:+ o +:+ ".visualstudio.com/" +:+ p +:+ "/_git/" +:+ r) = true) as ->.
  { apply contains_spec. exists ("https://" +:+ o +:+ "."), ("/" +:+ p +:+ "/_git/" +:+ r).
    by rewrite !str_app_assoc. }
  rewrite (replace_prefix "h" "ttps://"), str_app_empty_l.
  assert (o +:+ ".visualstudio.com/" +:+ p +:+ "/_git/" +:+ r
          = (o +:+ ".visualstudio.com") +:+ "/" +:+ p +:+ "/_git/" +:+ r) as ->.
  { by rewrite str_app_assoc. }
  pose proof (slash_free_host o Ho') as Hhost.
  rewrite replace_absent.
  - rewrite path_split by done. cbn. by rewrite strip_host_suffix.
  - apply absent_without_double_slash; [done | by apply path_no_double_slash].
Qed.

(** The unsupported-format error arises exactly when no host name occurs. *)
Lemma parse_unrecognized repo_url :
  recognized repo_url = false ->
  parse_repo_url repo_url
  = Raise (ValueError ("Unsupported repository URL format: " +:+ repo_url)).
Proof.
  unfold recognized, parse_repo_url. intros [-> ->]%orb_false_iff. done.
Qed.

Lemma index_raises parts i e : index parts i = Raise e -> e = IndexError.
Proof. unfold index. destruct (parts !! i); [done | by intros [= <-]]. Qed.

Lemma repo_name_of_raises parts e : repo_name_of parts = Raise e -> e = IndexError.
Proof.
  unfold repo_name_of. destruct (Nat.ltb 3 (length parts)).
  - apply index_raises.
  - destruct (index parts 2) eqn:E; [done|]. cbn. intros [= <-]. by eapply index_raises.
Qed.

Lemma parse_recognized_raises repo_url e :
  recognized repo_url = true -> parse_repo_url repo_url = Raise e -> e = IndexError.
Proof.
  unfold recognized, parse_repo_url. intros Hrec.
  destruct (contains "dev.azure.com" repo_url).
  - set (parts := split _ _). clearbody parts.
    destruct (index parts 0) eqn:E0; cbn; [|intros [= <-]; by eapply index_raises].
    destruct (index parts 1) eqn:E1; cbn; [|intros [= <-]; by eapply index_raises].
    destruct (repo_name_of parts) eqn:E2; cbn; [done|].
    intros [= <-]; by eapply repo_name_of_raises.
  - simpl in Hrec. rewrite Hrec.
    set (parts := split _ _). clearbody parts.
    destruct (index parts 0) eqn:E0; cbn; [|intros [= <-]; by eapply index_raises].
    destruct (index parts 1) eqn:E1; cbn; [|intros [= <-]; by eapply index_raises].
    destruct (repo_name_of parts) eqn:E2; cbn; [done|].
    intros [= <-]; by eapply repo_name_of_raises.
Qed.

Lemma parse_value_error_iff repo_url :
  recognized repo_url = false <-> exists msg, parse_repo_url repo_url = Raise (ValueError msg).
Proof.
  split.
  - intros H. eexists. by apply parse_unrecognized.
  - intros [msg H]. destruct (recognized repo_url) eqn:E; [|done].
    by apply (parse_recognized_raises _ _ E) in H.
Qed.

(** C1, as the code has it.  A string in which neither host name occurs is
    rejected with the unsupported-format error ([ValueError]).  A URL of one
    of the two documented formats whose organization, project and repository
    are non-empty and free of ["/"] (for the second format: the organization
    free of ["."] and the URL free of ["dev.azure.com"], which the first test
    looks for) parses to exactly these three components. *)
Theorem parse_repo_url_formats :
  (forall repo_url,
      recognized repo_url = false ->
      parse_repo_url repo_url
      = Raise (ValueError ("Unsupported repository URL format: " +:+ repo_url)))
  /\ (forall o p r,
        component o = true -> component p = true -> component r = true ->
        parse_repo_url (azure_url o p r) = Ok (o, p, r)
        /\ o <> "" /\ p <> "" /\ r <> "")
  /\ (forall o p r,
        component o = true -> contains "." o = false ->
        component p = true -> component r = true ->
        contains "dev.azure.com" (visualstudio_url o p r) = false ->
        parse_repo_url (visualstudio_url o p r) = Ok (o, p, r)
        /\ o <> "" /\ p <> "" /\ r <> "").
Proof.
  split; [apply parse_unrecognized|]. split.
  - intros o p r Ho Hp Hr. split; [by apply parse_azure_url|].
    split_and!; by eapply component_spec.
  - intros o p r Ho Hdot Hp Hr Hnot. split; [by apply parse_visualstudio_url|].
    split_and!; by eapply component_spec.
Qed.

Lemma parse_repo_url_formats_witness :
  parse_repo_url (azure_url "org" "proj" "repo") = Ok ("org", "proj", "repo")
  /\ parse_repo_url (visualstudio_url "org" "proj" "repo") = Ok ("org", "proj", "repo")
  /\ parse_repo_url "https://github.com/org/repo"
     = Raise (ValueError "Unsupported repository URL format: https://github.com/org/repo").
Proof.
  destruct parse_repo_url_formats as (Hother & Hazure & Hvs). split_and!.
  - apply Hazure; reflexivity.
  - apply Hvs; reflexivity.
  - apply Hother; reflexivity.
Defined.

(** C1 as the specification states it fails.  The string ["dev.azure.com"]
    is recognized and parsing it raises IndexError; a recognized URL with an
    empty organization parses to a triple with an empty component; and a URL
    of the second format whose organization is ["dev.azure.com"] takes the
    first branch and parses to the wrong triple. *)
Lemma parse_repo_url_not_total :
  recognized "dev.azure.com" = true
  /\ parse_repo_url "dev.azure.com" = Raise IndexError
  /\ parse_repo_url "https://dev.azure.com//p/_git/r" = Ok ("", "p", "r")
  /\ parse_repo_url (visualstudio_url "dev.azure.com" "p" "r") = Ok ("https:", "", "p")
  /\ ~ (forall repo_url, total_on_recognized repo_url).
Proof.
  split_and!; try reflexivity.
  intros H. destruct (H "dev.azure.com") as [Hrec _].
  destruct (Hrec eq_refl) as (o & p & r & Hparse & _). discriminate Hparse.
Qed.

End UrlParserFacts.

(** ** The branch resolver *)

Module BranchResolverFacts.
Import PyStr BranchResolver.

Lemma in_list_true x l : in_list x l = true <-> x ∈ l.
Proof. unfold in_list. apply bool_decide_eq_true. Qed.

Lemma in_list_false x l : in_list x l = false <-> x ∉ l.
Proof. unfold in_list. apply bool_decide_eq_false. Qed.

(** The first loop keeps the preferred names that exist, in their order. *)
Lemma foldl_keep (P : string -> bool) l acc :
  foldl (fun to_check branch => if P branch then to_check ++ [branch] else to_check) acc l
  = acc ++ filter (fun b => P b = true) l.
Proof.
  revert acc. induction l as [|b l IH]; intros acc; simpl.
  - by rewrite app_nil_r.
  - rewrite IH. rewrite filter_cons. destruct (P b) eqn:E.
    + rewrite decide_True by done. by rewrite <- app_assoc.
    + rewrite decide_False by congruence. done.
Qed.

Lemma add_common_filter (all_branches : list string) :
  add_common all_branches = filter (fun b => b ∈ all_branches) common_branches.
Proof.
  unfold add_common. rewrite foldl_keep. simpl.
  apply list_filter_iff. intros b. apply in_list_true.
Qed.

Lemma common_branches_NoDup : NoDup common_branches.
Proof.
  unfold common_branches.
  repeat (apply NoDup_cons_2; [by apply (bool_decide_unpack _); vm_compute|]).
  apply NoDup_nil_2.
Qed.

(** The second loop appends the branches of [l] that are new, once each. *)
Lemma foldl_add_new l to_check :
  NoDup to_check ->
  exists extra,
    foldl (fun to_check branch =>
             if in_list branch to_check then to_check else to_check ++ [branch])
          to_check l = to_check ++ extra
    /\ extra `sublist_of` l
    /\ NoDup (to_check ++ extra)
    /\ (forall b, b ∈ l -> b ∈ to_check ++ extra).
Proof.
  revert to_check. induction l as [|b l IH]; intros to_check Hnd; simpl.
  - exists []. rewrite app_nil_r. split_and!; [done | done | done |].
    intros b Hb. by apply elem_of_nil in Hb.
  - destruct (in_list b to_check) eqn:E.
    + apply in_list_true in E.
      destruct (IH to_check Hnd) as (extra & Heq & Hsub & Hnd' & Hall).
      exists extra. split_and!; [done | by apply sublist_cons | done |].
      intros x [->|Hx]%elem_of_cons; [|by apply Hall].
      apply elem_of_app. by left.
    + apply in_list_false in E.
      assert (NoDup (to_check ++ [b])) as Hnd1.
      { apply NoDup_app. split_and!; [done | | apply NoDup_singleton].
        intros x Hx Hxb%list_elem_of_singleton. by subst. }
      destruct (IH _ Hnd1) as (extra & Heq & Hsub & Hnd' & Hall).
      exists (b :: extra). rewrite Heq, <- !app_assoc. simpl.
      split_and!; [done | by apply sublist_skip | by rewrite <- app_assoc in Hnd' |].
      intros x [->|Hx]%elem_of_cons.
      * apply elem_of_app. right. by left.
      * specialize (Hall x Hx). by rewrite <- app_assoc in Hall.
Qed.

Lemma filter_common_NoDup (all_branches : list string) :
  NoDup (filter (fun b => b ∈ all_branches) common_branches).
Proof. apply NoDup_filter, common_branches_NoDup. Qed.

(** The candidate list: the preferred names that exist, then at most three
    further branches, taken from the first three of the full list. *)
Lemma branches_to_check_spec (all_branches : list string) :
  exists extra,
    branches_to_check all_branches
    = filter (fun b => b ∈ all_branches) common_branches ++ extra
    /\ extra `sublist_of` take 3 all_branches
    /\ length extra <= 3
    /\ NoDup (branches_to_check all_branches)
    /\ (forall b, b ∈ extra ->
                  b ∈ all_branches
                  /\ b ∉ filter (fun b => b ∈ all_branches) common_branches).
Proof.
  unfold branches_to_check, add_others. rewrite add_common_filter.
  destruct (foldl_add_new (take 3 all_branches) _ (filter_common_NoDup all_branches))
    as (extra & Heq & Hsub & Hnd & Hall).
  exists extra. rewrite Heq. split_and!; [done | done | | done |].
  - apply sublist_length in Hsub. rewrite length_take in Hsub. lia.
  - intros b Hb. split.
    + apply (sublist_subseteq _ _ Hsub) in Hb.
      by eapply (subseteq_take 3).
    + apply NoDup_app in Hnd as (_ & Hdisj & _). intros Hin. by apply (Hdisj b).
Qed.

Lemma branches_to_check_length (all_branches : list string) :
  length (branches_to_check all_branches) <= 8.
Proof.
  destruct (branches_to_check_spec all_branches) as (extra & -> & _ & Hlen & _).
  rewrite length_app.
  pose proof (length_filter (fun b => b ∈ all_branches) common_branches) as H.
  simpl in H. lia.
Qed.

Lemma confirmations_cons ask n b q :
  confirmations ask n (b :: q) = confirmations ask n [b] ++ confirmations ask (S n) q.
Proof. simpl. destruct (ask n b) as [|c]; [done|]. by destruct (c =? 200)%Z. Qed.

Lemma strict_prefix_cons {A} (b : A) q q' :
  q' `prefix_of` b :: q -> q' <> b :: q ->
  q' = [] \/ exists q'', q' = b :: q'' /\ q'' `prefix_of` q /\ q'' <> q.
Proof.
  intros Hpre Hne. destruct q' as [|b' q'']; [by left|]. right.
  pose proof (prefix_cons_inv_1 _ _ _ _ Hpre) as ->.
  apply prefix_cons_inv_2 in Hpre. exists q''. split_and!; [done | done | congruence].
Qed.

(** The probing loop: it probes a prefix of the candidates, keeps the
    confirmed ones, and stops at the end of the list or at the second
    confirmation, not before. *)
Lemma probe_loop_spec ask to_check :
  forall n found probed,
    length found < 2 ->
    exists q,
      q `prefix_of` to_check
      /\ probe_loop ask n to_check found probed
         = (found ++ confirmations ask n q, probed ++ q)
      /\ (q = to_check \/ length (found ++ confirmations ask n q) = 2)
      /\ (forall q', q' `prefix_of` q -> q' <> q ->
                     length (found ++ confirmations ask n q') < 2).
Proof.
  induction to_check as [|b rest IH]; intros n found probed Hlen.
  - exists []. simpl. rewrite !app_nil_r. split_and!; [done | done | by left |].
    intros q' Hq' Hne. apply prefix_nil_inv in Hq'. done.
  - set (one := confirmations ask n [b]).
    assert (length (found ++ one) < 2 ->
            probe_loop ask n (b :: rest) found probed
            = probe_loop ask (S n) rest (found ++ one) (probed ++ [b]) ->
            exists q,
              q `prefix_of` b :: rest
              /\ probe_loop ask n (b :: rest) found probed
                 = (found ++ confirmations ask n q, probed ++ q)
              /\ (q = b :: rest \/ length (found ++ confirmations ask n q) = 2)
              /\ (forall q', q' `prefix_of` q -> q' <> q ->
                             length (found ++ confirmations ask n q') < 2)) as Hcontinue.
    { intros Hlen' ->.
      destruct (IH (S n) (found ++ one) (probed ++ [b]) Hlen')
        as (q & Hpre & Heq & Hstop & Hmin).
      exists (b :: q). rewrite Heq, confirmations_cons, <- !app_assoc. fold one.
      split_and!; [by apply prefix_cons | done | | ].
      - destruct Hstop as [-> | Hstop]; [by left|]. right. by rewrite <- app_assoc in Hstop.
      - intros q' Hq' Hne.
        destruct (strict_prefix_cons _ _ _ Hq' Hne) as [-> | (q'' & -> & Hq'' & Hne'')].
        + simpl. by rewrite app_nil_r.
        + rewrite confirmations_cons. fold one. rewrite app_assoc. by apply Hmin. }
    assert (length (found ++ one) = 2 ->
            probe_loop ask n (b :: rest) found probed = (found ++ one, probed ++ [b]) ->
            exists q,
              q `prefix_of` b :: rest
              /\ probe_loop ask n (b :: rest) found probed
                 = (found ++ confirmations ask n q, probed ++ q)
              /\ (q = b :: rest \/ length (found ++ confirmations ask n q) = 2)
              /\ (forall q', q' `prefix_of` q -> q' <> q ->
                             length (found ++ confirmations ask n q') < 2)) as Hbreak.
    { intros Hlen' ->. exists [b]. fold one.
      split_and!; [apply prefix_cons, prefix_nil | done | by right |].
      intros q' Hq' Hne.
      destruct (strict_prefix_cons _ _ _ Hq' Hne) as [-> | (q'' & -> & Hq'' & Hne'')].
      - simpl. by rewrite app_nil_r.
      - by apply prefix_nil_inv in Hq''. }
    subst one. cbn [probe_loop confirmations] in Hcontinue, Hbreak |- *.
    destruct (ask n b) as [|c].
    + apply Hcontinue; [by rewrite app_nil_r | by rewrite app_nil_r].
    + destruct (c =? 200)%Z.
      * destruct (Nat.leb 2 (length (found ++ [b]))) eqn:Hfull.
        -- apply Nat.leb_le in Hfull. apply Hbreak; [|done].
           rewrite length_app in Hfull |- *. simpl in Hfull |- *. lia.
        -- apply Nat.leb_gt in Hfull. by apply Hcontinue.
      * rewrite (proj2 (Nat.leb_gt 2 (length found)) Hlen) in Hcontinue |- *.
        apply Hcontinue; [by rewrite app_nil_r | by rewrite app_nil_r].
Qed.

(** What [resolve] does once the refs listing has succeeded. *)
Lemma resolve_listed json ask all_branches :
  all_branches_of json = Ok all_branches ->
  exists probed,
    resolve (Response 200 json) ask
    = (Ok (match confirmations ask 0 probed with
           | [] => sentinel
           | found => found
           end), probed)
    /\ probed `prefix_of` branches_to_check all_branches
    /\ (probed = branches_to_check all_branches
        \/ length (confirmations ask 0 probed) = 2)
    /\ (forall q, q `prefix_of` probed -> q <> probed ->
                  length (confirmations ask 0 q) < 2).
Proof.
  intros Hall. unfold resolve. cbn [Z.eqb Pos.eqb]. rewrite Hall.
  destruct (probe_loop_spec ask (branches_to_check all_branches) 0 [] [])
    as (q & Hpre & Heq & Hstop & Hmin); [simpl; lia|].
  rewrite Heq. exists q. simpl in *.
  split; [by destruct (confirmations ask 0 q) | done].
Qed.

(** Without a successful listing no probe is issued and the result, if any,
    is the sentinel. *)
Lemma resolve_unlisted refs ask :
  (forall json all_branches,
      refs = Response 200 json -> all_branches_of json <> Ok all_branches) ->
  probes_issued refs ask = []
  /\ (fst (resolve refs ask) = Ok sentinel \/ exists e, fst (resolve refs ask) = Raise e).
Proof.
  intros Hno. unfold probes_issued, resolve. destruct refs as [e | status_code json].
  - split; [done | right; by exists e].
  - destruct (status_code =? 200)%Z eqn:Hs; [|split; [done | by left]].
    apply Z.eqb_eq in Hs as ->.
    destruct (all_branches_of json) as [all_branches | e] eqn:Hall.
    + by destruct (Hno json all_branches).
    + split; [done | right; by exists e].
Qed.

Lemma refs_listed_dec (refs : http ref_item) :
  (exists json all_branches,
      refs = Response 200 json /\ all_branches_of json = Ok all_branches)
  \/ (forall json all_branches,
        refs = Response 200 json -> all_branches_of json <> Ok all_branches).
Proof.
  destruct refs as [e | status_code json]; [right; by intros|].
  destruct (decide (status_code = 200%Z)) as [-> | Hne];
    [|right; intros ? ? [= ? ?]; by subst].
  destruct (all_branches_of json) as [all_branches | e] eqn:Hall.
  - left. by exists json, all_branches.
  - right. intros ? ? [= <-]. by rewrite Hall.
Qed.

(** The resolver returns, and what it returns is not empty. *)
Lemma get_commit_branches_returns (refs : http ref_item)
    (ask : nat -> string -> probe) :
  exists branches, get_commit_branches refs ask = Ok branches /\ branches <> [].
Proof.
  unfold get_commit_branches.
  destruct (fst (resolve refs ask)) as [branches | e] eqn:Hres; [|by exists sentinel].
  exists branches. split; [done|]. unfold resolve in Hres.
  destruct refs as [e | status_code json]; [done|].
  destruct (status_code =? 200)%Z; [|by injection Hres as <-].
  destruct (all_branches_of json) as [all_branches | e]; [|done].
  destruct (probe_loop ask 0 (branches_to_check all_branches) [] []) as [[|b found] probed];
    by injection Hres as <-.
Qed.

(** C4.  Whatever the remote side does (the refs call or any probe raising,
    any status code, an undecodable body, a ref without a name),
    [get_commit_branches] returns a list, and the list is not empty; it is
    the sentinel when resolution raised or no probed candidate was confirmed,
    and otherwise the confirmed candidates.  The variant of
    [azure_commits_pdf.py] likewise always returns a non-empty list, its own
    sentinel when resolution raised. *)
Theorem get_commit_branches_never_raises (refs : http ref_item)
    (ask : nat -> string -> probe) :
  (exists branches,
      get_commit_branches refs ask = Ok branches
      /\ branches <> []
      /\ (branches = sentinel
          \/ branches = confirmations ask 0 (probes_issued refs ask))
      /\ (confirmations ask 0 (probes_issued refs ask) = [] -> branches = sentinel)
      /\ (forall e, fst (resolve refs ask) = Raise e -> branches = sentinel))
  /\ (exists branches,
        basic_get_commit_branches refs = Ok branches
        /\ branches <> []
        /\ (forall e, basic_resolve refs = Raise e -> branches = basic_sentinel)).
Proof.
  split.
  - unfold get_commit_branches, probes_issued.
    destruct (refs_listed_dec refs) as [(json & all_branches & -> & Hall) | Hno].
    + destruct (resolve_listed json ask all_branches Hall) as (probed & -> & _).
      simpl. destruct (confirmations ask 0 probed) as [|b found] eqn:Hc.
      * exists sentinel. split_and!; try done. by left.
      * exists (b :: found). split_and!; try done. by right.
    + destruct (resolve_unlisted refs ask Hno) as [Hp [Hr | [e Hr]]];
        unfold probes_issued in Hp; rewrite Hr, Hp;
        exists sentinel; split_and!; try done; by left.
  - unfold basic_get_commit_branches.
    destruct (basic_resolve refs) as [branches | e] eqn:Hres.
    + exists branches. split_and!; [done | | done].
      unfold basic_resolve in Hres. destruct refs as [e | status_code json]; [done|].
      destruct (status_code =? 200)%Z; [|by injection Hres as <-].
      destruct (value_of json) as [data|]; [|done]. cbn in Hres.
      destruct (basic_head_names [] data) as [[|b bs]|]; cbn in Hres;
        [by injection Hres as <- | by injection Hres as <- | done].
    + exists basic_sentinel. split_and!; done.
Qed.

(** C5.  The candidate list is the preferred names that exist followed by at
    most three further branches of the full list, none repeated, so at most
    eight candidates.  The probes issued are a prefix of the candidate list,
    one per candidate; probing ends at the end of the list or at the second
    confirmation, and not before either. *)
Theorem probe_budget :
  (forall all_branches : list string,
      exists extra,
        branches_to_check all_branches
        = filter (fun b => b ∈ all_branches) common_branches ++ extra
        /\ extra `sublist_of` take 3 all_branches
        /\ length extra <= 3
        /\ NoDup (branches_to_check all_branches)
        /\ (forall b, b ∈ extra ->
                      b ∈ all_branches
                      /\ b ∉ filter (fun b => b ∈ all_branches) common_branches))
  /\ (forall refs ask,
        length (probes_issued refs ask) <= 8 /\ NoDup (probes_issued refs ask))
  /\ (forall json ask all_branches,
        all_branches_of json = Ok all_branches ->
        let probed := probes_issued (Response 200 json) ask in
        probed `prefix_of` branches_to_check all_branches
        /\ (probed = branches_to_check all_branches
            \/ length (confirmations ask 0 probed) = 2)
        /\ (forall q, q `prefix_of` probed -> q <> probed ->
                      length (confirmations ask 0 q) < 2)).
Proof.
  split; [apply branches_to_check_spec|]. split.
  - intros refs ask.
    destruct (refs_listed_dec refs) as [(json & all_branches & -> & Hall) | Hno].
    + destruct (resolve_listed json ask all_branches Hall) as (probed & Hres & Hpre & _).
      unfold probes_issued. rewrite Hres. simpl. split.
      * apply prefix_length in Hpre.
        pose proof (branches_to_check_length all_branches). lia.
      * destruct (branches_to_check_spec all_branches) as (_ & _ & _ & _ & Hnd & _).
        destruct Hpre as [k Hk]. rewrite Hk in Hnd. by apply NoDup_app in Hnd as [? _].
    + destruct (resolve_unlisted refs ask Hno) as [-> _]. simpl. split; [lia | constructor].
  - intros json ask all_branches Hall probed. subst probed.
    destruct (resolve_listed json ask all_branches Hall) as (probed & Hres & Hrest).
    unfold probes_issued. rewrite Hres. simpl. done.
Qed.

Lemma probe_budget_witness :
  probes_issued
    (Response 200 (Value [Some "refs/heads/dev"; Some "refs/heads/main";
                          Some "refs/heads/x"; Some "refs/tags/v1"]))
    (fun _ _ => ProbeStatus 200)
  `prefix_of` ["main"; "dev"; "x"].
Proof.
  destruct probe_budget as (_ & _ & H).
  apply (H (Value [Some "refs/heads/dev"; Some "refs/heads/main";
                   Some "refs/heads/x"; Some "refs/tags/v1"])
           (fun _ _ => ProbeStatus 200) ["dev"; "main"; "x"]).
  reflexivity.
Defined.

Example resolve_two_confirmed :
  get_commit_branches
    (Response 200 (Value [Some "refs/heads/dev"; Some "refs/heads/main";
                          Some "refs/heads/x"; Some "refs/tags/v1"]))
    (fun _ _ => ProbeStatus 200)
  = Ok ["main"; "dev"].
Proof. reflexivity. Qed.

Example resolve_probe_errors :
  get_commit_branches
    (Response 200 (Value [Some "refs/heads/dev"; Some "refs/heads/main"]))
    (fun _ _ => ProbeFails)
  = Ok ["main/master"].
Proof. reflexivity. Qed.

Example resolve_malformed_ref :
  get_commit_branches (Response 200 (Value [Some "refs/heads/dev"; None]))
                      (fun _ _ => ProbeStatus 200)
  = Ok ["main/master"].
Proof. reflexivity. Qed.

Lemma confirmations_sublist ask n q : confirmations ask n q `sublist_of` q.
Proof.
  revert n. induction q as [|b q IH]; intros n; [done|]. simpl.
  destruct (ask n b) as [|c]; [by apply sublist_cons|].
  destruct (c =? 200)%Z; [by apply sublist_skip | by apply sublist_cons].
Qed.

(** X1.  Whatever the remote side does, the list that [get_commit_branches]
    of [git_rep_gen.py] returns names no branch twice. *)
Theorem get_commit_branches_distinct (refs : http ref_item)
    (ask : nat -> string -> probe) :
  exists branches, get_commit_branches refs ask = Ok branches /\ NoDup branches.
Proof.
  assert (NoDup sentinel) as Hs by apply NoDup_singleton.
  unfold get_commit_branches.
  destruct (refs_listed_dec refs) as [(json & all_branches & -> & Hall) | Hno].
  - destruct (resolve_listed json ask all_branches Hall) as (probed & -> & Hpre & _).
    simpl. destruct (confirmations ask 0 probed) as [|b found] eqn:Hc; [by exists sentinel|].
    exists (b :: found). split; [done|]. rewrite <- Hc.
    apply (sublist_NoDup _ probed); [|apply confirmations_sublist].
    destruct (branches_to_check_spec all_branches) as (_ & _ & _ & _ & Hnd & _).
    destruct Hpre as [k Hk]. rewrite Hk in Hnd. by apply NoDup_app in Hnd as [? _].
  - destruct (resolve_unlisted refs ask Hno) as [_ [Hr | [e Hr]]]; rewrite Hr;
      by exists sentinel.
Qed.

(** The resolver of [azure_commits_pdf.py] can: the branches [a] and
    [refs/heads/a] both read as [a]. *)
Example basic_resolver_repeats_a_name :
  basic_get_commit_branches
    (Response 200 (Value [Some "refs/heads/a"; Some "refs/heads/refs/heads/a"]))
  = Ok ["a"; "a"].
Proof. reflexivity. Qed.

End BranchResolverFacts.

(** ** The commit fetcher *)

Module FetcherFacts.
Import PyStr PyStrFacts BranchResolver BranchResolverFacts Fetcher.

Lemma author_matches_kept f c : author_matches f c = true <-> kept f c.
Proof.
  unfold author_matches, kept, author_email, author_name.
  rewrite !orb_true_iff, !String.eqb_eq. tauto.
Qed.

(** The exact-match alternatives add nothing: a string occurs in itself. *)
Lemma kept_substring f c :
  kept f c <->
  contains (lower f) (lower (raw_email c)) = true
  \/ contains (lower f) (lower (raw_name c)) = true.
Proof.
  unfold kept. split; [|tauto].
  intros [H | [H | [H | H]]]; [by left | by right | left | right];
    rewrite H; apply contains_refl.
Qed.

(** The filter is insensitive to the case of the filter string. *)
Lemma kept_lower f c : kept (lower f) c <-> kept f c.
Proof. unfold kept. by rewrite lower_idem. Qed.

Lemma filter_by_author_filter f commits :
  filter_by_author f commits = filter (kept f) commits.
Proof.
  unfold filter_by_author.
  assert (forall acc,
    foldl (fun filtered_commits commit =>
             if author_matches f commit then filtered_commits ++ [commit]
             else filtered_commits) acc commits
    = acc ++ filter (kept f) commits) as H.
  { induction commits as [|c commits IH]; intros acc; simpl.
    - by rewrite app_nil_r.
    - rewrite IH, filter_cons. destruct (author_matches f c) eqn:E.
      + rewrite decide_True by by apply author_matches_kept.
        by rewrite <- app_assoc.
      + rewrite decide_False; [done|].
        rewrite <- author_matches_kept. congruence. }
  apply H.
Qed.

(** C7.  With a non-empty author filter, the client-side filter keeps, in
    order, exactly the commits whose lowercased email or lowercased name
    contains the lowercased filter or equals it; the case of the filter and
    of the author fields is immaterial.  A commit whose email is
    [Alice@Example.com] is kept under the filter [alice@example.com]; one
    whose email is [bob@example.com] is kept only if its name matches. *)
Theorem client_filter_keeps (f : string) (commits : list api_commit) :
  f <> "" ->
  client_filter (Some f) commits = filter (kept f) commits
  /\ (forall c, c ∈ client_filter (Some f) commits <-> c ∈ commits /\ kept f c)
  /\ client_filter (Some (lower f)) commits = client_filter (Some f) commits
  /\ (forall c, raw_email c = "Alice@Example.com" -> kept "alice@example.com" c)
  /\ (forall c, raw_email c = "bob@example.com" ->
                kept "alice@example.com" c
                <-> contains "alice@example.com" (lower (raw_name c)) = true).
Proof.
  intros Hne.
  assert (forall g, g <> "" -> client_filter (Some g) commits = filter (kept g) commits) as Hcf.
  { intros g Hg. unfold client_filter, truthy. destruct g; [done|].
    apply filter_by_author_filter. }
  split_and!.
  - by apply Hcf.
  - intros c. rewrite Hcf by done. rewrite list_elem_of_filter. tauto.
  - rewrite (Hcf f Hne). destruct f as [|a f]; [done|]. rewrite Hcf by done.
    apply list_filter_iff. intros c. apply kept_lower.
  - intros c Hc. right. right. left. by rewrite Hc.
  - intros c Hc. rewrite kept_substring, Hc. split; [|by right].
    intros [H | H]; [by vm_compute in H | done].
Qed.

Lemma client_filter_keeps_witness :
  client_filter (Some "alice@example.com")
    [mk_api_commit (Some "1") (Some (mk_api_author (Some "Alice") (Some "Alice@Example.com") None)) None;
     mk_api_commit (Some "2") (Some (mk_api_author (Some "Bob") (Some "bob@example.com") None)) None]
  = [mk_api_commit (Some "1") (Some (mk_api_author (Some "Alice") (Some "Alice@Example.com") None)) None].
Proof.
  pose proof (client_filter_keeps "alice@example.com"
    [mk_api_commit (Some "1") (Some (mk_api_author (Some "Alice") (Some "Alice@Example.com") None)) None;
     mk_api_commit (Some "2") (Some (mk_api_author (Some "Bob") (Some "bob@example.com") None)) None]) as H.
  destruct H as [H _]; [done|]. rewrite H. reflexivity.
Defined.

(** Without a filter (absent or empty) every commit is retained. *)
Lemma client_filter_off commits :
  client_filter None commits = commits /\ client_filter (Some "") commits = commits.
Proof. done. Qed.

(** The loop over the retained commits either completes, returning one
    entry per commit, or raises. *)
Lemma attach_complete w skip o p r commits :
  forall i done,
    attach w skip o p r i commits = Ok done ->
    map item done = commits
    /\ Forall (fun c => repository c = r /\ organization c = o /\ project c = p
                        /\ branches c <> []) done.
Proof.
  induction commits as [|c commits IH]; intros i done; cbn [attach].
  - intros [= <-]. by split.
  - destruct (if skip then Ok ["main"]
              else _ ← subscript_commitId c;
                   get_commit_branches (refs_call w i) (probe_call w i))
      as [bs|e] eqn:Hbs; [|done]. cbn.
    destruct (attach w skip o p r (S i) commits) as [rest|e] eqn:Hrest; [|done]. cbn.
    intros [= <-]. destruct (IH _ _ Hrest) as [Hitems Hall]. split.
    + simpl. by rewrite Hitems.
    + constructor; [|done]. simpl. split_and!; try done.
      destruct skip; [by injection Hbs as <-|].
      destruct (subscript_commitId c); [|done]. cbn in Hbs.
      destruct (get_commit_branches_returns (refs_call w i) (probe_call w i))
        as (bs' & Hget & Hne).
      rewrite Hget in Hbs. by injection Hbs as <-.
Qed.

(** It completes when every commit has an identifier or detection is off. *)
Lemma attach_succeeds w skip o p r commits :
  (skip = false -> Forall (fun c => is_Some (commitId c)) commits) ->
  forall i, exists done, attach w skip o p r i commits = Ok done.
Proof.
  intros Hids. induction commits as [|c commits IH]; intros i; cbn [attach].
  - by exists [].
  - assert (exists bs,
      (if skip then Ok ["main"]
       else _ ← subscript_commitId c;
            get_commit_branches (refs_call w i) (probe_call w i)) = Ok bs) as [bs ->].
    { destruct skip; [by eexists|].
      specialize (Hids eq_refl). apply Forall_cons in Hids as [[id Hid] _].
      unfold subscript_commitId. rewrite Hid. cbn.
      destruct (get_commit_branches_returns (refs_call w i) (probe_call w i))
        as (bs & Hget & _). by exists bs. }
    cbn. destruct (IH (fun H => proj2 (proj1 (Forall_cons _ _ _) (Hids H))) (S i)) as [rest ->].
    cbn. by eexists.
Qed.

(** One commit without an identifier, anywhere in the list, makes the whole
    loop raise when detection is on. *)
Lemma attach_missing_id w o p r commits :
  (exists c, c ∈ commits /\ commitId c = None) ->
  forall i, exists e, attach w false o p r i commits = Raise e.
Proof.
  intros (c & Hin & Hnone). induction commits as [|c' commits IH]; intros i.
  - by apply elem_of_nil in Hin.
  - cbn [attach]. apply elem_of_cons in Hin as [<- | Hin].
    + unfold subscript_commitId. rewrite Hnone. cbn. by eexists.
    + destruct (_ ← subscript_commitId c';
                get_commit_branches (refs_call w i) (probe_call w i)) as [bs|e];
        [|cbn; by eexists].
      cbn. destruct (IH Hin (S i)) as [e ->]. cbn. by eexists.
Qed.

Lemma fetch_commits_ok w url skip af :
  exists commits,
    fetch_commits w url skip af = Ok commits
    /\ (forall e, fetch_commits_try w url skip af = Raise e -> commits = [])
    /\ (forall done, fetch_commits_try w url skip af = Ok done -> commits = done).
Proof.
  unfold fetch_commits.
  destruct (fetch_commits_try w url skip af) as [done | e].
  - exists done. split_and!; [done | done | by intros ? [= <-]].
  - exists []. split_and!; [by destruct e | done | done].
Qed.

(** What a completed [try] body has done. *)
Lemma fetch_commits_try_ok w url skip af done :
  fetch_commits_try w url skip af = Ok done ->
  exists o p r status_code json items,
    UrlParser.parse_repo_url url = Ok (o, p, r)
    /\ commits_call w = Response status_code json
    /\ raise_for_status status_code = Ok tt
    /\ value_of json = Ok items
    /\ attach w skip o p r 0 (client_filter af items) = Ok done.
Proof.
  unfold fetch_commits_try.
  destruct (UrlParser.parse_repo_url url) as [[[o p] r] | e]; [|done]. cbn.
  destruct (commits_call w) as [e | status_code json]; [done|].
  destruct (raise_for_status status_code) as [[] | e] eqn:Hst; [|done]. cbn.
  destruct (value_of json) as [items | e] eqn:Hv; [|done]. cbn.
  intros Hattach. by exists o, p, r, status_code, json, items.
Qed.

Lemma fetch_all_ok repos skip af :
  exists all_commits, fetch_all repos skip af = Ok all_commits.
Proof.
  induction repos as [|[w url] repos [more IH]]; cbn [fetch_all]; [by eexists|].
  destruct (fetch_commits_ok w url skip af) as (commits & -> & _).
  cbn. rewrite IH. cbn. by eexists.
Qed.

(** Each place where the body of the [try] raises. *)
Lemma fetch_commits_try_raises w url skip af :
  (exists e, UrlParser.parse_repo_url url = Raise e)
  \/ (exists e, commits_call w = Fails e)
  \/ (exists status_code json,
        commits_call w = Response status_code json
        /\ ((400 <= status_code < 600)%Z \/ json = Undecodable))
  \/ (exists status_code json items,
        commits_call w = Response status_code json
        /\ value_of json = Ok items /\ skip = false
        /\ exists c, c ∈ client_filter af items /\ commitId c = None) ->
  exists e, fetch_commits_try w url skip af = Raise e.
Proof.
  unfold fetch_commits_try.
  destruct (UrlParser.parse_repo_url url) as [[[o p] r] | e0]; [|intros _; by exists e0].
  cbn. intros [[e H] | [[e H] | [(st & json & H & Hbad) | (st & json & items & H & Hv & -> & Hc)]]].
  - done.
  - rewrite H. by exists e.
  - rewrite H. unfold raise_for_status.
    destruct ((400 <=? st) && (st <? 600))%Z eqn:Hst; [by eexists|]. cbn.
    destruct Hbad as [Hrange | ->]; [|by eexists]. lia.
  - rewrite H. destruct (raise_for_status st) as [[]|e]; [|by exists e]. cbn.
    rewrite Hv. cbn. by apply attach_missing_id.
Qed.

(** C9.  [fetch_commits] always returns a list.  Whenever the body of its
    [try] raises (an unparsable URL, a transport failure, an HTTP error
    status, an undecodable body, a retained commit without identifier while
    branches are being resolved, at any position), the list is empty; a
    non-empty result is always the complete one, with one entry for every
    retained commit.  The loop over the repositories goes on with the
    remaining ones and adds their commits. *)
Theorem fetch_commits_all_or_nothing (w : remote) (url : string) (skip : bool)
    (af : option string) :
  exists commits,
    fetch_commits w url skip af = Ok commits
    /\ (forall e, fetch_commits_try w url skip af = Raise e -> commits = [])
    /\ ((exists e, UrlParser.parse_repo_url url = Raise e)
        \/ (exists e, commits_call w = Fails e)
        \/ (exists status_code json,
              commits_call w = Response status_code json
              /\ ((400 <= status_code < 600)%Z \/ json = Undecodable))
        \/ (exists status_code json items,
              commits_call w = Response status_code json
              /\ value_of json = Ok items /\ skip = false
              /\ exists c, c ∈ client_filter af items /\ commitId c = None) ->
        commits = [])
    /\ (commits = []
        \/ exists o p r status_code json items,
            UrlParser.parse_repo_url url = Ok (o, p, r)
            /\ commits_call w = Response status_code json
            /\ value_of json = Ok items
            /\ map item commits = client_filter af items
            /\ Forall (fun c => repository c = r /\ organization c = o
                                /\ project c = p /\ branches c <> []) commits)
    /\ (forall rest, exists more,
          fetch_all rest skip af = Ok more
          /\ fetch_all ((w, url) :: rest) skip af = Ok (commits ++ more)).
Proof.
  destruct (fetch_commits_ok w url skip af) as (commits & Hfetch & Hraise & Hdone).
  exists commits. split_and!; [done | done | | | ].
  - intros Hcase. destruct (fetch_commits_try_raises w url skip af Hcase) as [e He].
    by apply (Hraise e).
  - destruct (fetch_commits_try w url skip af) as [done | e] eqn:Htry.
    + right. rewrite (Hdone done eq_refl).
      destruct (fetch_commits_try_ok _ _ _ _ _ Htry)
        as (o & p & r & st & json & items & Hp & Hc & _ & Hv & Hattach).
      destruct (attach_complete _ _ _ _ _ _ _ _ Hattach) as [Hitems Hall].
      by exists o, p, r, st, json, items.
    + left. by apply (Hraise e).
  - intros rest. destruct (fetch_all_ok rest skip af) as [more Hmore].
    exists more. split; [done|]. cbn [fetch_all]. rewrite Hfetch. cbn.
    rewrite Hmore. done.
Qed.

(** With branch detection skipped, every commit gets the placeholder and no
    branch is resolved: a commit without identifier does not matter. *)
Lemma attach_skipped w o p r commits :
  forall i, exists done,
    attach w true o p r i commits = Ok done
    /\ map item done = commits
    /\ Forall (fun c => branches c = ["main"]) done.
Proof.
  induction commits as [|c commits IH]; intros i; cbn [attach].
  - by exists [].
  - cbn. destruct (IH (S i)) as (rest & -> & Hitems & Hall). cbn.
    eexists. split_and!; [done | by rewrite <- Hitems | by constructor].
Qed.

(** X2.  When branch detection is skipped, [fetch_commits] returns a list
    in which every commit has the single placeholder branch [main],
    whatever the remote side does. *)
Theorem skip_branches_placeholder (w : remote) (url : string) (af : option string) :
  exists commits,
    fetch_commits w url true af = Ok commits
    /\ Forall (fun c => branches c = ["main"]) commits.
Proof.
  destruct (fetch_commits_ok w url true af) as (commits & Hfetch & Hraise & Hdone).
  exists commits. split; [done|].
  destruct (fetch_commits_try w url true af) as [done | e] eqn:Htry.
  - rewrite (Hdone done eq_refl).
    destruct (fetch_commits_try_ok _ _ _ _ _ Htry)
      as (o & p & r & st & json & items & _ & _ & _ & _ & Hattach).
    destruct (attach_skipped w o p r (client_filter af items) 0) as (done' & H' & _ & Hall).
    rewrite H' in Hattach. by injection Hattach as <-.
  - rewrite (Hraise e eq_refl). constructor.
Qed.

(** The third commit has no identifier: nothing of the repository is kept. *)
Example fetch_discards_partial :
  fetch_commits
    (mk_remote
       (Response 200 (Value [mk_api_commit (Some "a1") None (Some "one");
                             mk_api_commit (Some "b2") None (Some "two");
                             mk_api_commit None None (Some "three")]))
       (fun _ => Response 200 (Value [Some "refs/heads/main"]))
       (fun _ _ _ => ProbeStatus 200))
    "https://dev.azure.com/org/proj/_git/repo" false None
  = Ok [].
Proof. reflexivity. Qed.

Example fetch_complete :
  fetch_commits
    (mk_remote
       (Response 200 (Value [mk_api_commit (Some "a1") None (Some "one");
                             mk_api_commit (Some "b2") None (Some "two")]))
       (fun _ => Response 200 (Value [Some "refs/heads/main"]))
       (fun _ _ _ => ProbeStatus 200))
    "https://dev.azure.com/org/proj/_git/repo" false None
  = Ok [mk_fetched (mk_api_commit (Some "a1") None (Some "one")) "repo" "org" "proj" ["main"];
        mk_fetched (mk_api_commit (Some "b2") None (Some "two")) "repo" "org" "proj" ["main"]].
Proof. reflexivity. Qed.

Example fetch_transport_failure :
  fetch_commits (mk_remote (Fails RequestException) (fun _ => Fails RequestException)
                           (fun _ _ _ => ProbeFails))
                "https://dev.azure.com/org/proj/_git/repo" false None
  = Ok [].
Proof. reflexivity. Qed.

End FetcherFacts.

(** ** The aggregator *)

Module AggregatorFacts.
Import Datetime Aggregator.

Section update_default.
Context {A : Type} (R : relation A) (factory : A).

Lemma lookup_update_default k f (d : gmap string A) k' :
  update_default factory k f d !! k'
  = if decide (k = k') then Some (f (default factory (d !! k))) else d !! k'.
Proof. unfold update_default. apply lookup_insert. Qed.

Lemma same_map_default (d1 d2 : gmap string A) k :
  R factory factory -> same_map R d1 d2 ->
  R (default factory (d1 !! k)) (default factory (d2 !! k)).
Proof. intros Hf Hd. by destruct (Hd k). Qed.

(** Updating related maps alike keeps them related. *)
Lemma update_default_proper k f (d1 d2 : gmap string A) :
  (forall x y, R x y -> R (f x) (f y)) -> R factory factory ->
  same_map R d1 d2 ->
  same_map R (update_default factory k f d1) (update_default factory k f d2).
Proof.
  intros Hf Hfac Hd j. rewrite !lookup_update_default.
  destruct (decide (k = j)); [|done]. constructor. by apply Hf, same_map_default.
Qed.

(** Two updates may be swapped when their effects on one value may be. *)
Lemma update_default_swap k1 f k2 g (d1 d2 : gmap string A) :
  (forall x y, R x y -> R (f x) (f y)) ->
  (forall x y, R x y -> R (g x) (g y)) ->
  (forall x y, R x y -> R (f (g x)) (g (f y))) ->
  R factory factory ->
  same_map R d1 d2 ->
  same_map R (update_default factory k1 f (update_default factory k2 g d1))
             (update_default factory k2 g (update_default factory k1 f d2)).
Proof.
  intros Hf Hg Hfg Hfac Hd j. rewrite !lookup_update_default.
  pose proof (same_map_default d1 d2 k1 Hfac Hd) as H1.
  pose proof (same_map_default d1 d2 k2 Hfac Hd) as H2.
  destruct (decide (k1 = j)) as [<-|Hj1], (decide (k2 = k1)) as [->|H21];
    simpl; repeat case_decide; simplify_eq; simpl;
    try (constructor; by auto); try done.
Qed.

End update_default.

#[global] Instance same_map_equivalence {A} (R : relation A) :
  Equivalence R -> Equivalence (same_map R).
Proof.
  intros HR. split.
  - intros d k. reflexivity.
  - intros d1 d2 H k. by symmetry.
  - intros d1 d2 d3 H12 H23 k. etrans; [apply H12 | apply H23].
Qed.

#[global] Instance report_equiv_equivalence : Equivalence report_equiv.
Proof. unfold report_equiv. apply _. Qed.

Lemma same_map_empty {A} (R : relation A) : same_map R ∅ ∅.
Proof. intros k. rewrite lookup_empty. constructor. Qed.

(** Appending to equivalent reports gives equivalent reports. *)
Lemma append_commit_proper d r b c (r1 r2 : report) :
  report_equiv r1 r2 ->
  report_equiv (append_commit d r b c r1) (append_commit d r b c r2).
Proof.
  unfold report_equiv, append_commit. intros H.
  apply update_default_proper; [|apply same_map_empty|done].
  intros x y Hxy. apply update_default_proper; [|apply same_map_empty|done].
  intros x' y' Hxy'. apply update_default_proper; [|done|done].
  intros l1 l2 Hl. by rewrite Hl.
Qed.

(** Two appends may be swapped. *)
Lemma append_commit_swap d1 r1 b1 c1 d2 r2 b2 c2 (o1 o2 : report) :
  report_equiv o1 o2 ->
  report_equiv (append_commit d1 r1 b1 c1 (append_commit d2 r2 b2 c2 o1))
               (append_commit d2 r2 b2 c2 (append_commit d1 r1 b1 c1 o2)).
Proof.
  assert (forall c (l1 l2 : list commit), l1 ≡ₚ l2 -> l1 ++ [c] ≡ₚ l2 ++ [c]) as Hleaf.
  { intros c l1 l2 Hl. by rewrite Hl. }
  assert (forall b c (x y : branch_map),
             same_map Permutation x y ->
             same_map Permutation
               (update_default [] b (fun commits => commits ++ [c]) x)
               (update_default [] b (fun commits => commits ++ [c]) y)) as Hb.
  { intros b c x y Hxy. apply update_default_proper; [apply Hleaf|done|done]. }
  assert (forall r b c (x y : repo_map),
             same_map (same_map Permutation) x y ->
             same_map (same_map Permutation)
               (update_default ∅ r (update_default [] b (fun commits => commits ++ [c])) x)
               (update_default ∅ r (update_default [] b (fun commits => commits ++ [c])) y)) as Hr.
  { intros r b c x y Hxy.
    apply update_default_proper; [apply Hb|apply same_map_empty|done]. }
  unfold report_equiv, append_commit. intros H.
  apply update_default_swap; [apply Hr|apply Hr| |apply same_map_empty|done].
  intros x y Hxy.
  apply update_default_swap; [apply Hb|apply Hb| |apply same_map_empty|done].
  intros x' y' Hxy'.
  apply update_default_swap; [apply Hleaf|apply Hleaf| |done|done].
  intros l1 l2 Hl. rewrite Hl, <- !app_assoc. apply Permutation_app_head, Permutation_swap.
Qed.

(** The aggregator performs its appends one after the other. *)
Lemma add_commit_insertions (organized : report) c :
  add_commit organized c = insert_all (insertions [c]) organized.
Proof.
  unfold add_commit, insertions, insert_all. rewrite bind_singleton.
  generalize (branches_of c) as bs. intros bs. revert organized.
  induction bs as [|b bs IH]; intros organized; [done|]. csimpl. apply IH.
Qed.

Lemma insert_all_app ins1 ins2 (organized : report) :
  insert_all (ins1 ++ ins2) organized = insert_all ins2 (insert_all ins1 organized).
Proof. unfold insert_all. apply foldl_app. Qed.

Lemma organize_from_insertions (organized : report) all_commits :
  foldl add_commit organized all_commits = insert_all (insertions all_commits) organized.
Proof.
  revert organized. induction all_commits as [|c l IH]; intros organized; [done|].
  simpl. rewrite IH, add_commit_insertions.
  unfold insertions. rewrite insert_all_app. by rewrite bind_singleton.
Qed.

Lemma organize_insertions all_commits :
  organize_commits_by_date_and_repo all_commits = insert_all (insertions all_commits) ∅.
Proof. apply organize_from_insertions. Qed.

Lemma insert_all_proper ins (o1 o2 : report) :
  report_equiv o1 o2 -> report_equiv (insert_all ins o1) (insert_all ins o2).
Proof.
  revert o1 o2. induction ins as [|i ins IH]; intros o1 o2 H; [done|].
  simpl. by apply IH, append_commit_proper.
Qed.

(** The order of the appends does not matter, up to the order in the leaves. *)
Lemma insert_all_permutation ins1 ins2 :
  ins1 ≡ₚ ins2 ->
  forall o1 o2 : report,
    report_equiv o1 o2 -> report_equiv (insert_all ins1 o1) (insert_all ins2 o2).
Proof.
  induction 1 as [|i l1 l2 Hl IH|i j l|l1 l2 l3 H12 IH12 H23 IH23]; intros o1 o2 Ho.
  - done.
  - simpl. by apply IH, append_commit_proper.
  - simpl. by apply insert_all_proper, append_commit_swap.
  - etrans; [by apply IH12 | by apply IH23].
Qed.

Lemma same_map_dom {A} (R : relation A) (m1 m2 : gmap string A) :
  same_map R m1 m2 -> dom m1 = dom m2.
Proof.
  intros H. apply set_eq. intros k. rewrite !elem_of_dom.
  destruct (H k); split; intros [? ?]; by eauto.
Qed.

Lemma leaf_equiv (o1 o2 : report) d r b :
  report_equiv o1 o2 -> leaf o1 d r b ≡ₚ leaf o2 d r b.
Proof.
  intros H. unfold leaf. destruct (H d) as [repos1 repos2 Hrepos|]; [|done].
  destruct (Hrepos r) as [bl1 bl2 Hbl|]; [|done].
  by destruct (Hbl b).
Qed.

(** C6.  Grouping a permutation of the commit list gives the same report:
    the same date keys, under each the same repository keys, under each of
    these the same branch keys, and under each branch key the same commits up
    to their order. *)
Theorem organize_order_independent (all_commits permuted : list commit) :
  all_commits ≡ₚ permuted ->
  report_equiv (organize_commits_by_date_and_repo all_commits)
               (organize_commits_by_date_and_repo permuted)
  /\ dom (organize_commits_by_date_and_repo all_commits)
     = dom (organize_commits_by_date_and_repo permuted)
  /\ (forall d r b,
        leaf (organize_commits_by_date_and_repo all_commits) d r b
        ≡ₚ leaf (organize_commits_by_date_and_repo permuted) d r b).
Proof.
  intros Hperm.
  assert (report_equiv (organize_commits_by_date_and_repo all_commits)
                       (organize_commits_by_date_and_repo permuted)) as H.
  { rewrite !organize_insertions. apply insert_all_permutation; [|done].
    unfold insertions. by rewrite Hperm. }
  split_and!; [done | by eapply same_map_dom | intros d r b; by apply leaf_equiv].
Qed.

(** One append extends the leaf under its three keys and no other. *)
Lemma leaf_append_commit d r b c (o : report) d' r' b' :
  leaf (append_commit d r b c o) d' r' b'
  = if decide (d = d' /\ r = r' /\ b = b')
    then leaf o d' r' b' ++ [c] else leaf o d' r' b'.
Proof.
  unfold leaf, append_commit. rewrite lookup_update_default.
  destruct (decide (d = d')) as [<-|Hd].
  - rewrite lookup_update_default. destruct (decide (r = r')) as [<-|Hr].
    + rewrite lookup_update_default. destruct (decide (b = b')) as [<-|Hb].
      * rewrite decide_True by done. simpl.
        destruct (o !! d) as [repos|]; simpl; [|done].
        by destruct (repos !! r) as [bl|].
      * rewrite decide_False by tauto.
        destruct (o !! d) as [repos|]; simpl; [|by rewrite lookup_empty].
        destruct (repos !! r) as [bl|]; simpl; [done | by rewrite lookup_empty].
    + rewrite decide_False by tauto.
      destruct (o !! d) as [repos|]; simpl; [done | by rewrite lookup_empty].
  - by rewrite decide_False by tauto.
Qed.

Lemma insert_all_cons d r b c ins (o : report) :
  insert_all ((d, r, b, c) :: ins) o = insert_all ins (append_commit d r b c o).
Proof. reflexivity. Qed.

Lemma leaf_insert_all ins (o : report) d r b :
  leaf (insert_all ins o) d r b
  = leaf o d r b ++ (filter (fun i => i.1 = (d, r, b)) ins).*2.
Proof.
  revert o. induction ins as [|[[[d' r'] b'] c] ins IH]; intros o.
  - simpl. by rewrite app_nil_r.
  - rewrite insert_all_cons, IH, leaf_append_commit.
    rewrite filter_cons. simpl.
    destruct (decide (d' = d /\ r' = r /\ b' = b)) as [(-> & -> & ->)|Hne].
    + rewrite decide_True by done. by rewrite <- app_assoc.
    + rewrite decide_False; [done|]. intros [= -> -> ->]. tauto.
Qed.

Lemma leaf_empty d r b : leaf ∅ d r b = [].
Proof. unfold leaf. by rewrite lookup_empty. Qed.

Lemma elem_of_insertions all_commits d r b c :
  (d, r, b, c) ∈ insertions all_commits
  <-> c ∈ all_commits /\ d = date_key c /\ r = repository c /\ b ∈ branches_of c.
Proof.
  unfold insertions. rewrite list_elem_of_bind. split.
  - intros (c' & Hin & Hc'). apply list_elem_of_bind in Hin as (b' & Hin & Hb').
    apply list_elem_of_singleton in Hin. by simplify_eq.
  - intros (Hc & -> & -> & Hb). exists c. split; [|done].
    apply list_elem_of_bind. exists b. split; [|done]. by apply list_elem_of_singleton.
Qed.

(** The members of a leaf list: the commits of that date and repository
    that name the branch. *)
Lemma elem_of_leaf_organize all_commits c d r b :
  c ∈ leaf (organize_commits_by_date_and_repo all_commits) d r b
  <-> c ∈ all_commits /\ d = date_key c /\ r = repository c /\ b ∈ branches_of c.
Proof.
  rewrite organize_insertions, leaf_insert_all, leaf_empty. simpl.
  rewrite list_elem_of_fmap. split.
  - intros ([[[d' r'] b'] c'] & -> & Hin). apply list_elem_of_filter in Hin as [Hk Hin].
    simpl in Hk. simplify_eq. by apply elem_of_insertions in Hin.
  - intros H. exists (d, r, b, c). split; [done|].
    apply list_elem_of_filter. split; [done | by apply elem_of_insertions].
Qed.

Lemma elem_of_leaf_keys (o : report) d r b :
  (d, r, b) ∈ leaf_keys o
  <-> exists repos bl cs, o !! d = Some repos /\ repos !! r = Some bl /\ bl !! b = Some cs.
Proof.
  unfold leaf_keys. rewrite list_elem_of_bind. split.
  - intros ([d' repos] & Hin & Hd). apply elem_of_map_to_list in Hd.
    apply list_elem_of_bind in Hin as ([r' bl] & Hin & Hr). apply elem_of_map_to_list in Hr.
    apply list_elem_of_bind in Hin as ([b' cs] & Hin & Hb). apply elem_of_map_to_list in Hb.
    apply list_elem_of_singleton in Hin. simplify_eq. by exists repos, bl, cs.
  - intros (repos & bl & cs & Hd & Hr & Hb). exists (d, repos).
    split; [|by apply elem_of_map_to_list].
    apply list_elem_of_bind. exists (r, bl). split; [|by apply elem_of_map_to_list].
    apply list_elem_of_bind. exists (b, cs). split; [|by apply elem_of_map_to_list].
    by apply list_elem_of_singleton.
Qed.

Lemma leaf_keys_NoDup (o : report) : NoDup (leaf_keys o).
Proof.
  unfold leaf_keys. apply NoDup_bind; [| |apply NoDup_map_to_list].
  - intros [d1 repos1] [d2 repos2] k Hd1 Hd2 H1 H2.
    apply elem_of_map_to_list in Hd1, Hd2.
    apply list_elem_of_bind in H1 as ([r1 bl1] & H1 & _).
    apply list_elem_of_bind in H1 as ([b1 cs1] & H1 & _).
    apply list_elem_of_bind in H2 as ([r2 bl2] & H2 & _).
    apply list_elem_of_bind in H2 as ([b2 cs2] & H2 & _).
    apply list_elem_of_singleton in H1, H2. simplify_eq. done.
  - intros [d repos] _. apply NoDup_bind; [| |apply NoDup_map_to_list].
    + intros [r1 bl1] [r2 bl2] k Hr1 Hr2 H1 H2.
      apply elem_of_map_to_list in Hr1, Hr2.
      apply list_elem_of_bind in H1 as ([b1 cs1] & H1 & _).
      apply list_elem_of_bind in H2 as ([b2 cs2] & H2 & _).
      apply list_elem_of_singleton in H1, H2. simplify_eq. done.
    + intros [r bl] _. apply NoDup_bind; [| |apply NoDup_map_to_list].
      * intros [b1 cs1] [b2 cs2] k Hb1 Hb2 H1 H2.
        apply elem_of_map_to_list in Hb1, Hb2.
        apply list_elem_of_singleton in H1, H2. simplify_eq. done.
      * intros [b cs] _. apply NoDup_singleton.
Qed.

Lemma leaf_member_key (o : report) c d r b :
  c ∈ leaf o d r b -> (d, r, b) ∈ leaf_keys o.
Proof.
  unfold leaf. intros H. apply elem_of_leaf_keys.
  destruct (o !! d) as [repos|] eqn:Hd; [|by apply elem_of_nil in H].
  destruct (repos !! r) as [bl|] eqn:Hr; [|by apply elem_of_nil in H].
  destruct (bl !! b) as [cs|] eqn:Hb; [|by apply elem_of_nil in H].
  by exists repos, bl, cs.
Qed.

(** A commit of the input is a member of one leaf list per distinct name of
    its branch list. *)
Lemma leaves_with_organize all_commits c :
  c ∈ all_commits ->
  leaves_with c (organize_commits_by_date_and_repo all_commits)
  = length (remove_dups (branches_of c)).
Proof.
  intros Hc. unfold leaves_with.
  rewrite <- (length_fmap (fun b => (date_key c, repository c, b)) (remove_dups _)).
  apply Permutation_length, NoDup_Permutation.
  - apply NoDup_filter, leaf_keys_NoDup.
  - apply NoDup_fmap_2; [|apply NoDup_remove_dups]. by intros b1 b2 [= ->].
  - intros [[d r] b]. rewrite list_elem_of_filter, list_elem_of_fmap. simpl.
    rewrite elem_of_leaf_organize. split.
    + intros [(_ & -> & -> & Hb) _]. exists b. split; [done|].
      by apply elem_of_remove_dups.
    + intros (b' & [= -> -> ->] & Hb). rewrite elem_of_remove_dups in Hb.
      assert (c ∈ leaf (organize_commits_by_date_and_repo all_commits)
                       (date_key c) (repository c) b') as Hleaf.
      { apply elem_of_leaf_organize. by split_and!. }
      split; [by split_and! | by eapply leaf_member_key].
Qed.

Lemma organize_order_independent_witness :
  report_equiv
    (organize_commits_by_date_and_repo [two_branches; same_branch_twice])
    (organize_commits_by_date_and_repo [same_branch_twice; two_branches]).
Proof.
  apply (organize_order_independent [two_branches; same_branch_twice]
                                    [same_branch_twice; two_branches]).
  apply perm_swap.
Defined.

(** The two orders give different leaf lists, with the same members. *)
Example organize_swapped_leaf :
  leaf (organize_commits_by_date_and_repo [two_branches; same_branch_twice])
       "2024-01-02" "repo" "main"
  = [two_branches; same_branch_twice; same_branch_twice]
  /\ leaf (organize_commits_by_date_and_repo [same_branch_twice; two_branches])
          "2024-01-02" "repo" "main"
     = [same_branch_twice; same_branch_twice; two_branches].
Proof. split; by vm_compute. Qed.

End AggregatorFacts.

(** ** The summary count *)

Module SummaryFacts.
Import Datetime Aggregator AggregatorFacts Renderer.

Lemma sum_list_with_bind {A B} (f : B -> nat) (g : A -> list B) (l : list A) :
  sum_list_with f (l ≫= g) = sum_list_with (fun x => sum_list_with f (g x)) l.
Proof.
  induction l as [|x l IH]; [done|].
  rewrite bind_cons, sum_list_with_app. simpl. by rewrite IH.
Qed.

Lemma sum_list_with_ext_in {A} (f g : A -> nat) (l : list A) :
  (forall x, x ∈ l -> f x = g x) -> sum_list_with f l = sum_list_with g l.
Proof.
  induction l as [|x l IH]; intros H; [done|]. simpl.
  rewrite (H x) by apply list_elem_of_here. rewrite IH; [done|].
  intros y Hy. apply H. by apply list_elem_of_further.
Qed.

Lemma total_commits_sum_values (o : report) :
  total_commits o = sum_values (sum_values (sum_values length)) o.
Proof.
  unfold total_commits, sum_values. rewrite sum_list_with_bind.
  apply sum_list_with_ext_in. intros [d dc] _. rewrite sum_list_with_bind.
  apply sum_list_with_ext_in. intros [r rc] _. rewrite sum_list_with_bind.
  apply sum_list_with_ext_in. intros [b cs] _. simpl. lia.
Qed.

(** An update that adds one to the measure of a value adds one to the sum. *)
Lemma sum_values_update {A} (f : A -> nat) (factory : A) k g (m : gmap string A) :
  f factory = 0 -> (forall x, f (g x) = S (f x)) ->
  sum_values f (update_default factory k g m) = S (sum_values f m).
Proof.
  intros Hfac Hg. unfold sum_values, update_default.
  destruct (m !! k) as [x|] eqn:Hk; simpl.
  - rewrite <- (insert_delete_eq m k (g x)).
    rewrite map_to_list_insert by apply lookup_delete_eq.
    rewrite <- (map_to_list_delete m k x Hk). simpl. by rewrite Hg.
  - rewrite map_to_list_insert by done. simpl. rewrite Hg, Hfac. done.
Qed.

Lemma sum_values_empty {A} (f : A -> nat) : sum_values f ∅ = 0.
Proof. unfold sum_values. by rewrite map_to_list_empty. Qed.

Lemma total_commits_append d r b c (o : report) :
  total_commits (append_commit d r b c o) = S (total_commits o).
Proof.
  rewrite !total_commits_sum_values. unfold append_commit.
  apply sum_values_update; [apply sum_values_empty|]. intros repos.
  apply sum_values_update; [apply sum_values_empty|]. intros bl.
  apply sum_values_update; [done|]. intros cs. rewrite length_app. simpl. lia.
Qed.

Lemma total_commits_insert_all ins (o : report) :
  total_commits (insert_all ins o) = total_commits o + length ins.
Proof.
  revert o. induction ins as [|[[[d r] b] c] ins IH]; intros o; [simpl; lia|].
  rewrite insert_all_cons, IH, total_commits_append. simpl. lia.
Qed.

Lemma length_insertions all_commits :
  length (insertions all_commits)
  = sum_list_with (fun c => length (branches_of c)) all_commits.
Proof.
  unfold insertions. induction all_commits as [|c l IH]; [done|].
  rewrite bind_cons, length_app, IH. simpl. f_equal.
  induction (branches_of c) as [|b bs IHb]; [done|]. csimpl. by rewrite IHb.
Qed.

(** The count adds the lengths of the leaf lists. *)
Lemma total_commits_leaves (o : report) :
  total_commits o
  = sum_list_with (fun k => length (leaf o k.1.1 k.1.2 k.2)) (leaf_keys o).
Proof.
  rewrite total_commits_sum_values. unfold sum_values, leaf_keys.
  rewrite sum_list_with_bind. apply sum_list_with_ext_in.
  intros [d repos] Hd%elem_of_map_to_list. rewrite sum_list_with_bind.
  apply sum_list_with_ext_in. intros [r bl] Hr%elem_of_map_to_list.
  rewrite sum_list_with_bind. apply sum_list_with_ext_in.
  intros [b cs] Hb%elem_of_map_to_list. simpl. unfold leaf.
  rewrite Hd, Hr, Hb. simpl. lia.
Qed.

Lemma remove_dups_NoDup_length (l : list string) :
  NoDup l -> length (remove_dups l) = length l.
Proof.
  intros Hl. apply Permutation_length, NoDup_Permutation;
    [apply NoDup_remove_dups | done | apply elem_of_remove_dups].
Qed.

(** C2, as the code has it.  A commit is a member of the leaf list under a
    date, a repository and a branch exactly when it is in the input, the date
    and the repository are its own and its branch list names the branch.  So
    a commit of the input is a member of as many leaf lists as its branch
    list has distinct names: of exactly N when its N entries are distinct.
    The summary count is the sum of the lengths of the leaf lists, which is
    the total number of branch-list entries of the input commits: every entry
    counts once. *)
Theorem commit_fan_out (all_commits : list commit) :
  let organized := organize_commits_by_date_and_repo all_commits in
  (forall c d r b,
      c ∈ leaf organized d r b
      <-> c ∈ all_commits /\ d = date_key c /\ r = repository c /\ b ∈ branches_of c)
  /\ (forall c, c ∈ all_commits ->
                leaves_with c organized = length (remove_dups (branches_of c)))
  /\ (forall c, c ∈ all_commits -> NoDup (branches_of c) ->
                leaves_with c organized = length (branches_of c))
  /\ total_commits organized
     = sum_list_with (fun k => length (leaf organized k.1.1 k.1.2 k.2))
                     (leaf_keys organized)
  /\ total_commits organized
     = sum_list_with (fun c => length (branches_of c)) all_commits.
Proof.
  intros organized. subst organized. split_and!.
  - intros c d r b. apply elem_of_leaf_organize.
  - intros c Hc. by apply leaves_with_organize.
  - intros c Hc Hnd. rewrite leaves_with_organize by done.
    by apply remove_dups_NoDup_length.
  - apply total_commits_leaves.
  - rewrite organize_insertions, total_commits_insert_all, length_insertions.
    rewrite total_commits_sum_values, sum_values_empty. done.
Qed.

Lemma commit_fan_out_witness :
  leaves_with two_branches (organize_commits_by_date_and_repo [two_branches]) = 2
  /\ total_commits (organize_commits_by_date_and_repo [two_branches]) = 2.
Proof.
  destruct (commit_fan_out [two_branches]) as (_ & _ & Hleaves & _ & Htotal). split.
  - rewrite Hleaves; [done | apply list_elem_of_here |].
    apply (bool_decide_unpack _). by vm_compute.
  - by rewrite Htotal.
Defined.

(** C2 as the specification states it fails for a branch list that names a
    branch twice: the commit has two entries and is a member of one leaf
    list, in which it occurs twice. *)
Lemma duplicate_entries_share_a_leaf :
  length (branches_of same_branch_twice) = 2
  /\ leaves_with same_branch_twice
                 (organize_commits_by_date_and_repo [same_branch_twice]) = 1
  /\ leaf (organize_commits_by_date_and_repo [same_branch_twice])
          "2024-01-02" "repo" "main" = [same_branch_twice; same_branch_twice]
  /\ ~ in_as_many_leaves_as_entries [same_branch_twice].
Proof.
  assert (leaves_with same_branch_twice
            (organize_commits_by_date_and_repo [same_branch_twice]) = 1) as H1.
  { by vm_compute. }
  split_and!; [done | done | by vm_compute |].
  intros H. specialize (H same_branch_twice (list_elem_of_here _ _)).
  rewrite H1 in H. discriminate H.
Qed.

End SummaryFacts.

(** ** Sorting *)

Module PySortFacts.
Import PySort.

Section sorted_by.
Context {A : Type} (before : A -> A -> bool).

Hypothesis before_asym : forall a b, before a b = true -> before b a = false.
Hypothesis ordered_trans :
  forall a b c, ordered before a b -> ordered before b c -> ordered before a c.

Lemma insert_sorted_perm x l : insert_sorted before x l ≡ₚ x :: l.
Proof.
  induction l as [|y l IH]; [done|]. simpl.
  destruct (before y x); [|done]. rewrite IH. apply perm_swap.
Qed.

Lemma sorted_by_perm l : sorted_by before l ≡ₚ l.
Proof.
  induction l as [|x l IH]; [done|]. cbn [sorted_by foldr].
  rewrite insert_sorted_perm. by constructor.
Qed.

Lemma insert_sorted_sorted x l :
  StronglySorted (ordered before) l ->
  StronglySorted (ordered before) (insert_sorted before x l).
Proof.
  induction l as [|y l IH]; intros Hl; simpl.
  - repeat constructor.
  - apply StronglySorted_cons in Hl as [Hy Hl].
    destruct (before y x) eqn:Hyx.
    + apply StronglySorted_cons. split; [|by apply IH].
      rewrite insert_sorted_perm. constructor; [by apply before_asym | done].
    + apply StronglySorted_cons. split; [|by apply StronglySorted_cons].
      constructor; [done|]. eapply Forall_impl; [exact Hy|].
      intros z Hz. by eapply ordered_trans.
Qed.

Lemma sorted_by_sorted l : StronglySorted (ordered before) (sorted_by before l).
Proof.
  induction l as [|x l IH]; [constructor|]. cbn [sorted_by foldr].
  by apply insert_sorted_sorted.
Qed.

End sorted_by.

Lemma strongly_sorted_impl {A} (R1 R2 : relation A) l :
  (forall a b, R1 a b -> R2 a b) -> StronglySorted R1 l -> StronglySorted R2 l.
Proof.
  intros HR. induction 1 as [|x l Hl IH Hx]; constructor; [done|].
  eapply Forall_impl; [exact Hx | apply HR].
Qed.

Lemma ltb_irrefl a : String.ltb a a = false.
Proof.
  unfold String.ltb. destruct (String.compare a a) eqn:E; try done.
  pose proof (String.compare_antisym a a) as H. rewrite E in H. done.
Qed.

Lemma ltb_asym a b : String.ltb a b = true -> String.ltb b a = false.
Proof.
  unfold String.ltb. rewrite (String.compare_antisym b a).
  by destruct (String.compare a b).
Qed.

Lemma ltb_false_le a b : String.ltb b a = false <-> String.le a b.
Proof.
  unfold String.le, String.leb, String.ltb. rewrite (String.compare_antisym b a).
  destruct (String.compare a b); simpl; split; done.
Qed.

Lemma le_neq_ltb a b : String.le a b -> a <> b -> String.ltb a b = true.
Proof.
  unfold String.le, String.leb, String.ltb.
  destruct (String.compare a b) eqn:E; try done.
  intros _ Hne. by apply String.compare_eq_iff in E.
Qed.

(** A sorted list without repetition is strictly sorted. *)
Lemma strictly_sorted {A} (le lt : relation A) l :
  (forall a b, le a b -> a <> b -> lt a b) ->
  NoDup l -> StronglySorted le l -> StronglySorted lt l.
Proof.
  intros Hlt. induction l as [|x l IH]; intros Hnd Hl; [constructor|].
  apply NoDup_cons in Hnd as [Hx Hnd]. apply StronglySorted_cons in Hl as [Hxl Hl].
  apply StronglySorted_cons. split; [|by apply IH].
  apply Forall_forall. intros y Hy. apply Hlt.
  - by eapply Forall_forall in Hxl.
  - intros ->. done.
Qed.

(** [sorted(keys)]: ascending, and strictly so for distinct keys. *)
Lemma sorted_str_spec ks :
  NoDup ks ->
  sorted_str ks ≡ₚ ks
  /\ StronglySorted (fun a b => String.ltb a b = true) (sorted_str ks).
Proof.
  intros Hnd. unfold sorted_str.
  pose proof (sorted_by_perm (fun y x => String.ltb y x) ks) as Hperm.
  split; [done|].
  apply (strictly_sorted String.le); [apply le_neq_ltb | by rewrite Hperm |].
  apply (strongly_sorted_impl (ordered (fun y x => String.ltb y x))).
  - intros a b H. by apply ltb_false_le.
  - apply sorted_by_sorted.
    + intros a b. apply ltb_asym.
    + unfold ordered. intros a b c Hab%ltb_false_le Hbc%ltb_false_le.
      apply ltb_false_le. by etrans.
Qed.

(** [sorted(keys, reverse=True)]: descending. *)
Lemma sorted_str_reverse_spec ks :
  NoDup ks ->
  sorted_str_reverse ks ≡ₚ ks
  /\ StronglySorted (fun a b => String.ltb b a = true) (sorted_str_reverse ks).
Proof.
  intros Hnd. unfold sorted_str_reverse.
  pose proof (sorted_by_perm (fun y x => String.ltb x y) ks) as Hperm.
  split; [done|].
  apply (strictly_sorted (flip String.le));
    [intros a b Hab Hne; by apply le_neq_ltb | by rewrite Hperm |].
  apply (strongly_sorted_impl (ordered (fun y x => String.ltb x y))).
  - intros a b H. by apply ltb_false_le.
  - apply sorted_by_sorted.
    + intros a b. apply ltb_asym.
    + unfold ordered. intros a b c Hab%ltb_false_le Hbc%ltb_false_le.
      apply ltb_false_le. by etrans.
Qed.

End PySortFacts.

(** ** The renderer: traversal order *)

Module RendererFacts.
Import PyStr PyStrFacts PySort PySortFacts Datetime Aggregator Renderer.

Lemma read_paragraphs cs s :
  foldr read_block s (commit_paragraph <$> cs)
  = mk_reading ((commit_paragraph <$> cs) ++ paragraphs s)
               (branch_part s) (repo_part s) (date_part s).
Proof.
  induction cs as [|c cs IH]; [by destruct s|]. csimpl. by rewrite IH.
Qed.

Lemma read_branch_blocks bl b bp rp dp :
  foldr read_block (mk_reading [] bp rp dp) (branch_blocks bl b)
  = mk_reading [] ((b, commit_paragraph <$> sorted_commits (bl !!! b)) :: bp) rp dp.
Proof.
  unfold branch_blocks. cbn [foldr]. rewrite read_paragraphs. simpl.
  by rewrite app_nil_r.
Qed.

Lemma read_branches bl bs bp rp dp :
  foldr read_block (mk_reading [] bp rp dp) (flat_map (branch_blocks bl) bs)
  = mk_reading []
      (((fun b => (b, commit_paragraph <$> sorted_commits (bl !!! b))) <$> bs) ++ bp)
      rp dp.
Proof.
  induction bs as [|b bs IH]; [done|].
  cbn [flat_map]. rewrite foldr_app, IH, read_branch_blocks. done.
Qed.

Lemma read_repo_blocks repos r rp dp :
  foldr read_block (mk_reading [] [] rp dp) (repo_blocks repos r)
  = mk_reading [] [] ((r, branch_part_of (repos !!! r)) :: rp) dp.
Proof.
  unfold repo_blocks. cbn [foldr]. rewrite foldr_app. cbn [foldr read_block].
  rewrite read_branches. simpl. by rewrite app_nil_r.
Qed.

Lemma read_repos repos rs rp dp :
  foldr read_block (mk_reading [] [] rp dp) (flat_map (repo_blocks repos) rs)
  = mk_reading [] [] (((fun r => (r, branch_part_of (repos !!! r))) <$> rs) ++ rp) dp.
Proof.
  induction rs as [|r rs IH]; [done|].
  cbn [flat_map]. rewrite foldr_app, IH, read_repo_blocks. done.
Qed.

Lemma read_date_blocks (o : report) d dp :
  foldr read_block (mk_reading [] [] [] dp) (date_blocks o d)
  = mk_reading [] [] [] ((d, repo_part_of (o !!! d)) :: dp).
Proof.
  unfold date_blocks. cbn [foldr]. rewrite foldr_app. cbn [foldr read_block].
  rewrite read_repos. simpl. by rewrite app_nil_r.
Qed.

Lemma read_dates (o : report) ds dp :
  foldr read_block (mk_reading [] [] [] dp) (flat_map (date_blocks o) ds)
  = mk_reading [] [] [] (((fun d => (d, repo_part_of (o !!! d))) <$> ds) ++ dp).
Proof.
  induction ds as [|d ds IH]; [done|].
  cbn [flat_map]. rewrite foldr_app, IH, read_date_blocks. done.
Qed.

(** The outline of the story is the one the loops were written to produce. *)
Lemma outline_generate_pdf (o : report) now af :
  outline (generate_pdf o now af) = date_part_of o.
Proof.
  unfold outline, generate_pdf, header_blocks. rewrite foldr_app, read_dates.
  rewrite app_nil_r. by destruct af as [[|c f]|].
Qed.

Lemma keys_NoDup {A} (m : gmap string A) : NoDup (keys m).
Proof. apply NoDup_fst_map_to_list. Qed.

Lemma fst_tagged {B} (f : string -> B) (l : list string) :
  ((fun k => (k, f k)) <$> l).*1 = l.
Proof. induction l as [|k l IH]; [done|]. csimpl. by rewrite IH. Qed.

Lemma sorted_commits_in_order cs :
  commits_in_order cs (commit_paragraph <$> sorted_commits cs).
Proof.
  exists (sorted_commits cs). unfold sorted_commits. split_and!; [|  |done].
  - apply sorted_by_perm.
  - apply (strongly_sorted_impl
             (ordered (fun y x => (instant (author_date x) <? instant (author_date y))%Z))).
    + unfold ordered, newer_first. intros a b H. lia.
    + apply sorted_by_sorted; unfold ordered; intros; lia.
Qed.

Lemma branch_part_in_order (bl : branch_map) : branches_in_order bl (branch_part_of bl).
Proof.
  unfold branches_in_order, branch_part_of. rewrite fst_tagged.
  destruct (sorted_str_spec (keys bl) (keys_NoDup bl)) as [Hperm Hsorted].
  split_and!; [done | done |].
  apply Forall_fmap, Forall_forall. intros b _. simpl. apply sorted_commits_in_order.
Qed.

Lemma repo_part_in_order (repos : repo_map) : repos_in_order repos (repo_part_of repos).
Proof.
  unfold repos_in_order, repo_part_of. rewrite fst_tagged.
  destruct (sorted_str_spec (keys repos) (keys_NoDup repos)) as [Hperm Hsorted].
  split_and!; [done | done |].
  apply Forall_fmap, Forall_forall. intros r _. simpl. apply branch_part_in_order.
Qed.

Lemma date_part_in_order (o : report) : dates_in_order o (date_part_of o).
Proof.
  unfold dates_in_order, date_part_of. rewrite fst_tagged.
  destruct (sorted_str_reverse_spec (keys o) (keys_NoDup o)) as [Hperm Hsorted].
  split_and!; [done | done |].
  apply Forall_fmap, Forall_forall. intros d _. simpl. apply repo_part_in_order.
Qed.

End RendererFacts.

(** ** Date keys compare as calendar dates *)

Module DatetimeFacts.
Import PyStrFacts Datetime Renderer.

Lemma digit_compare a b :
  (0 <= a < 10)%Z -> (0 <= b < 10)%Z ->
  Ascii.compare (digit a) (digit b) = (a ?= b)%Z.
Proof.
  intros Ha Hb.
  assert (a = 0 \/ a = 1 \/ a = 2 \/ a = 3 \/ a = 4 \/ a = 5 \/ a = 6 \/ a = 7
          \/ a = 8 \/ a = 9)%Z as Ha' by lia.
  assert (b = 0 \/ b = 1 \/ b = 2 \/ b = 3 \/ b = 4 \/ b = 5 \/ b = 6 \/ b = 7
          \/ b = 8 \/ b = 9)%Z as Hb' by lia.
  repeat destruct Ha' as [-> | Ha']; try subst a;
    repeat destruct Hb' as [-> | Hb']; try subst b; reflexivity.
Qed.

(** Two-digit fields compare as their numbers, then the rest decides. *)
Lemma pad2_compare a b r1 r2 :
  (0 <= a < 100)%Z -> (0 <= b < 100)%Z ->
  String.compare (pad2 a +:+ r1) (pad2 b +:+ r2)
  = match (a ?= b)%Z with
    | Eq => String.compare r1 r2
    | c => c
    end.
Proof.
  intros Ha Hb. unfold pad2. rewrite !str_app_cons, !str_app_empty_l.
  cbn [String.compare].
  assert (digit (a / 10) = digit (a / 10 mod 10)) as Ea.
  { unfold digit. by rewrite Z.mod_mod by lia. }
  assert (digit (b / 10) = digit (b / 10 mod 10)) as Eb.
  { unfold digit. by rewrite Z.mod_mod by lia. }
  assert (digit a = digit (a mod 10)) as Ea0.
  { unfold digit. by rewrite Z.mod_mod by lia. }
  assert (digit b = digit (b mod 10)) as Eb0.
  { unfold digit. by rewrite Z.mod_mod by lia. }
  rewrite Ea, Eb, Ea0, Eb0.
  rewrite !digit_compare by (Z.to_euclidean_division_equations; lia).
  destruct (Z.compare_spec (a / 10 mod 10) (b / 10 mod 10)) as [H1|H1|H1];
    destruct (Z.compare_spec (a mod 10) (b mod 10)) as [H0|H0|H0];
    destruct (Z.compare_spec a b) as [H|H|H];
    try done; exfalso; Z.to_euclidean_division_equations; lia.
Qed.

Lemma digit_ext a b : (a mod 10 = b mod 10)%Z -> digit a = digit b.
Proof. unfold digit. by intros ->. Qed.

Lemma pad4_pad2 n : (0 <= n)%Z -> pad4 n = pad2 (n / 100) +:+ pad2 (n mod 100).
Proof.
  intros Hn. unfold pad4, pad2. rewrite !str_app_cons, str_app_empty_l.
  rewrite (digit_ext (n / 1000) (n / 100 / 10)),
          (digit_ext (n / 10) (n mod 100 / 10)),
          (digit_ext n (n mod 100)); [done|..];
    Z.to_euclidean_division_equations; lia.
Qed.

Lemma strftime_date_compare a b :
  printable_date a -> printable_date b ->
  String.compare (strftime_date a) (strftime_date b)
  = match (year a ?= year b)%Z with
    | Eq => match (month a ?= month b)%Z with
            | Eq => (day a ?= day b)%Z
            | c => c
            end
    | c => c
    end.
Proof.
  intros (Hya & Hma & Hda) (Hyb & Hmb & Hdb). unfold strftime_date.
  rewrite !pad4_pad2 by lia. rewrite !str_app_assoc.
  rewrite pad2_compare by (Z.to_euclidean_division_equations; lia).
  rewrite pad2_compare by (Z.to_euclidean_division_equations; lia).
  rewrite !(str_app_cons "-"), !str_app_empty_l. cbn [String.compare].
  change (Ascii.compare "-" "-") with Eq. cbv iota.
  rewrite pad2_compare by lia. cbn [String.compare].
  change (Ascii.compare "-" "-") with Eq. cbv iota.
  rewrite <- (str_app_empty_r (pad2 (day a))), <- (str_app_empty_r (pad2 (day b))).
  rewrite pad2_compare by lia. cbn [String.compare].
  destruct (Z.compare_spec (year a / 100) (year b / 100)) as [H1|H1|H1];
    destruct (Z.compare_spec (year a mod 100) (year b mod 100)) as [H0|H0|H0];
    destruct (Z.compare_spec (year a) (year b)) as [H|H|H];
    try done; try (exfalso; Z.to_euclidean_division_equations; lia).
  all: by destruct (month a ?= month b)%Z, (day a ?= day b)%Z.
Qed.

(** The string order of date keys is the order of the calendar dates. *)
Lemma strftime_date_before a b :
  printable_date a -> printable_date b ->
  str_lt (strftime_date a) (strftime_date b) <-> date_before a b.
Proof.
  intros Ha Hb. unfold str_lt, String.ltb, date_before.
  rewrite strftime_date_compare by done.
  destruct (Z.compare_spec (year a) (year b)) as [Hy|Hy|Hy];
    [destruct (Z.compare_spec (month a) (month b)) as [Hm|Hm|Hm];
     [destruct (Z.compare_spec (day a) (day b)) as [Hd|Hd|Hd]|..]|..];
    split; (done || lia).
Qed.

End DatetimeFacts.

(** ** The renderer: ordering contract *)

Module OrderFacts.
Import PySort Datetime Aggregator Renderer RendererFacts DatetimeFacts.

(** C3.  In the story of any grouped report, the date headers are the date
    keys in descending order; under each date header the repository headers
    are the repository keys of that date in ascending order; under each
    repository header the branch headers are its branch keys in ascending
    order; and under each branch header the paragraphs are those of the
    commits of the leaf list, most recent author timestamp first.  The order
    of the date keys is the order of the calendar dates they print. *)
Theorem render_order (organized : report) (now : string)
    (author_filter : option string) :
  dates_in_order organized (outline (generate_pdf organized now author_filter))
  /\ (forall c1 c2,
        printable_date (author_date c1) -> printable_date (author_date c2) ->
        str_lt (date_key c1) (date_key c2)
        <-> date_before (author_date c1) (author_date c2)).
Proof.
  split.
  - rewrite outline_generate_pdf. apply date_part_in_order.
  - intros c1 c2 H1 H2. by apply strftime_date_before.
Qed.

(** The section of 2024-01-02 comes before that of 2024-01-01, whatever the
    order of the input. *)
Example later_date_first :
  (outline (generate_pdf (organize_commits_by_date_and_repo [jan1_23h; jan2_10h])
                         "now" None)).*1
  = ["2024-01-02"; "2024-01-01"]
  /\ (outline (generate_pdf (organize_commits_by_date_and_repo [jan2_10h; jan1_23h])
                            "now" None)).*1
     = ["2024-01-02"; "2024-01-01"].
Proof. split; by vm_compute. Qed.

End OrderFacts.

(** ** The renderer: commit messages *)

Module MessageFacts.
Import PyStr PyStrFacts Renderer.

Lemma replace_newline s : replace newline_str " " s = map_string unbreak s.
Proof.
  unfold replace, newline_str. induction s as [|c s IH]; [done|].
  cbn [replace_from startswith map_string]. unfold unbreak.
  rewrite (Ascii.eqb_sym newline c). destruct (Ascii.eqb c newline); simpl.
  - by rewrite str_app_cons, str_app_empty_l, IH.
  - by rewrite IH.
Qed.

Lemma length_map_string f s : String.length (map_string f s) = String.length s.
Proof. induction s as [|c s IH]; [done|]. simpl. by rewrite IH. Qed.

Lemma map_string_empty f s : map_string f s = "" <-> s = "".
Proof. by destruct s. Qed.

Lemma isspace_unbreak c : isspace (unbreak c) = isspace c.
Proof.
  unfold unbreak. destruct (Ascii.eqb c newline) eqn:E; [|done].
  apply Ascii.eqb_eq in E as ->. done.
Qed.

Lemma unbreak_not_newline c : Ascii.eqb newline (unbreak c) = false.
Proof.
  unfold unbreak. destruct (Ascii.eqb c newline) eqn:E; [done|].
  by rewrite Ascii.eqb_sym.
Qed.

(** Stripping commutes with the replacement of newlines. *)
Lemma lstrip_unbreak s : lstrip (map_string unbreak s) = map_string unbreak (lstrip s).
Proof.
  induction s as [|c s IH]; [done|]. simpl. rewrite isspace_unbreak.
  by destruct (isspace c).
Qed.

Lemma rstrip_unbreak s : rstrip (map_string unbreak s) = map_string unbreak (rstrip s).
Proof.
  induction s as [|c s IH]; [done|]. simpl. rewrite IH, isspace_unbreak.
  destruct (rstrip s) as [|d r]; simpl; [by destruct (isspace c) | done].
Qed.

Lemma strip_unbreak s : strip (map_string unbreak s) = map_string unbreak (strip s).
Proof. unfold strip. by rewrite lstrip_unbreak, rstrip_unbreak. Qed.

Lemma lstrip_starts_clean s : starts_clean (lstrip s).
Proof. induction s as [|c s IH]; [done|]. simpl. by destruct (isspace c) eqn:E. Qed.

Lemma starts_clean_lstrip s : starts_clean s -> lstrip s = s.
Proof. destruct s as [|c s]; [done|]. simpl. by intros ->. Qed.

Lemma rstrip_starts_clean s : starts_clean s -> starts_clean (rstrip s).
Proof.
  destruct s as [|c s]; [done|]. simpl. intros Hc.
  destruct (rstrip s); [by rewrite Hc | done].
Qed.

Lemma rstrip_idem s : rstrip (rstrip s) = rstrip s.
Proof.
  induction s as [|c s IH]; [done|]. simpl.
  destruct (rstrip s) as [|d r] eqn:E.
  - destruct (isspace c) eqn:Hc; [done|]. simpl. by rewrite Hc.
  - cbn [rstrip] in IH |- *. by rewrite IH.
Qed.

Lemma strip_starts_clean s : starts_clean (strip s).
Proof. apply rstrip_starts_clean, lstrip_starts_clean. Qed.

Lemma strip_idem s : strip (strip s) = strip s.
Proof.
  unfold strip. rewrite (starts_clean_lstrip (rstrip (lstrip s))).
  - apply rstrip_idem.
  - apply strip_starts_clean.
Qed.

(** A suffix that ends cleanly protects what is before it. *)
Lemma rstrip_app_clean x y : y <> "" -> rstrip y = y -> rstrip (x +:+ y) = x +:+ y.
Proof.
  intros Hne Hy. induction x as [|c x IH]; [done|].
  rewrite str_app_cons. simpl. rewrite IH.
  destruct (x +:+ y) eqn:E; [|done]. by destruct x, y.
Qed.

Lemma contains_char_app a x y :
  contains (String a "") (x +:+ y)
  = contains (String a "") x || contains (String a "") y.
Proof.
  induction x as [|c x IH]; [done|]. rewrite str_app_cons. simpl. rewrite IH.
  by destruct (Ascii.eqb a c).
Qed.

Lemma contains_char_slice a n s :
  contains (String a "") s = false -> contains (String a "") (slice_to n s) = false.
Proof.
  revert s. induction n as [|n IH]; intros [|c s]; simpl; try done.
  destruct (Ascii.eqb a c); simpl; [done|]. apply IH.
Qed.

Lemma unbreak_no_newline s : contains newline_str (map_string unbreak s) = false.
Proof.
  unfold newline_str. induction s as [|c s IH]; [done|]. simpl.
  by rewrite unbreak_not_newline, IH.
Qed.

Lemma starts_clean_app x y : x <> "" -> starts_clean x -> starts_clean (x +:+ y).
Proof. by destruct x. Qed.

Lemma starts_clean_slice n s : starts_clean s -> starts_clean (slice_to n s).
Proof. by destruct n, s. Qed.

(** The normal form of the message: stripped, newlines replaced. *)
Lemma render_message_cases comment :
  let stripped := strip comment in
  let normalized := replace newline_str " " stripped in
  (100 < String.length stripped ->
   render_message comment = slice_to 100 normalized +:+ "...")
  /\ (String.length stripped <= 100 -> render_message comment = normalized).
Proof.
  intros stripped normalized. unfold render_message. fold stripped normalized. split.
  - intros H. by rewrite (proj2 (Nat.ltb_lt _ _) H).
  - intros H. rewrite (proj2 (Nat.ltb_ge _ _) H). apply slice_to_all.
    subst normalized. by rewrite replace_newline, length_map_string.
Qed.

Lemma render_message_clean_form comment :
  strip (render_message comment) = render_message comment
  /\ contains newline_str (render_message comment) = false.
Proof.
  destruct (render_message_cases comment) as [Hlong Hshort].
  set (stripped := strip comment) in *.
  set (normalized := replace newline_str " " stripped) in *.
  assert (normalized = map_string unbreak stripped) as Hn by apply replace_newline.
  assert (strip normalized = normalized) as Hstrip.
  { rewrite Hn, strip_unbreak. subst stripped. by rewrite strip_idem. }
  assert (starts_clean normalized) as Hclean.
  { rewrite <- Hstrip. apply strip_starts_clean. }
  destruct (Nat.lt_ge_cases 100 (String.length stripped)) as [H | H].
  - rewrite (Hlong H). split.
    + unfold strip. rewrite starts_clean_lstrip.
      * by apply rstrip_app_clean.
      * apply starts_clean_app; [|by apply starts_clean_slice].
        assert (String.length normalized = String.length stripped) as Hlen
          by (by rewrite Hn, length_map_string).
        destruct normalized; [simpl in Hlen; lia | done].
    + unfold newline_str. rewrite contains_char_app.
      rewrite contains_char_slice; [done|]. rewrite Hn. apply unbreak_no_newline.
  - rewrite (Hshort H). split; [done|]. rewrite Hn. apply unbreak_no_newline.
Qed.

(** C10.  The renderer first strips the message and replaces every newline
    of the stripped message by one space, which keeps its length; the
    100-character cut and the test for the marker both use the length of the
    stripped message.  The rendered message has no newline and no leading or
    trailing whitespace. *)
Theorem render_message_normalized (comment : string) :
  let stripped := strip comment in
  let normalized := replace newline_str " " stripped in
  normalized = map_string unbreak stripped
  /\ String.length normalized = String.length stripped
  /\ render_message comment
     = (if Nat.ltb 100 (String.length stripped)
        then slice_to 100 normalized +:+ "..." else normalized)
  /\ contains newline_str (render_message comment) = false
  /\ strip (render_message comment) = render_message comment.
Proof.
  intros stripped normalized.
  destruct (render_message_cases comment) as [Hlong Hshort].
  destruct (render_message_clean_form comment) as [Hstrip Hline].
  fold stripped normalized in Hlong, Hshort.
  split_and!; [apply replace_newline | | | done | done].
  - subst normalized. by rewrite replace_newline, length_map_string.
  - destruct (Nat.ltb 100 (String.length stripped)) eqn:E.
    + apply Hlong. by apply Nat.ltb_lt.
    + apply Hshort. by apply Nat.ltb_ge.
Qed.

(** C8, as the code has it.  The length that decides is that of the stripped
    message.  When it exceeds 100, the rendered message is the first 100
    characters of the normalized message followed by ["..."], 103 characters
    in all; otherwise it is the normalized message, without marker.  A
    message without surrounding whitespace and without newline is its own
    normal form: it is rendered unmodified up to 100 characters and cut to
    100 characters plus the marker beyond. *)
Theorem render_message_truncation (comment : string) :
  let stripped := strip comment in
  let normalized := replace newline_str " " stripped in
  (100 < String.length stripped ->
   render_message comment = slice_to 100 normalized +:+ "..."
   /\ String.length (render_message comment) = 103)
  /\ (String.length stripped <= 100 ->
      render_message comment = normalized
      /\ String.length (render_message comment) = String.length stripped)
  /\ (strip comment = comment -> contains newline_str comment = false ->
      truncated_as_stated comment).
Proof.
  intros stripped normalized.
  destruct (render_message_cases comment) as [Hlong Hshort].
  fold stripped normalized in Hlong, Hshort.
  assert (String.length normalized = String.length stripped) as Hlen.
  { subst normalized. by rewrite replace_newline, length_map_string. }
  split_and!.
  - intros H. rewrite (Hlong H). split; [done|].
    rewrite str_length_app, length_slice_to, Hlen. cbn [String.length]. lia.
  - intros H. rewrite (Hshort H). by split.
  - intros Hstrip Hline. unfold truncated_as_stated.
    assert (normalized = comment) as Hsame.
    { subst normalized stripped. rewrite Hstrip. by apply replace_absent. }
    subst stripped. rewrite Hstrip, Hsame in *. by split.
Qed.

Lemma render_message_truncation_witness :
  render_message (hundred +:+ "a") = hundred +:+ "..."
  /\ render_message hundred = hundred.
Proof.
  destruct (render_message_truncation (hundred +:+ "a")) as (_ & _ & Hlong).
  destruct (render_message_truncation hundred) as (_ & _ & Hshort).
  split.
  - apply Hlong; [done | done |]. vm_compute. lia.
  - apply Hshort; [done | done |]. vm_compute. lia.
Defined.

(** C8 as the specification states it fails.  A message of 101 characters
    that ends in a space is rendered as its 100 other characters, without
    marker; a short message with a newline is not rendered unmodified. *)
Lemma truncation_counts_stripped_length :
  String.length (hundred +:+ " ") = 101
  /\ render_message (hundred +:+ " ") = hundred
  /\ render_message (String "a" (String newline "b")) = "a b"
  /\ ~ truncated_as_stated (hundred +:+ " ")
  /\ ~ truncated_as_stated (String "a" (String newline "b")).
Proof.
  split_and!; [done | done | done | |].
  - intros [Hlong _]. specialize (Hlong ltac:(vm_compute; lia)). discriminate Hlong.
  - intros [_ Hshort]. specialize (Hshort ltac:(vm_compute; lia)). discriminate Hshort.
Qed.

End MessageFacts.

(** ** More on the branch resolver *)

Module ResolverMore.
Import PyStr PyStrFacts BranchResolver BranchResolverFacts RefNames.

Lemma confirmations_app ask n q k :
  confirmations ask n (q ++ k)
  = confirmations ask n q ++ confirmations ask (n + length q) k.
Proof.
  revert n. induction q as [|b q IH]; intros n.
  - simpl. by rewrite Nat.add_0_r.
  - simpl. rewrite IH, Nat.add_succ_r.
    destruct (ask n b) as [|c]; [done|]. by destruct (c =? 200)%Z.
Qed.

Lemma length_confirmations_one ask n b : length (confirmations ask n [b]) <= 1.
Proof. simpl. destruct (ask n b) as [|c]; [simpl; lia|]. destruct (c =? 200)%Z; simpl; lia. Qed.

(** What the probing loop finds is the first two confirmed candidates. *)
Lemma found_first_two ask to_check probed :
  probed `prefix_of` to_check ->
  (probed = to_check \/ length (confirmations ask 0 probed) = 2) ->
  (forall q, q `prefix_of` probed -> q <> probed ->
             length (confirmations ask 0 q) < 2) ->
  confirmations ask 0 probed = take 2 (confirmations ask 0 to_check).
Proof.
  intros [k ->] Hstop Hmin. destruct Hstop as [Hall | Htwo].
  - assert (k = []) as ->.
    { apply (f_equal length) in Hall. rewrite length_app in Hall.
      destruct k; [done | simpl in Hall; lia]. }
    rewrite app_nil_r. symmetry. apply take_ge.
    destruct (decide (probed = [])) as [-> | Hne]; [simpl; lia|].
    destruct (exists_last Hne) as (q & b & ->).
    rewrite confirmations_app, length_app.
    pose proof (length_confirmations_one ask (0 + length q) b).
    assert (length (confirmations ask 0 q) < 2); [|lia].
    apply Hmin; [by exists [b]|]. intros Heq. apply (f_equal length) in Heq.
    rewrite length_app in Heq. simpl in Heq. lia.
  - rewrite confirmations_app. symmetry. by apply take_app_length'.
Qed.

Lemma resolve_first_two json ask all_branches :
  all_branches_of json = Ok all_branches ->
  get_commit_branches (Response 200 json) ask
  = Ok (match take 2 (confirmed_candidates ask all_branches) with
        | [] => sentinel
        | found => found
        end).
Proof.
  intros Hall. unfold get_commit_branches, confirmed_candidates.
  destruct (resolve_listed json ask all_branches Hall) as (probed & -> & Hpre & Hstop & Hmin).
  simpl. rewrite (found_first_two ask _ probed Hpre Hstop Hmin).
  by destruct (take 2 _).
Qed.

(** X3.  Once the refs listing has succeeded, [get_commit_branches] returns
    the first two candidates, in candidate order, whose probe answers with
    status 200, all of them when there are fewer, and the sentinel when there
    is none.  A probe that raises or answers with another status counts as
    not confirmed. *)
Theorem get_commit_branches_first_two (json : body ref_item)
    (ask : nat -> string -> probe) (all_branches : list string) :
  all_branches_of json = Ok all_branches ->
  get_commit_branches (Response 200 json) ask
  = Ok (match take 2 (confirmed_candidates ask all_branches) with
        | [] => sentinel
        | found => found
        end).
Proof. intros Hall. rewrite (resolve_first_two json ask all_branches Hall). done. Qed.

Lemma get_commit_branches_first_two_witness :
  get_commit_branches
    (Response 200 (Value [Some "refs/heads/x"; Some "refs/heads/dev";
                          Some "refs/heads/main"; Some "refs/heads/y"]))
    (fun n b => if String.eqb b "main" then ProbeFails else ProbeStatus 200)
  = Ok ["dev"; "x"].
Proof.
  rewrite (get_commit_branches_first_two _ _ ["x"; "dev"; "main"; "y"]); reflexivity.
Defined.

Lemma resolve_bounds refs ask :
  exists branches,
    get_commit_branches refs ask = Ok branches
    /\ 1 <= length branches <= 2 /\ NoDup branches.
Proof.
  assert (NoDup sentinel) as Hs by apply NoDup_singleton.
  destruct (refs_listed_dec refs) as [(json & all_branches & -> & Hall) | Hno].
  - rewrite (resolve_first_two json ask all_branches Hall).
    unfold confirmed_candidates.
    set (fs := take 2 (confirmations ask 0 (branches_to_check all_branches))).
    assert (length fs <= 2) as Hlen by (subst fs; rewrite length_take; lia).
    assert (NoDup fs) as Hnd.
    { apply (sublist_NoDup _ (branches_to_check all_branches)).
      - by destruct (branches_to_check_spec all_branches) as (_ & _ & _ & _ & Hnd & _).
      - subst fs. etrans; [apply sublist_take | apply confirmations_sublist]. }
    clearbody fs. destruct fs as [|b fs].
    + exists sentinel. split_and!; [done | simpl; lia | simpl; lia | done].
    + exists (b :: fs). split_and!; [done | simpl; lia | done | done].
  - unfold get_commit_branches.
    destruct (resolve_unlisted refs ask Hno) as [_ [Hr | [e Hr]]]; rewrite Hr;
      exists sentinel; (split_and!; [done | simpl; lia | simpl; lia | done]).
Qed.

(** X4.  [get_commit_branches] never returns more than two branches.  A
    result other than the sentinel comes from a successful listing: it is
    part of the candidate list, in candidate order, so each of its branches
    exists in the repository and is a preferred name or one of the first
    three listed; a branch beyond these is never reported. *)
Theorem get_commit_branches_candidates_only (refs : http ref_item)
    (ask : nat -> string -> probe) :
  exists branches,
    get_commit_branches refs ask = Ok branches
    /\ length branches <= 2
    /\ (branches = sentinel
        \/ exists json all_branches,
            refs = Response 200 json
            /\ all_branches_of json = Ok all_branches
            /\ branches `sublist_of` branches_to_check all_branches
            /\ forall b, b ∈ branches ->
                         b ∈ all_branches
                         /\ (b ∈ common_branches \/ b ∈ take 3 all_branches)).
Proof.
  destruct (refs_listed_dec refs) as [(json & all_branches & -> & Hall) | Hno].
  - rewrite (resolve_first_two json ask all_branches Hall).
    unfold confirmed_candidates.
    set (fs := take 2 (confirmations ask 0 (branches_to_check all_branches))).
    assert (length fs <= 2) as Hlen by (subst fs; rewrite length_take; lia).
    assert (fs `sublist_of` branches_to_check all_branches) as Hsub.
    { subst fs. etrans; [apply sublist_take | apply confirmations_sublist]. }
    clearbody fs. destruct fs as [|b fs].
    + exists sentinel. split_and!; [done | simpl; lia | by left].
    + exists (b :: fs). split_and!; [done | done |]. right.
      exists json, all_branches. split_and!; [done | done | done |].
      intros x Hx. apply (sublist_subseteq _ _ Hsub) in Hx.
      destruct (branches_to_check_spec all_branches) as (extra & Heq & Hextra & _ & _ & Hin).
      rewrite Heq in Hx. apply elem_of_app in Hx as [Hx | Hx].
      * apply list_elem_of_filter in Hx as [Hx1 Hx2]. split; [done | by left].
      * split; [by apply Hin|]. right. by apply (sublist_subseteq _ _ Hextra).
  - unfold get_commit_branches.
    destruct (resolve_unlisted refs ask Hno) as [_ [Hr | [e Hr]]]; rewrite Hr;
      exists sentinel; (split_and!; [done | simpl; lia | by left]).
Qed.

(** Removing occurrences never makes a string longer. *)
Lemma length_replace_from_empty old k s :
  String.length (replace_from old "" k s) <= String.length s - k.
Proof.
  revert k. induction s as [|c s IH]; intros k; [simpl; lia|].
  cbn [replace_from]. destruct k as [|k].
  - destruct (startswith old (String c s)).
    + rewrite str_app_empty_l. specialize (IH (Nat.pred (String.length old))).
      simpl. lia.
    + specialize (IH 0). simpl in *. lia.
  - specialize (IH k). simpl. lia.
Qed.

(** Removing a pattern that occurs makes the string shorter. *)
Lemma length_replace_occurs c old s :
  contains (String c old) s = true ->
  String.length (replace (String c old) "" s) < String.length s.
Proof.
  unfold replace. induction s as [|x s IH]; [done|].
  intros H. cbn [replace_from].
  destruct (startswith (String c old) (String x s)) eqn:Hsw.
  - rewrite str_app_empty_l.
    pose proof (length_replace_from_empty (String c old)
                  (Nat.pred (String.length (String c old))) s).
    simpl in *. lia.
  - cbn [contains] in H. rewrite Hsw in H. cbn [orb] in H.
    specialize (IH H). cbn [String.length]. lia.
Qed.

Lemma branch_name_recovered b :
  contains "refs/heads/" b = false -> branch_name_of_ref ("refs/heads/" +:+ b) = b.
Proof.
  intros H. unfold branch_name_of_ref.
  rewrite (replace_prefix "r" "efs/heads/"), str_app_empty_l. by apply replace_absent.
Qed.

(** X5.  The branch name read from the ref [refs/heads/b] is [b] exactly
    when [b] does not itself contain [refs/heads/]; a name that contains it
    loses every such occurrence and comes out shorter. *)
Theorem branch_name_round_trip (b : string) :
  (branch_name_of_ref ("refs/heads/" +:+ b) = b
   <-> contains "refs/heads/" b = false)
  /\ (contains "refs/heads/" b = true ->
      String.length (branch_name_of_ref ("refs/heads/" +:+ b)) < String.length b).
Proof.
  assert (contains "refs/heads/" b = true ->
          String.length (branch_name_of_ref ("refs/heads/" +:+ b)) < String.length b)
    as Hshort.
  { intros H. unfold branch_name_of_ref.
    rewrite (replace_prefix "r" "efs/heads/"), str_app_empty_l.
    by apply (length_replace_occurs "r" "efs/heads/"). }
  split; [|done]. split.
  - intros Heq. destruct (contains "refs/heads/" b) eqn:E; [|done].
    specialize (Hshort eq_refl). rewrite Heq in Hshort. lia.
  - apply branch_name_recovered.
Qed.

(** The loops over the refs keep the head refs, in order. *)
Lemma head_names_heads names acc :
  head_names acc (Some <$> names) = Ok (acc ++ heads names).
Proof.
  revert acc. unfold heads. induction names as [|n names IH]; intros acc.
  - simpl. by rewrite app_nil_r.
  - rewrite fmap_cons, filter_cons. cbn [head_names].
    destruct (startswith "refs/heads/" n) eqn:E.
    + rewrite decide_True by done. rewrite IH, fmap_cons.
      unfold branch_name_of_ref. by rewrite <- app_assoc.
    + rewrite decide_False by congruence. apply IH.
Qed.

Lemma basic_head_names_heads names acc :
  basic_head_names acc (Some <$> names) = Ok (acc ++ heads names).
Proof.
  revert acc. unfold heads. induction names as [|n names IH]; intros acc.
  - simpl. by rewrite app_nil_r.
  - rewrite fmap_cons, filter_cons. cbn [basic_head_names].
    destruct (startswith "refs/heads/" n) eqn:E.
    + rewrite decide_True by done. rewrite IH, fmap_cons.
      unfold branch_name_of_ref. by rewrite <- app_assoc.
    + rewrite decide_False by congruence. apply IH.
Qed.

(** X6.  The resolver of [azure_commits_pdf.py], given a listing in which
    every ref has a name, returns the branch names of all the head refs in
    listing order, however many, and skips every other ref; without a head
    ref it returns [unknown].  One ref without a name anywhere in the listing
    discards all of them. *)
Theorem basic_get_commit_branches_heads (names : list string) :
  basic_get_commit_branches (Response 200 (Value (Some <$> names)))
  = Ok (match heads names with
        | [] => basic_sentinel
        | branches => branches
        end)
  /\ (forall refs1 refs2 : list ref_item,
        basic_get_commit_branches (Response 200 (Value (refs1 ++ None :: refs2)))
        = Ok basic_sentinel).
Proof.
  split.
  - unfold basic_get_commit_branches, basic_resolve. cbn [Z.eqb Pos.eqb value_of].
    cbn. rewrite (basic_head_names_heads names []). cbn.
    by destruct (heads names).
  - intros refs1 refs2.
    assert (forall acc, exists e,
              basic_head_names acc (refs1 ++ None :: refs2) = Raise e) as Hraise.
    { induction refs1 as [|[n|] refs1 IH]; intros acc;
        rewrite ?app_nil_l, <- ?app_comm_cons; cbn [basic_head_names].
      - by eexists.
      - destruct (startswith "refs/heads/" n); apply IH.
      - by eexists. }
    unfold basic_get_commit_branches, basic_resolve. cbn [Z.eqb Pos.eqb value_of].
    cbn. destruct (Hraise []) as [e ->]. done.
Qed.

End ResolverMore.

(** ** More facts about the URL parser *)

Module UrlParserMore.
Import PyStr PyStrFacts UrlParser UrlParserFacts UrlPaths.

Lemma split_no_sep (sep : ascii) s :
  Forall (fun p => contains (String sep "") p = false) (split sep s).
Proof.
  induction s as [|c s IH]; cbn [split].
  - by repeat constructor.
  - destruct (Ascii.eqb c sep) eqn:E.
    + by constructor.
    + destruct (split sep s) as [|h t].
      * repeat constructor. cbn. by rewrite Ascii.eqb_sym, E.
      * apply Forall_cons in IH as [Hh Ht]. constructor; [|done].
        cbn [contains startswith]. by rewrite Ascii.eqb_sym, E.
Qed.

(** The fallback [parts[2].replace('_git/', '')] has nothing to remove. *)
Lemma replace_git_part p :
  contains "/" p = false -> replace "_git/" "" p = p.
Proof.
  intros H. apply replace_absent.
  destruct (contains "_git/" p) eqn:E; [|done].
  by rewrite (contains_trans "/" "_git/" p) in H.
Qed.

Lemma repo_name_of_split s p0 p1 p2 rest :
  split "/" s = p0 :: p1 :: p2 :: rest ->
  repo_name_of (split "/" s) = Ok (match rest with [] => p2 | p3 :: _ => p3 end).
Proof.
  intros E. pose proof (split_no_sep "/" s) as H. rewrite E in *.
  destruct rest as [|p3 rest]; [|done].
  unfold repo_name_of. cbn.
  rewrite replace_git_part; [done|].
  by apply Forall_cons in H as [_ [_ [H _]%Forall_cons]%Forall_cons].
Qed.

Lemma parse_positional repo_url :
  recognized repo_url = true ->
  parse_repo_url repo_url
  = match parts_of repo_url with
    | p0 :: p1 :: p2 :: rest =>
        Ok (organization_of repo_url p0, p1,
            match rest with [] => p2 | p3 :: _ => p3 end)
    | _ => Raise IndexError
    end.
Proof.
  unfold recognized, parse_repo_url, parts_of, organization_of. intros Hrec.
  destruct (contains "dev.azure.com" repo_url).
  - destruct (split "/" _) as [|p0 [|p1 [|p2 rest]]] eqn:E; try done.
    cbn. by rewrite <- E, (repo_name_of_split _ _ _ _ _ E).
  - cbn [orb] in Hrec. rewrite Hrec.
    destruct (split "/" _) as [|p0 [|p1 [|p2 rest]]] eqn:E; try done.
    cbn. by rewrite <- E, (repo_name_of_split _ _ _ _ _ E).
Qed.

(** X7.  On a string with one of the two host names, [parse_repo_url] is
    positional and nothing else: with fewer than three parts between the
    slashes it raises IndexError, otherwise the organization and the project
    are the first two parts and the repository is the fourth part, or the
    third when there are only three.  The third part is returned as it is:
    the removal of [_git/] never changes it. *)
Theorem parse_repo_url_positional (repo_url : string) :
  recognized repo_url = true ->
  parse_repo_url repo_url
  = match parts_of repo_url with
    | p0 :: p1 :: p2 :: rest =>
        Ok (organization_of repo_url p0, p1,
            match rest with [] => p2 | p3 :: _ => p3 end)
    | _ => Raise IndexError
    end.
Proof. apply parse_positional. Qed.

Lemma parse_repo_url_positional_witness :
  parse_repo_url "https://org.visualstudio.com/proj/_git/" = Ok ("org", "proj", "").
Proof. rewrite parse_repo_url_positional; reflexivity. Defined.

Lemma join_path_cons a b rest :
  join_path (a :: b :: rest) = a +:+ String "/" (join_path (b :: rest)).
Proof. reflexivity. Qed.

Lemma split_join_path segments :
  segments <> [] ->
  Forall (fun p => contains "/" p = false) segments ->
  split "/" (join_path segments) = segments.
Proof.
  induction segments as [|a [|b rest] IH]; intros Hne H; [done| |].
  - apply Forall_cons in H as [Ha _]. by apply split_one.
  - apply Forall_cons in H as [Ha H]. rewrite join_path_cons, split_app by done.
    by rewrite IH.
Qed.

Lemma join_path_clean segments :
  Forall (fun p => component p = true) segments ->
  contains "//" (join_path segments) = false
  /\ (segments <> [] -> forall x, startswith "/" (join_path segments +:+ x) = false).
Proof.
  induction segments as [|a [|b rest] IH]; intros H.
  - done.
  - apply Forall_cons in H as [Ha _]. split.
    + apply no_double_slash_one. by apply component_spec.
    + intros _ x. by apply component_no_slash_start.
  - apply Forall_cons in H as [Ha H]. destruct (IH H) as [IH1 IH2].
    rewrite join_path_cons. split.
    + apply (no_double_slash a); [by apply component_spec | | done].
      rewrite <- (str_app_empty_r (join_path _)). by apply IH2.
    + intros _ x. rewrite str_app_assoc. by apply component_no_slash_start.
Qed.

Lemma parts_of_path_url segments :
  segments <> [] ->
  Forall (fun p => component p = true) segments ->
  parts_of (path_url segments) = segments.
Proof.
  intros Hne H. unfold parts_of, path_url.
  assert (contains "dev.azure.com" ("https://dev.azure.com/" +:+ join_path segments) = true)
    as ->.
  { apply contains_spec. by exists "https://", ("/" +:+ join_path segments). }
  rewrite (replace_prefix "h" "ttps://dev.azure.com/"), str_app_empty_l.
  rewrite replace_absent.
  - apply split_join_path; [done|].
    eapply Forall_impl; [exact H|]. intros p Hp. by apply component_spec.
  - apply absent_without_double_slash; [done | by apply join_path_clean].
Qed.

(** X8.  A [dev.azure.com] URL whose path consists of non-empty segments
    separated by single slashes parses by position only: the organization
    and the project are the first two segments; with exactly three segments
    the third is the repository (so [https://dev.azure.com/o/p/r] is
    accepted); with four or more the fourth is, whatever the third segment
    is and whatever follows the fourth; with fewer than three segments the
    parser raises IndexError. *)
Theorem parse_path_url (segments : list string) :
  Forall (fun p => component p = true) segments ->
  parse_repo_url (path_url segments)
  = match segments with
    | [o; p; r] => Ok (o, p, r)
    | o :: p :: _ :: r :: _ => Ok (o, p, r)
    | _ => Raise IndexError
    end.
Proof.
  intros H. rewrite parse_positional.
  - destruct segments as [|o segments]; [done|].
    rewrite parts_of_path_url by done.
    unfold organization_of, path_url.
    assert (contains "dev.azure.com"
              ("https://dev.azure.com/" +:+ join_path (o :: segments)) = true) as ->.
    { apply contains_spec. by exists "https://", ("/" +:+ join_path (o :: segments)). }
    by destruct segments as [|p [|x [|r rest]]].
  - unfold recognized, path_url. apply orb_true_iff. left.
    apply contains_spec. by exists "https://", ("/" +:+ join_path segments).
Qed.

Lemma parse_path_url_witness :
  parse_repo_url "https://dev.azure.com/o/p/pullrequest/42/files" = Ok ("o", "p", "42")
  /\ parse_repo_url "https://dev.azure.com/o/p/r" = Ok ("o", "p", "r")
  /\ parse_repo_url "https://dev.azure.com/o/p" = Raise IndexError.
Proof.
  split_and!.
  - apply (parse_path_url ["o"; "p"; "pullrequest"; "42"; "files"]).
    by repeat constructor.
  - apply (parse_path_url ["o"; "p"; "r"]). by repeat constructor.
  - apply (parse_path_url ["o"; "p"]). by repeat constructor.
Defined.

End UrlParserMore.

(** ** More facts about the fetcher *)

Module FetcherMore.
Import PyStr PyStrFacts BranchResolver BranchResolverFacts ResolverMore.
Import Fetcher FetcherFacts FetchResults.

Lemma attach_imap w skip o p r commits :
  (skip = false -> Forall (fun c => is_Some (commitId c)) commits) ->
  forall i,
    attach w skip o p r i commits
    = Ok (imap (fun j c =>
                  mk_fetched c r o p
                             (if skip then ["main"] else branches_at w (i + j)))
               commits).
Proof.
  induction commits as [|c commits IH]; intros H i; [done|].
  assert (skip = false -> Forall (fun c => is_Some (commitId c)) commits) as H'.
  { intros E. by apply Forall_cons in H as [_ H]. }
  cbn [attach imap]. rewrite (IH H' (S i)).
  assert (imap ((fun j c0 => mk_fetched c0 r o p
                               (if skip then ["main"] else branches_at w (i + j))) ∘ S)
               commits
          = imap (fun j c0 => mk_fetched c0 r o p
                                (if skip then ["main"] else branches_at w (S i + j)))
                 commits) as ->.
  { apply imap_ext. intros j x _. cbn. by rewrite Nat.add_succ_r. }
  destruct skip; [done|].
  apply Forall_cons in H as [[id Hid] _]; [|done].
  unfold subscript_commitId, branches_at. rewrite Hid, Nat.add_0_r.
  destruct (get_commit_branches_returns (refs_call w i) (probe_call w i))
    as (bs & -> & _).
  done.
Qed.

(** X9.  [fetch_commits] succeeds when the URL parses, the listing answers
    with a status outside 400..599 (any other status, not only 200) and a
    body that decodes, and, unless branch detection is skipped, every
    retained commit has an identifier.  Its result is then the items that
    pass the client-side filter, in the order of the listing, each with the
    identity read from the URL and with the branch list of its own call to
    [get_commit_branches], or [main] when detection is skipped. *)
Theorem fetch_commits_success (w : remote) (url : string) (skip : bool)
    (af : option string) (o p r : string) (status_code : Z)
    (json : body api_commit) (items : list api_commit) :
  UrlParser.parse_repo_url url = Ok (o, p, r) ->
  commits_call w = Response status_code json ->
  (status_code < 400 \/ 600 <= status_code)%Z ->
  value_of json = Ok items ->
  (skip = false -> Forall (fun c => is_Some (commitId c)) (client_filter af items)) ->
  fetch_commits w url skip af = Ok (with_identity w skip o p r (client_filter af items)).
Proof.
  intros Hurl Hcall Hstatus Hjson Hids.
  unfold fetch_commits, fetch_commits_try. rewrite Hurl. cbn. rewrite Hcall.
  unfold raise_for_status.
  assert ((400 <=? status_code) && (status_code <? 600) = false)%Z as ->.
  { apply andb_false_iff. destruct Hstatus; [left | right]; lia. }
  cbn. rewrite Hjson. cbn. by rewrite (attach_imap _ _ _ _ _ _ Hids).
Qed.

Lemma fetch_commits_success_witness :
  fetch_commits
    (mk_remote
       (Response 302 (Value [mk_api_commit (Some "a1") None None;
                             mk_api_commit (Some "b2") None None]))
       (fun i => match i with
                 | 0 => Response 200 (Value [Some "refs/heads/dev"])
                 | _ => Fails RequestException
                 end)
       (fun _ _ _ => ProbeStatus 200))
    "https://dev.azure.com/org/proj/_git/repo" false None
  = Ok [mk_fetched (mk_api_commit (Some "a1") None None) "repo" "org" "proj" ["dev"];
        mk_fetched (mk_api_commit (Some "b2") None None) "repo" "org" "proj"
                   ["main/master"]].
Proof.
  rewrite (fetch_commits_success _ _ _ _ "org" "proj" "repo" 302
             (Value [mk_api_commit (Some "a1") None None;
                     mk_api_commit (Some "b2") None None])
             [mk_api_commit (Some "a1") None None; mk_api_commit (Some "b2") None None]);
    [reflexivity | reflexivity | reflexivity | lia | reflexivity |].
  intros _. by repeat constructor.
Defined.

Lemma attach_bounds w skip o p r commits :
  forall i done,
    attach w skip o p r i commits = Ok done ->
    Forall (fun c => 1 <= length (branches c) <= 2 /\ NoDup (branches c)) done.
Proof.
  induction commits as [|c commits IH]; intros i done; cbn [attach].
  - intros [= <-]. constructor.
  - destruct (if skip then Ok ["main"]
              else _ ← subscript_commitId c;
                   get_commit_branches (refs_call w i) (probe_call w i))
      as [bs|e] eqn:Hbs; [|done]. cbn.
    destruct (attach w skip o p r (S i) commits) as [rest|e] eqn:Hrest; [|done]. cbn.
    intros [= <-]. constructor; [|by apply (IH _ _ Hrest)]. cbn [branches].
    destruct skip.
    + injection Hbs as <-. split; [simpl; lia | apply NoDup_singleton].
    + destruct (subscript_commitId c); [|done]. cbn in Hbs.
      destruct (resolve_bounds (refs_call w i) (probe_call w i)) as (bs' & Hget & Hb).
      rewrite Hget in Hbs. by injection Hbs as <-.
Qed.

(** X10.  Whatever the remote side does, every commit that [fetch_commits]
    returns carries one or two branch names, and no name twice. *)
Theorem fetched_branch_lists (w : remote) (url : string) (skip : bool)
    (af : option string) :
  exists commits,
    fetch_commits w url skip af = Ok commits
    /\ Forall (fun c => 1 <= length (branches c) <= 2 /\ NoDup (branches c)) commits.
Proof.
  destruct (fetch_commits_ok w url skip af) as (commits & Hfetch & Hraise & Hdone).
  exists commits. split; [done|].
  destruct (fetch_commits_try w url skip af) as [done | e] eqn:Htry.
  - rewrite (Hdone done eq_refl).
    destruct (fetch_commits_try_ok _ _ _ _ _ Htry)
      as (o & p & r & st & json & items & _ & _ & _ & _ & Hattach).
    by apply (attach_bounds _ _ _ _ _ _ _ _ Hattach).
  - rewrite (Hraise e eq_refl). constructor.
Qed.

Lemma client_filter_some f commits :
  f <> "" -> client_filter (Some f) commits = filter (kept f) commits.
Proof.
  intros Hf. unfold client_filter, truthy. destruct f; [done|].
  apply filter_by_author_filter.
Qed.

Lemma kept_narrower f g c :
  contains (lower f) (lower g) = true -> kept g c -> kept f c.
Proof.
  intros Hfg. rewrite !kept_substring.
  intros [H | H]; [left | right]; by apply (contains_trans _ (lower g)).
Qed.

(** X11.  The client-side filter keeps a sub-sequence of the listing and
    changes nothing when applied again.  A filter string that, in lower
    case, contains another one is the narrower of the two: it keeps a
    sub-sequence of what the other keeps, and filtering with the other
    first loses nothing it keeps. *)
Theorem client_filter_narrowing (f g : string) (commits : list api_commit) :
  f <> "" ->
  contains (lower f) (lower g) = true ->
  client_filter (Some f) commits `sublist_of` commits
  /\ client_filter (Some f) (client_filter (Some f) commits)
     = client_filter (Some f) commits
  /\ client_filter (Some g) commits `sublist_of` client_filter (Some f) commits
  /\ client_filter (Some g) (client_filter (Some f) commits)
     = client_filter (Some g) commits.
Proof.
  intros Hf Hfg.
  assert (g <> "") as Hg.
  { intros ->. destruct f as [|a f]; [done|]. by cbn in Hfg. }
  assert (forall l : list api_commit,
             filter (kept g) (filter (kept f) l) = filter (kept g) l) as Hgf.
  { intros l. apply list_filter_filter_l. intros c. by apply kept_narrower. }
  rewrite !client_filter_some by done. split_and!.
  - apply sublist_filter.
  - by apply list_filter_filter_l.
  - rewrite <- Hgf. apply sublist_filter.
  - apply Hgf.
Qed.

Lemma client_filter_narrowing_witness :
  client_filter (Some "Alice@Example.com")
    [mk_api_commit (Some "1") (Some (mk_api_author (Some "Alice") (Some "alice@example.com") None)) None;
     mk_api_commit (Some "2") (Some (mk_api_author (Some "Malice") (Some "m@example.com") None)) None]
  `sublist_of`
  client_filter (Some "alice")
    [mk_api_commit (Some "1") (Some (mk_api_author (Some "Alice") (Some "alice@example.com") None)) None;
     mk_api_commit (Some "2") (Some (mk_api_author (Some "Malice") (Some "m@example.com") None)) None].
Proof.
  apply (client_filter_narrowing "alice" "Alice@Example.com"); [done | reflexivity].
Defined.

End FetcherMore.

(** ** More facts about the aggregator *)

Module AggregatorMore.
Import Datetime Aggregator AggregatorFacts Renderer SummaryFacts ReportShape.

Lemma populated_empty : populated ∅.
Proof. intros d repos H. by rewrite lookup_empty in H. Qed.

Lemma populated_append d r b c (o : report) :
  populated o -> populated (append_commit d r b c o).
Proof.
  intros Hinv d' repos'. unfold append_commit.
  rewrite lookup_update_default. destruct (decide (d = d')) as [<-|_]; [|apply Hinv].
  intros [= <-]. split; [apply insert_non_empty|].
  assert (forall r' bl, default ∅ (o !! d) !! r' = Some bl ->
            bl <> ∅ /\ forall b' cs, bl !! b' = Some cs -> cs <> []) as Hd.
  { intros r' bl. destruct (o !! d) as [repos|] eqn:E; simpl.
    - by apply (Hinv d repos E).
    - by rewrite lookup_empty. }
  intros r' bl'. rewrite lookup_update_default.
  destruct (decide (r = r')) as [<-|_]; [|apply Hd].
  intros [= <-]. split; [apply insert_non_empty|].
  intros b' cs'. rewrite lookup_update_default.
  destruct (decide (b = b')) as [<-|_].
  - intros [= <-]. by destruct (default [] _).
  - destruct (default ∅ (o !! d) !! r) as [bl|] eqn:E; simpl.
    + by apply (Hd r bl E).
    + by rewrite lookup_empty.
Qed.

Lemma populated_insert_all ins (o : report) :
  populated o -> populated (insert_all ins o).
Proof.
  revert o. induction ins as [|[[[d r] b] c] ins IH]; intros o H; [done|].
  rewrite insert_all_cons. by apply IH, populated_append.
Qed.

Lemma populated_organize all_commits :
  populated (organize_commits_by_date_and_repo all_commits).
Proof. rewrite organize_insertions. apply populated_insert_all, populated_empty. Qed.

Lemma leaf_keys_organize all_commits d r b :
  (d, r, b) ∈ leaf_keys (organize_commits_by_date_and_repo all_commits)
  <-> exists c, c ∈ all_commits /\ d = date_key c /\ r = repository c
                /\ b ∈ branches_of c.
Proof.
  split.
  - intros (repos & bl & cs & Hd & Hr & Hb)%elem_of_leaf_keys.
    destruct (populated_organize all_commits d repos Hd) as [_ H].
    destruct (H r bl Hr) as [_ H']. specialize (H' b cs Hb).
    destruct cs as [|c cs]; [done|]. exists c. apply elem_of_leaf_organize.
    unfold leaf. rewrite Hd, Hr, Hb. by left.
  - intros (c & H). apply (leaf_member_key _ c). by apply elem_of_leaf_organize.
Qed.

(** X12.  The report has a key exactly where a commit puts something: a
    (date, repository, branch) triple is present if and only if some commit
    of the input has that date and repository and names that branch, and a
    date if and only if some commit with a non-empty branch list has it.  No
    date, repository or branch is left with an empty container; a commit
    whose branch list is empty creates no key at all. *)
Theorem organize_keys (all_commits : list commit) :
  let organized := organize_commits_by_date_and_repo all_commits in
  (forall d r b,
      (d, r, b) ∈ leaf_keys organized
      <-> exists c, c ∈ all_commits /\ d = date_key c /\ r = repository c
                    /\ b ∈ branches_of c)
  /\ (forall d,
        d ∈ dom organized
        <-> exists c, c ∈ all_commits /\ d = date_key c /\ branches_of c <> [])
  /\ populated organized.
Proof.
  intros organized. split_and!.
  - apply leaf_keys_organize.
  - intros d. rewrite elem_of_dom. split.
    + intros [repos Hd].
      destruct (populated_organize all_commits d repos Hd) as [Hne H].
      apply map_choose in Hne as (r & bl & Hr).
      destruct (H r bl Hr) as [Hne' _]. apply map_choose in Hne' as (b & cs & Hb).
      assert ((d, r, b) ∈ leaf_keys organized) as Hk.
      { apply elem_of_leaf_keys. by exists repos, bl, cs. }
      apply leaf_keys_organize in Hk as (c & Hc & -> & _ & Hin).
      exists c. split_and!; [done | done |]. intros E. rewrite E in Hin.
      by apply elem_of_nil in Hin.
    + intros (c & Hc & -> & Hne).
      destruct (branches_of c) as [|b bs] eqn:E; [done|].
      assert ((date_key c, repository c, b) ∈ leaf_keys organized) as Hk.
      { apply leaf_keys_organize. exists c. rewrite E. split_and!; try done. by left. }
      apply elem_of_leaf_keys in Hk as (repos & _ & _ & Hd & _). by exists repos.
  - apply populated_organize.
Qed.

Lemma filter_key_insertions d r b all_commits :
  (filter (fun i => i.1 = (d, r, b)) (insertions all_commits)).*2
  = all_commits ≫= leaf_entries d r b.
Proof.
  unfold insertions. induction all_commits as [|c l IH]; [done|].
  rewrite !bind_cons, filter_app, fmap_app, IH. f_equal.
  unfold leaf_entries. generalize (branches_of c) as bs.
  induction bs as [|x bs IHbs].
  - by destruct (decide _).
  - rewrite bind_cons, filter_app, fmap_app, IHbs.
    rewrite filter_cons, (filter_cons _ x). rewrite filter_nil. cbn [fst].
    destruct (decide (date_key c = d /\ repository c = r)) as [[<- <-]|Hne].
    + destruct (decide (x = b)) as [->|Hx].
      * by rewrite decide_True.
      * rewrite decide_False; [done|]. by intros [= ->].
    + rewrite decide_False; [done|]. intros [= ? ? ?]. tauto.
Qed.

(** X13.  Each leaf lists its commits in the order of the input, a commit
    once for each time its branch list names the branch; so the leaves of
    two batches organized together are those of the first batch followed by
    those of the second, and the total count is the sum of the two totals:
    a commit fetched twice is counted twice. *)
Theorem leaf_in_input_order (all_commits more : list commit) (d r b : string) :
  leaf (organize_commits_by_date_and_repo all_commits) d r b
  = all_commits ≫= leaf_entries d r b
  /\ leaf (organize_commits_by_date_and_repo (all_commits ++ more)) d r b
     = leaf (organize_commits_by_date_and_repo all_commits) d r b
       ++ leaf (organize_commits_by_date_and_repo more) d r b
  /\ total_commits (organize_commits_by_date_and_repo (all_commits ++ more))
     = total_commits (organize_commits_by_date_and_repo all_commits)
       + total_commits (organize_commits_by_date_and_repo more).
Proof.
  assert (forall l, leaf (organize_commits_by_date_and_repo l) d r b
                    = l ≫= leaf_entries d r b) as H.
  { intros l. rewrite organize_insertions, leaf_insert_all, leaf_empty.
    apply filter_key_insertions. }
  split_and!.
  - apply H.
  - by rewrite !H, bind_app.
  - rewrite !organize_insertions, !total_commits_insert_all, !length_insertions.
    rewrite sum_list_with_app, total_commits_sum_values, sum_values_empty. lia.
Qed.

End AggregatorMore.

(** ** The renderer: what the summary counts *)

Module StoryFacts.
Import PySort PySortFacts Datetime Aggregator AggregatorFacts Renderer RendererFacts.
Import SummaryFacts StoryCounts.

Lemma sum_list_with_flat_map {A B} (f : B -> nat) (g : A -> list B) (l : list A) :
  sum_list_with f (flat_map g l) = sum_list_with (fun x => sum_list_with f (g x)) l.
Proof.
  induction l as [|x l IH]; [done|]. simpl. by rewrite sum_list_with_app, IH.
Qed.

Lemma sum_list_with_perm {A} (f : A -> nat) (l k : list A) :
  l ≡ₚ k -> sum_list_with f l = sum_list_with f k.
Proof. induction 1; simpl; lia. Qed.

Lemma sum_list_with_keys {A} `{Inhabited A} (g : A -> nat) (m : gmap string A) :
  sum_list_with (fun k => g (m !!! k)) (keys m) = sum_values g m.
Proof.
  unfold keys, sum_values.
  assert (forall l : list (string * A),
            sum_list_with (fun k => g (m !!! k)) l.*1
            = sum_list_with (fun kv => g (m !!! kv.1)) l) as ->.
  { intros l. induction l as [|x l IH]; [done|].
    rewrite fmap_cons. cbn [sum_list_with]. by rewrite IH. }
  apply sum_list_with_ext_in. intros [k v] Hin. cbn [fst snd].
  apply elem_of_map_to_list in Hin. by rewrite (lookup_total_correct _ _ _ Hin).
Qed.

Section counting.
Variable f : block -> nat.
Hypothesis date_header : forall d, f (DateHeader d) = 0.
Hypothesis repo_header : forall r, f (RepoHeader r) = 0.
Hypothesis spacer : forall n, f (Spacer n) = 0.
Hypothesis branch :
  forall b (commits sorted : list commit),
    sorted ≡ₚ commits ->
    f (BranchHeader b (length commits)) + sum_list_with f (commit_paragraph <$> sorted)
    = length commits.

Lemma count_branch_blocks (bl : branch_map) b :
  sum_list_with f (branch_blocks bl b) = length (bl !!! b).
Proof.
  unfold branch_blocks. cbn [sum_list_with]. apply branch.
  apply sorted_by_perm.
Qed.

Lemma count_repo_blocks (repos : repo_map) r :
  sum_list_with f (repo_blocks repos r) = sum_values length (repos !!! r).
Proof.
  unfold repo_blocks. cbn [sum_list_with].
  rewrite sum_list_with_app, sum_list_with_flat_map, repo_header. cbn [sum_list_with].
  rewrite spacer.
  rewrite (sum_list_with_perm _ _ (keys (repos !!! r)))
    by apply sorted_by_perm.
  rewrite (sum_list_with_ext_in _ (fun b => length ((repos !!! r) !!! b)))
    by (intros; apply count_branch_blocks).
  rewrite (sum_list_with_keys length). lia.
Qed.

Lemma count_date_blocks (o : report) d :
  sum_list_with f (date_blocks o d) = sum_values (sum_values length) (o !!! d).
Proof.
  unfold date_blocks. cbn [sum_list_with].
  rewrite sum_list_with_app, sum_list_with_flat_map, date_header. cbn [sum_list_with].
  rewrite spacer.
  rewrite (sum_list_with_perm _ _ (keys (o !!! d))) by apply sorted_by_perm.
  rewrite (sum_list_with_ext_in _ (fun r => sum_values length ((o !!! d) !!! r)))
    by (intros; apply count_repo_blocks).
  rewrite (sum_list_with_keys (sum_values length)). lia.
Qed.

Lemma count_body (o : report) :
  sum_list_with f (flat_map (date_blocks o) (sorted_str_reverse (keys o)))
  = total_commits o.
Proof.
  rewrite sum_list_with_flat_map.
  rewrite (sum_list_with_perm _ _ (keys o)) by apply sorted_by_perm.
  rewrite (sum_list_with_ext_in _ (fun d => sum_values (sum_values length) (o !!! d)))
    by (intros; apply count_date_blocks).
  by rewrite (sum_list_with_keys (sum_values (sum_values length))),
             total_commits_sum_values.
Qed.

End counting.

Lemma paragraphs_counted (sorted : list commit) :
  paragraph_count (commit_paragraph <$> sorted) = length sorted
  /\ announced_count (commit_paragraph <$> sorted) = 0.
Proof.
  unfold paragraph_count, announced_count.
  induction sorted as [|c sorted [IH1 IH2]]; [done|].
  rewrite fmap_cons. cbn [sum_list_with commit_paragraph length].
  by rewrite IH1, IH2.
Qed.

(** X14.  The total of the summary table is the number of commit paragraphs
    of the story, and also the sum of the counts announced by its branch
    headers: every entry of every leaf list is rendered, once. *)
Theorem story_counts (organized : report) (now : string)
    (author_filter : option string) :
  let story := generate_pdf organized now author_filter in
  paragraph_count story = total_commits organized
  /\ announced_count story = total_commits organized
  /\ SummaryTable (paragraph_count story) (date_range organized)
                  (repositories organized) ∈ story.
Proof.
  intros story.
  assert (paragraph_count story = total_commits organized) as Hp.
  { unfold paragraph_count, story, generate_pdf.
    rewrite sum_list_with_app, count_body; try done.
    - unfold header_blocks. by destruct author_filter as [[|c g]|].
    - intros b commits sorted Hperm.
      destruct (paragraphs_counted sorted) as [Hc _].
      unfold paragraph_count in Hc. rewrite Hc.
      by rewrite (Permutation_length Hperm). }
  split_and!; [done | |].
  - unfold announced_count, story, generate_pdf.
    rewrite sum_list_with_app, count_body; try done.
    + unfold header_blocks. by destruct author_filter as [[|c g]|].
    + intros b commits sorted _.
      destruct (paragraphs_counted sorted) as [_ Hc].
      unfold announced_count in Hc. rewrite Hc. lia.
  - rewrite Hp. unfold story, generate_pdf, header_blocks.
    apply elem_of_app. left. apply elem_of_app. right. apply elem_of_app. right.
    set_solver.
Qed.

Lemma elem_of_keys {A} (m : gmap string A) k : k ∈ keys m <-> is_Some (m !! k).
Proof.
  unfold keys. rewrite list_elem_of_fmap. split.
  - intros ([k' v] & -> & Hin). apply elem_of_map_to_list in Hin. by exists v.
  - intros [v Hv]. exists (k, v). split; [done|]. by apply elem_of_map_to_list.
Qed.

Lemma ltb_le a b : String.ltb a b = true -> String.le a b.
Proof. intros H. by apply ltb_false_le, ltb_asym. Qed.

Lemma min_str_spec k ks :
  min_str k ks ∈ k :: ks /\ Forall (String.le (min_str k ks)) (k :: ks).
Proof.
  revert k. induction ks as [|x ks IH]; intros k.
  - split; [by left|]. by repeat constructor.
  - unfold min_str. cbn [foldl]. fold (min_str (if String.ltb x k then x else k) ks).
    destruct (String.ltb x k) eqn:E.
    + destruct (IH x) as [Hin Hle]. split; [by right|].
      pose proof (proj1 (Forall_cons _ _ _) Hle) as [Hx _].
      constructor; [|done]. etrans; [exact Hx | by apply ltb_le].
    + destruct (IH k) as [Hin Hle]. split.
      * apply elem_of_cons in Hin as [-> | Hin]; [by left | by right; right].
      * pose proof (proj1 (Forall_cons _ _ _) Hle) as [Hk Hks].
        constructor; [done|]. constructor; [|done].
        etrans; [exact Hk | by apply ltb_false_le].
Qed.

Lemma max_str_spec k ks :
  max_str k ks ∈ k :: ks /\ Forall (fun x => String.le x (max_str k ks)) (k :: ks).
Proof.
  revert k. induction ks as [|x ks IH]; intros k.
  - split; [by left|]. by repeat constructor.
  - unfold max_str. cbn [foldl]. fold (max_str (if String.ltb k x then x else k) ks).
    destruct (String.ltb k x) eqn:E.
    + destruct (IH x) as [Hin Hle]. split; [by right|].
      pose proof (proj1 (Forall_cons _ _ _) Hle) as [Hx _].
      constructor; [|done]. etrans; [by apply ltb_le | exact Hx].
    + destruct (IH k) as [Hin Hle]. split.
      * apply elem_of_cons in Hin as [-> | Hin]; [by left | by right; right].
      * pose proof (proj1 (Forall_cons _ _ _) Hle) as [Hk Hks].
        constructor; [done|]. constructor; [|done].
        etrans; [by apply ltb_false_le | exact Hk].
Qed.

Lemma sorted_head {A} (R : relation A) l h x :
  StronglySorted R l -> head l = Some h -> x ∈ l -> x = h \/ R h x.
Proof.
  intros Hs Hh Hx. destruct l as [|a l]; [done|]. injection Hh as ->.
  apply StronglySorted_cons in Hs as [Hall _].
  apply elem_of_cons in Hx as [-> | Hx]; [by left|]. right.
  by eapply Forall_forall in Hall.
Qed.

Lemma sorted_last {A} (R : relation A) l z x :
  StronglySorted R l -> last l = Some z -> x ∈ l -> x = z \/ R x z.
Proof.
  induction l as [|a l IH]; [done|]. intros Hs Hz Hx.
  apply StronglySorted_cons in Hs as [Hall Hs].
  destruct l as [|b l].
  - injection Hz as <-. apply list_elem_of_singleton in Hx. by left.
  - change (last (b :: l) = Some z) in Hz.
    apply elem_of_cons in Hx as [-> | Hx]; [|by apply IH].
    right. eapply Forall_forall in Hall; [exact Hall|].
    apply last_Some in Hz as [l' ->]. apply elem_of_app. right. by left.
Qed.

(** X15.  The date range of the summary is [No commits] for the empty
    report.  Otherwise it names two date keys of the report, the least and
    the greatest in string order, and these are the date of the last and of
    the first date header of the story. *)
Theorem date_range_ends (organized : report) (now : string)
    (author_filter : option string) :
  (organized = ∅ /\ date_range organized = "No commits")
  \/ exists oldest newest,
       date_range organized = oldest +:+ " to " +:+ newest
       /\ oldest ∈ dom organized /\ newest ∈ dom organized
       /\ (forall d, d ∈ dom organized -> String.le oldest d /\ String.le d newest)
       /\ head (outline (generate_pdf organized now author_filter)).*1 = Some newest
       /\ last (outline (generate_pdf organized now author_filter)).*1 = Some oldest.
Proof.
  assert (forall d, d ∈ dom organized <-> d ∈ keys organized) as Hdom.
  { intros d. by rewrite elem_of_dom, elem_of_keys. }
  rewrite outline_generate_pdf. unfold date_part_of. rewrite fst_tagged.
  destruct (sorted_str_reverse_spec (keys organized) (keys_NoDup _)) as [Hperm Hsorted].
  unfold date_range. destruct (keys organized) as [|k ks] eqn:Hkeys.
  - left. split; [|done]. unfold keys in Hkeys.
    apply fmap_nil_inv in Hkeys. by apply map_to_list_empty_iff.
  - right. destruct (min_str_spec k ks) as [Hmin Hle].
    destruct (max_str_spec k ks) as [Hmax Hge].
    exists (min_str k ks), (max_str k ks).
    split_and!; [done | by apply Hdom | by apply Hdom | | |].
    + intros d Hd%Hdom. split.
      * by eapply Forall_forall in Hle.
      * eapply Forall_forall in Hge; [exact Hge | done].
    + destruct (sorted_str_reverse (k :: ks)) as [|h t] eqn:E.
      { by apply Permutation_nil_cons in Hperm. }
      simpl. f_equal.
      assert (h ∈ k :: ks) as Hh by (rewrite <- Hperm; by left).
      assert (max_str k ks ∈ h :: t) as Hm by by rewrite Hperm.
      destruct (sorted_head _ _ h _ Hsorted eq_refl Hm) as [-> | Hlt]; [done|].
      eapply Forall_forall in Hge; [|exact Hh]. apply ltb_false_le in Hge.
      simpl in Hlt. congruence.
    + destruct (last (sorted_str_reverse (k :: ks))) as [z|] eqn:E.
      2:{ apply last_None in E. rewrite E in Hperm.
          by apply Permutation_nil_cons in Hperm. }
      assert (z ∈ k :: ks) as Hz.
      { rewrite <- Hperm. apply last_Some in E as [l' ->].
        apply elem_of_app. right. by left. }
      assert (min_str k ks ∈ sorted_str_reverse (k :: ks)) as Hm by by rewrite Hperm.
      f_equal.
      destruct (sorted_last _ _ z _ Hsorted E Hm) as [-> | Hlt]; [done|].
      eapply Forall_forall in Hle; [|exact Hz]. apply ltb_false_le in Hle.
      simpl in Hlt. congruence.
Qed.

Lemma elem_of_repository_keys (o : report) r :
  r ∈ ('(_, date_commits) ← map_to_list o; keys date_commits)
  <-> exists d repos, o !! d = Some repos /\ is_Some (repos !! r).
Proof.
  rewrite list_elem_of_bind. split.
  - intros ([d repos] & Hr & Hin). apply elem_of_map_to_list in Hin.
    apply elem_of_keys in Hr. by exists d, repos.
  - intros (d & repos & Hd & Hr). exists (d, repos). split.
    + by apply elem_of_keys.
    + by apply elem_of_map_to_list.
Qed.

(** X16.  On the report of a list of commits, the summary counts the
    distinct repository names of the commits that have a non-empty branch
    list; a repository all of whose commits have an empty branch list is
    not counted. *)
Theorem repositories_counted (all_commits : list commit) :
  repositories (organize_commits_by_date_and_repo all_commits)
  = size (list_to_set (C := gset string)
            (repository <$> filter (fun c => branches_of c <> []) all_commits)).
Proof.
  unfold repositories. f_equal. apply set_eq. intros r.
  rewrite !elem_of_list_to_set, elem_of_repository_keys, list_elem_of_fmap.
  split.
  - intros (d & repos & Hd & [bl Hr]).
    destruct (AggregatorMore.populated_organize all_commits d repos Hd) as [_ H].
    destruct (H r bl Hr) as [Hne _]. apply map_choose in Hne as (b & cs & Hb).
    assert ((d, r, b) ∈ leaf_keys (organize_commits_by_date_and_repo all_commits))
      as Hk.
    { apply elem_of_leaf_keys. by exists repos, bl, cs. }
    apply AggregatorMore.leaf_keys_organize in Hk as (c & Hc & _ & -> & Hin).
    exists c. split; [done|]. apply list_elem_of_filter. split; [|done].
    intros E. rewrite E in Hin. by apply elem_of_nil in Hin.
  - intros (c & -> & [Hne Hc]%list_elem_of_filter).
    destruct (branches_of c) as [|b bs] eqn:E; [done|].
    assert ((date_key c, repository c, b)
              ∈ leaf_keys (organize_commits_by_date_and_repo all_commits)) as Hk.
    { apply AggregatorMore.leaf_keys_organize. exists c. rewrite E.
      split_and!; try done. by left. }
    apply elem_of_leaf_keys in Hk as (repos & bl & _ & Hd & Hr & _).
    by exists (date_key c), repos.
Qed.

Lemma insert_sorted_filter {A} (before : A -> A -> bool) (P : A -> Prop)
    `{!forall x, Decision (P x)} x l :
  (forall a b, P a -> P b -> before a b = false) ->
  filter P (insert_sorted before x l) = filter P (x :: l).
Proof.
  intros Hclass. induction l as [|y l IH]; [done|]. cbn [insert_sorted].
  destruct (before y x) eqn:E; [|done].
  rewrite filter_cons, IH, !(filter_cons _ x), (filter_cons _ y).
  destruct (decide (P y)) as [Hy|Hy]; [|done].
  destruct (decide (P x)) as [Hx|Hx]; [|done].
  rewrite (Hclass y x Hy Hx) in E. done.
Qed.

(** X17.  Sorting the commits of a leaf keeps the commits that have the
    same author instant in the order of the leaf list: among them the
    story follows the order of the input. *)
Theorem sorted_commits_stable (commits : list commit) (t : Z) :
  filter (fun c => instant (author_date c) = t) (sorted_commits commits)
  = filter (fun c => instant (author_date c) = t) commits.
Proof.
  unfold sorted_commits, sorted_by. induction commits as [|c commits IH]; [done|].
  cbn [foldr]. rewrite insert_sorted_filter.
  - by rewrite !filter_cons, IH.
  - intros a b -> ->. apply Z.ltb_irrefl.
Qed.

End StoryFacts.

(** ** [main]: configuration, fetching and the exit for no data *)

Module MainFacts.
Import PyStr PyStrFacts BranchResolver Fetcher FetcherFacts Main.

Lemma fetch_loop_fetch_all world repos skip author :
  Forall (fun rc => is_Some (url rc) /\ is_Some (token rc)) repos ->
  forall i acc, exists more,
    fetch_all (fetches world i repos) skip author = Ok more
    /\ fetch_loop world i repos skip author acc = Ok (acc ++ more).
Proof.
  induction repos as [|rc repos IH]; intros H i acc.
  - exists []. by rewrite app_nil_r.
  - apply Forall_cons in H as [[[u Hu] [t Ht]] H].
    destruct (fetch_commits_ok (world i) u skip author) as (commits & Hfetch & _).
    destruct (IH H (S i) (acc ++ commits)) as (more & Hall & Hloop).
    exists (commits ++ more). unfold fetches in *. cbn [imap fetch_all fetch_loop].
    rewrite Hu, Ht, Nat.add_0_r. cbn. rewrite Hfetch. cbn.
    rewrite Hloop, <- app_assoc.
    assert (imap ((fun j repo_config =>
                     (world (i + j), default "" (url repo_config))) ∘ S) repos
            = imap (fun j repo_config =>
                      (world (S i + j), default "" (url repo_config))) repos) as ->.
    { apply imap_ext. intros j x _. cbn. by rewrite Nat.add_succ_r. }
    by rewrite Hall.
Qed.

Lemma fetch_all_failing repos skip author :
  Forall (fun r => exists e, fetch_commits_try r.1 r.2 skip author = Raise e) repos ->
  fetch_all repos skip author = Ok [].
Proof.
  induction repos as [|[w u] repos IH]; intros H; [done|].
  apply Forall_cons in H as [[e He] H]. cbn [fetch_all].
  destruct (fetch_commits_ok w u skip author) as (commits & Hfetch & Hraise & _).
  rewrite Hfetch, (Hraise e He), (IH H). done.
Qed.

(** X18.  With a config file that loads and whose entries all have a URL
    and a token, [main] fetches the repositories in the order of the file
    and goes on with the concatenation of what the fetches return; it exits
    with status 1 exactly when they return nothing at all, in particular
    when every fetch fails, although no fetch raises.  A file without the
    [repositories] key counts as an empty list. *)
Theorem main_fetches_or_exits (repositories : option (list repo_config))
    (inputs : list string) (author : option string) (skip : bool)
    (world : nat -> remote) :
  Forall (fun rc => is_Some (url rc) /\ is_Some (token rc)) (default [] repositories) ->
  exists all_commits,
    fetch_all (fetches world 0 (default [] repositories)) skip author = Ok all_commits
    /\ main (Some (Loaded repositories)) inputs author skip world
       = match all_commits with
         | [] => Exit 1
         | _ => Proceeds all_commits author
         end
    /\ (Forall (fun r => exists e, fetch_commits_try r.1 r.2 skip author = Raise e)
               (fetches world 0 (default [] repositories)) ->
        main (Some (Loaded repositories)) inputs author skip world = Exit 1).
Proof.
  intros H.
  destruct (fetch_loop_fetch_all world _ skip author H 0 []) as (more & Hall & Hloop).
  exists more. unfold main, configure. rewrite Hloop, app_nil_l.
  split_and!; [done | done |].
  intros Hfail. rewrite (fetch_all_failing _ _ _ Hfail) in Hall. by injection Hall as <-.
Qed.

Lemma main_fetches_or_exits_witness :
  main (Some (Loaded (Some [mk_repo_config (Some "https://github.com/a/b") (Some "t")])))
       [] None false
       (fun _ => mk_remote (Fails RequestException) (fun _ => Fails RequestException)
                           (fun _ _ _ => ProbeFails))
  = Exit 1.
Proof.
  destruct (main_fetches_or_exits
              (Some [mk_repo_config (Some "https://github.com/a/b") (Some "t")])
              [] None false
              (fun _ => mk_remote (Fails RequestException)
                                  (fun _ => Fails RequestException)
                                  (fun _ _ _ => ProbeFails)))
    as (all_commits & _ & _ & Hexit).
  - repeat constructor; by eexists.
  - apply Hexit. repeat constructor. by eexists.
Defined.

Lemma fetch_loop_missing_key world pre rc post skip author :
  Forall (fun rc => is_Some (url rc) /\ is_Some (token rc)) pre ->
  url rc = None \/ token rc = None ->
  forall i acc,
    fetch_loop world i (pre ++ rc :: post) skip author acc
    = Raise (KeyError (if url rc is None then "url" else "token")).
Proof.
  intros Hpre Hrc. induction pre as [|rc' pre IH]; intros i acc.
  - cbn [app fetch_loop]. destruct (url rc) as [u|]; [|done].
    destruct Hrc as [|Ht]; [done|]. by rewrite Ht.
  - apply Forall_cons in Hpre as [[[u Hu] [t Ht]] Hpre].
    rewrite <- app_comm_cons. cbn [fetch_loop]. rewrite Hu, Ht. cbn.
    destruct (fetch_commits_ok (world i) u skip author) as (commits & -> & _). cbn.
    by apply IH.
Qed.

(** X19.  An entry of the config file without [url] or without [token]
    ends [main] with an uncaught KeyError, also when the entries before it
    were fetched: what they returned is lost, whatever comes after is not
    fetched. *)
Theorem main_missing_key (pre post : list repo_config) (rc : repo_config)
    (inputs : list string) (author : option string) (skip : bool)
    (world : nat -> remote) :
  Forall (fun rc => is_Some (url rc) /\ is_Some (token rc)) pre ->
  url rc = None \/ token rc = None ->
  main (Some (Loaded (Some (pre ++ rc :: post)))) inputs author skip world
  = Uncaught (KeyError (if url rc is None then "url" else "token")).
Proof.
  intros Hpre Hrc. unfold main, configure. cbn [default from_option id].
  by rewrite (fetch_loop_missing_key _ _ _ _ _ _ Hpre Hrc).
Qed.

Lemma main_missing_key_witness :
  main (Some (Loaded (Some [mk_repo_config (Some "https://dev.azure.com/o/p/_git/r")
                                           (Some "t");
                            mk_repo_config (Some "https://dev.azure.com/o/p/_git/q")
                                           None])))
       [] None true
       (fun _ => mk_remote (Response 200 (Value [mk_api_commit (Some "a1") None None]))
                           (fun _ => Fails RequestException)
                           (fun _ _ _ => ProbeFails))
  = Uncaught (KeyError "token").
Proof.
  apply (main_missing_key
           [mk_repo_config (Some "https://dev.azure.com/o/p/_git/r") (Some "t")] []).
  - repeat constructor; by eexists.
  - by right.
Defined.

Lemma prompt_repos_typed answers done_line rest :
  Forall (fun a => lower (strip a.1) <> "done") answers ->
  lower (strip done_line) = "done" ->
  forall acc,
    prompt_repos (typed answers ++ done_line :: rest) acc
    = Ok (acc ++ entered answers, rest).
Proof.
  intros Hans Hdone. induction answers as [|[u t] answers IH]; intros acc.
  - cbn [typed mbind list_bind app prompt_repos]. rewrite Hdone. cbn.
    by rewrite app_nil_r.
  - apply Forall_cons in Hans as [Hu Hans]. cbn [fst] in Hu.
    change (typed ((u, t) :: answers)) with (u :: t :: typed answers).
    cbn [app prompt_repos].
    destruct (String.eqb (lower (strip u)) "done") eqn:E.
    { by apply String.eqb_eq in E. }
    rewrite (IH Hans). unfold entered. rewrite fmap_cons. cbn [fst snd].
    by rewrite <- app_assoc.
Qed.

Lemma prompt_repos_eof n :
  forall inputs acc,
    length inputs <= n ->
    Forall (fun line => lower (strip line) <> "done") inputs ->
    prompt_repos inputs acc = Raise eof.
Proof.
  induction n as [|n IH]; intros inputs acc Hlen H.
  - destruct inputs; [done | cbn in Hlen; lia].
  - destruct inputs as [|u [|t inputs]]; [done | |];
      cbn [prompt_repos]; apply Forall_cons in H as [Hu H];
      (destruct (String.eqb (lower (strip u)) "done") eqn:E;
       [by apply String.eqb_eq in E|]); [done|].
    apply Forall_cons in H as [_ H]. apply IH; [|done]. cbn in Hlen. lia.
Qed.

(** X20.  Without [--config], [main] reads a URL and then a token until a
    URL answer is [done], in any letter case and with any surrounding
    whitespace.  The entries are the answers, stripped, in the order typed;
    nothing is checked, and [done] typed as a token is a token.  With no
    entry [main] exits with status 1; when the input ends before a URL
    answer is [done], it ends with an uncaught EOFError. *)
Theorem main_prompts (answers : list (string * string)) (done_line : string)
    (rest : list string) (author : option string) (skip : bool)
    (world : nat -> remote) :
  Forall (fun a => lower (strip a.1) <> "done") answers ->
  lower (strip done_line) = "done" ->
  prompt_repos (typed answers ++ done_line :: rest) [] = Ok (entered answers, rest)
  /\ (answers = [] ->
      main None (typed answers ++ done_line :: rest) author skip world = Exit 1)
  /\ (forall inputs,
        Forall (fun line => lower (strip line) <> "done") inputs ->
        main None inputs author skip world = Uncaught eof).
Proof.
  intros Hans Hdone. split_and!.
  - by rewrite (prompt_repos_typed _ _ _ Hans Hdone).
  - intros ->. unfold main, configure.
    by rewrite (prompt_repos_typed [] _ _ Hans Hdone).
  - intros inputs H. unfold main, configure.
    by rewrite (prompt_repos_eof (length inputs) inputs [] (Nat.le_refl _) H).
Qed.

Lemma main_prompts_witness :
  prompt_repos ["https://dev.azure.com/o/p/_git/r "; "done"; "  DoNe "; "me"] []
  = Ok ([mk_repo_config (Some "https://dev.azure.com/o/p/_git/r") (Some "done")],
        ["me"]).
Proof.
  apply (main_prompts [("https://dev.azure.com/o/p/_git/r ", "done")] "  DoNe " ["me"]
                      None false
                      (fun _ => mk_remote (Fails RequestException)
                                          (fun _ => Fails RequestException)
                                          (fun _ _ _ => ProbeFails))).
  - repeat constructor. by vm_compute.
  - reflexivity.
Defined.

End MainFacts.

(** ** The authentication header *)

Module AuthFacts.
Import PyStrFacts Auth.

Lemma decode_encode_sextet s : decode_char (encode_sextet s) = Some s.
Proof.
  destruct s as [[[[[b5 b4] b3] b2] b1] b0].
  destruct b5, b4, b3, b2, b1, b0; reflexivity.
Qed.

Lemma encode_sextet_not_pad s : Ascii.eqb (encode_sextet s) "=" = false.
Proof.
  destruct s as [[[[[b5 b4] b3] b2] b1] b0].
  destruct b5, b4, b3, b2, b1, b0; reflexivity.
Qed.

Lemma b64_round_trip n :
  forall bytes, String.length bytes <= n -> b64decode (b64encode bytes) = Some bytes.
Proof.
  induction n as [|n IH]; intros bytes Hlen.
  - destruct bytes; [done | cbn in Hlen; lia].
  - destruct bytes as [|[a0 a1 a2 a3 a4 a5 a6 a7]
                        [|[b0 b1 b2 b3 b4 b5 b6 b7]
                           [|[c0 c1 c2 c3 c4 c5 c6 c7] rest]]]; [done | | |].
    + cbn [b64encode b64decode].
      rewrite !decode_encode_sextet. cbn [mbind option_bind].
      by rewrite Ascii.eqb_refl.
    + cbn [b64encode b64decode].
      rewrite !decode_encode_sextet. cbn [mbind option_bind].
      by rewrite encode_sextet_not_pad, Ascii.eqb_refl.
    + cbn [b64encode b64decode].
      rewrite !decode_encode_sextet. cbn [mbind option_bind].
      rewrite !encode_sextet_not_pad.
      rewrite IH; [done|]. cbn in Hlen. lia.
Qed.

Lemma b64encode_inj a b : b64encode a = b64encode b -> a = b.
Proof.
  intros H. apply (f_equal b64decode) in H.
  rewrite (b64_round_trip _ a (Nat.le_refl _)),
          (b64_round_trip _ b (Nat.le_refl _)) in H.
  by injection H.
Qed.

(** X21.  The Authorization header that [setup_auth] sets is [Basic]
    followed by the base64 form of a colon and the token; decoding gives
    the colon and the token back, so two tokens never give the same header.
    A later call replaces the header of an earlier one, and no other header
    of the session is touched: the session carries the last token only. *)
Theorem setup_auth_last_token (token other : string) (session_headers : headers) :
  setup_auth token session_headers !! "Authorization"
  = Some ("Basic " +:+ b64encode (":" +:+ token))
  /\ b64decode (b64encode (":" +:+ token)) = Some (":" +:+ token)
  /\ (forall session_headers',
        setup_auth token session_headers !! "Authorization"
        = setup_auth other session_headers' !! "Authorization" ->
        token = other)
  /\ setup_auth token (setup_auth other session_headers)
     = setup_auth token session_headers
  /\ (forall k, k <> "Authorization" -> k <> "Content-Type" ->
                setup_auth token session_headers !! k = session_headers !! k).
Proof.
  assert (forall t h, setup_auth t h !! "Authorization"
                      = Some ("Basic " +:+ b64encode (":" +:+ t))) as Hget.
  { intros t h. unfold setup_auth.
    rewrite lookup_insert_ne by done. by rewrite lookup_insert_eq. }
  split_and!.
  - apply Hget.
  - apply (b64_round_trip _ _ (Nat.le_refl _)).
  - intros h'. rewrite !Hget.
    remember (b64encode (":" +:+ token)) as e1 eqn:E1.
    remember (b64encode (":" +:+ other)) as e2 eqn:E2.
    intros [= H]. rewrite !str_app_empty_l in H. subst e1 e2 .
    apply b64encode_inj in H. rewrite !str_app_cons, !str_app_empty_l in H.
    by injection H.
  - unfold setup_auth. apply map_eq. intros k.
    destruct (decide (k = "Content-Type")) as [->|Hc].
    { by rewrite !lookup_insert_eq. }
    rewrite !(lookup_insert_ne _ "Content-Type") by done.
    destruct (decide (k = "Authorization")) as [->|Ha].
    { by rewrite !lookup_insert_eq. }
    rewrite !(lookup_insert_ne _ "Authorization") by done.
    by rewrite !lookup_insert_ne by done.
  - intros k Ha Hc. unfold setup_auth. by rewrite !lookup_insert_ne by done.
Qed.

End AuthFacts.

(** ** The two fetchers *)

Module BasicFetcherFacts.
Import BranchResolver BranchResolverFacts Fetcher FetcherFacts BasicFetcher.

Lemma basic_get_commit_branches_returns refs :
  exists branches, basic_get_commit_branches refs = Ok branches.
Proof.
  unfold basic_get_commit_branches. destruct (basic_resolve refs); by eexists.
Qed.

Lemma basic_attach_ok w o p r commits :
  Forall (fun c => is_Some (commitId c)) commits ->
  forall i, exists done,
    BasicFetcher.attach w o p r i commits = Ok done
    /\ identified <$> done = (fun c => (c, r, o, p)) <$> commits.
Proof.
  induction commits as [|c commits IH]; intros H i.
  - by exists [].
  - apply Forall_cons in H as [[id Hid] H]. cbn [BasicFetcher.attach].
    unfold subscript_commitId. rewrite Hid. cbn.
    destruct (basic_get_commit_branches_returns (refs_call w i)) as [bs ->]. cbn.
    destruct (IH H (S i)) as (done & -> & Hdone). cbn.
    eexists. split; [done|]. by rewrite !fmap_cons, Hdone.
Qed.

Lemma basic_attach_missing_id w o p r commits :
  (exists c, c ∈ commits /\ commitId c = None) ->
  forall i, exists e, BasicFetcher.attach w o p r i commits = Raise e.
Proof.
  intros (c & Hin & Hnone). induction commits as [|c' commits IH]; intros i.
  - by apply elem_of_nil in Hin.
  - cbn [BasicFetcher.attach]. apply elem_of_cons in Hin as [<- | Hin].
    + unfold subscript_commitId. rewrite Hnone. cbn. by eexists.
    + destruct (_ ← subscript_commitId c'; basic_get_commit_branches (refs_call w i))
        as [bs|e]; [|cbn; by eexists].
      cbn. destruct (IH Hin (S i)) as [e ->]. cbn. by eexists.
Qed.

Lemma attach_ok w o p r commits :
  Forall (fun c => is_Some (commitId c)) commits ->
  forall i, exists done,
    Fetcher.attach w false o p r i commits = Ok done
    /\ identified <$> done = (fun c => (c, r, o, p)) <$> commits.
Proof.
  intros H i. destruct (attach_succeeds w false o p r commits (fun _ => H) i) as [done Hd].
  exists done. split; [done|].
  destruct (attach_complete _ _ _ _ _ _ _ _ Hd) as [<- Hall]. clear Hd H.
  induction done as [|c done IH]; [done|].
  apply Forall_cons in Hall as [(Hr & Ho & Hp & _) Hall].
  cbn [map]. rewrite !fmap_cons, (IH Hall). unfold identified.
  by rewrite Hr, Ho, Hp.
Qed.

Lemma missing_id commits :
  ~ Forall (fun c : api_commit => is_Some (commitId c)) commits ->
  exists c, c ∈ commits /\ commitId c = None.
Proof.
  intros H. apply not_Forall_Exists in H; [|apply _].
  apply Exists_exists in H as (c & Hin & Hc). exists c. split; [done|].
  cbn in Hc. destruct (commitId c); [|done]. by destruct Hc.
Qed.

(** X22.  The fetcher of [azure_commits_pdf.py] and the fetcher of
    [git_rep_gen.py] called without filter and with branch detection, given
    the same answer of the commit listing, return the same commits with the
    same repository identity, in the same order, and fail (returning
    nothing) on the same inputs; only the branch lists, which come from
    different resolvers, may differ. *)
Theorem fetchers_agree (w : remote) (refs' : nat -> http ref_item)
    (probe' : nat -> nat -> string -> probe) (repo_url : string) :
  exists basic full,
    BasicFetcher.fetch_commits w repo_url = Ok basic
    /\ Fetcher.fetch_commits (mk_remote (commits_call w) refs' probe')
                             repo_url false None = Ok full
    /\ identified <$> basic = identified <$> full.
Proof.
  unfold BasicFetcher.fetch_commits, BasicFetcher.fetch_commits_try,
    Fetcher.fetch_commits, Fetcher.fetch_commits_try.
  cbn [commits_call client_filter].
  remember (mk_remote (commits_call w) refs' probe') as w' eqn:Hw'. clear Hw'.
  destruct (UrlParser.parse_repo_url repo_url) as [[[o p] r]|e]; cbn;
    [|by exists [], []; destruct e].
  destruct (commits_call w) as [e|status_code json]; [by exists [], []; destruct e|].
  destruct (raise_for_status status_code) as [[]|e]; cbn;
    [|by exists [], []; destruct e].
  destruct (value_of json) as [commits|e]; cbn; [|by exists [], []; destruct e].
  destruct (decide (Forall (fun c => is_Some (commitId c)) commits)) as [H|H].
  - destruct (basic_attach_ok w o p r commits H 0) as (basic & -> & Hb).
    destruct (attach_ok w' o p r commits H 0) as (full & -> & Hf).
    exists basic, full. by rewrite Hb, Hf.
  - apply missing_id in H.
    destruct (basic_attach_missing_id w o p r commits H 0) as [e ->].
    destruct (attach_missing_id w' o p r commits H 0) as [e' ->].
    exists [], []. by destruct e, e'.
Qed.

End BasicFetcherFacts.

(** ** The timestamp handed to [fromisoformat] *)

Module IsoDateFacts.
Import PyStr PyStrFacts IsoDate.

Lemma replace_after_clean (p : ascii) new s t :
  contains (String p "") s = false ->
  replace (String p "") new (s +:+ t) = s +:+ replace (String p "") new t.
Proof.
  induction s as [|c s IH]; intros H; [by rewrite !str_app_empty_l|].
  apply contains_cons_false in H as [Hc Hs].
  rewrite !str_app_cons, replace_keep, IH; [done | done |].
  intros ->. cbn [startswith] in Hc. by rewrite Ascii.eqb_refl in Hc.
Qed.

(** X23.  Before parsing, every [Z] of the timestamp is replaced by
    [+00:00], not only a trailing one: a timestamp without [Z] is left as it
    is, one whose only [Z] is the last character gets the offset in its
    place, and a [Z] anywhere else is replaced as well. *)
Theorem utc_offset_form_cases (date rest : string) :
  contains "Z" date = false ->
  utc_offset_form date = date
  /\ utc_offset_form (date +:+ "Z") = date +:+ "+00:00"
  /\ utc_offset_form (date +:+ "Z" +:+ rest)
     = date +:+ "+00:00" +:+ utc_offset_form rest.
Proof.
  intros H. unfold utc_offset_form. split_and!.
  - by apply replace_absent.
  - rewrite replace_after_clean by done. by vm_compute.
  - rewrite replace_after_clean by done.
    by rewrite (replace_prefix "Z" "" "+00:00" rest).
Qed.

Lemma utc_offset_form_cases_witness :
  utc_offset_form "2024-01-02T10:00:00Z" = "2024-01-02T10:00:00+00:00".
Proof. apply (utc_offset_form_cases "2024-01-02T10:00:00" ""). reflexivity. Defined.

End IsoDateFacts.
